(** * LegalizeJSInterface: a shallow embedding of binaryen's JS-interface
    legalization pass (src/passes/LegalizeJSInterface.cpp) and the
    properties of its specification.

    The pass rewrites imports, exports and the indirect-call table of a
    module so that no i64 and no f32 crosses the boundary to JS.  The
    module IR (wasm.h), the expression builder, the tree walker and the
    i64 helpers are collaborators of the pass; they are modelled in the
    first part of this file, the pass itself in the second part. *)

From Stdlib Require Import List String Ascii Bool ZArith Lia Arith.
From Stdlib Require Import Permutation.
Import ListNotations.
Open Scope string_scope.
Open Scope list_scope.

Set Implicit Arguments.

(* ===================================================================== *)
(** * The IR substrate *)
(* ===================================================================== *)

(** Modelled from the spec: [Name], the interned string functions,
    types, exports and table entries are identified by.  A name that may
    be unset ([Name()], tested with [is()]) is an [option Name] here. *)
Definition Name := string.

(** Modelled from the spec: the comparison of a name that may be unset
    with a name. *)
Definition optName_eqb (a : option Name) (b : Name) : bool :=
  match a with
  | Some a' => String.eqb a' b
  | None => false
  end.

(** Modelled from the spec: the value types of wasm.h (the header is not
    among the sources).  The two "illegal" families of the spec are [i64]
    and [f32]. *)
Inductive Type_ : Set := none | i32 | i64 | f32 | f64 | unreachable.

(** Modelled from the spec: equality of value types, the [==] of the
    source. *)
Definition Type_eqb (a b : Type_) : bool :=
  match a, b with
  | none, none | i32, i32 | i64, i64 | f32, f32 | f64, f64
  | unreachable, unreachable => true
  | _, _ => false
  end.

(** Modelled from the spec: the constants of wasm.h.  A literal carries
    its bit pattern: an i32 is a [Z] in [0, 2^32), an i64 a [Z] in
    [0, 2^64); floats are kept as raw bits. *)
Inductive Literal : Set :=
| LitI32 (bits : Z)
| LitI64 (bits : Z)
| LitF32 (bits : Z)
| LitF64 (bits : Z).

(** Modelled from the spec: the unary operations the stubs are built
    from (extend, wrap, promote, demote) and a few of their kin. *)
Inductive UnaryOp : Set :=
| ExtendUInt32 | ExtendSInt32 | WrapInt64 | PromoteFloat32 | DemoteFloat64
| EqZInt32 | SqrtFloat64.

(** Modelled from the spec: the binary operations the stubs are built
    from (or, shift left, unsigned shift right) and a few of their kin. *)
Inductive BinaryOp : Set :=
| OrInt64 | ShlInt64 | ShrUInt64 | AddInt32 | AddInt64 | MulFloat64.

Scheme All for list.
Scheme All for option.

(** Modelled from the spec: the expression tree of wasm.h, restricted to
    the node kinds the pass builds (calls, local and global accesses,
    constants, unary and binary operations, blocks) and the control
    nodes a function body nests them in. *)
Inductive Expression : Set :=
| Nop
| Unreachable
| Block (list_ : list Expression)
| If (condition ifTrue : Expression) (ifFalse : option Expression)
| Loop (body : Expression)
| Call (target : Name) (operands : list Expression) (type : Type_)
| CallIndirect (fullType : Name) (operands : list Expression)
               (target : Expression)
| GetLocal (index : nat) (type : Type_)
| SetLocal (index : nat) (value : Expression)
| GetGlobal (name : Name) (type : Type_)
| SetGlobal (name : Name) (value : Expression)
| Const (value : Literal)
| Unary (op : UnaryOp) (value : Expression)
| Binary (op : BinaryOp) (left right : Expression)
| Drop (value : Expression)
| Return (value : option Expression).

(** Anything with [params] and a [result]: the template parameter of
    [isIllegal], instantiated by the source at [Function] and at
    [FunctionType]. *)
Class Signature (T : Type) : Type :=
  { params : T -> list Type_;
    result : T -> Type_ }.

(** Modelled from the spec: a named record of parameter types and a
    result type, shared by the functions that name it. *)
Record FunctionType : Set :=
  { ft_name : Name;
    ft_params : list Type_;
    ft_result : Type_ }.

#[export] Instance FunctionType_Signature : Signature FunctionType :=
  {| params := ft_params; result := ft_result |}.

(** Modelled from the spec: a function has a name, parameter types, a
    result type, further locals, and either a body or the host module
    and base it is imported from; an import names its function type. *)
Record Function : Set :=
  { fn_name : Name;
    fn_params : list Type_;
    fn_result : Type_;
    fn_vars : list Type_;
    fn_type : option Name;
    fn_body : option Expression;
    fn_module : option Name;
    fn_base : option Name }.

#[export] Instance Function_Signature : Signature Function :=
  {| params := fn_params; result := fn_result |}.

(** Modelled from the spec: [Importable::imported], true exactly when
    the host module name is set. *)
Definition imported (f : Function) : bool :=
  match fn_module f with Some _ => true | None => false end.

(** Modelled from the spec: what an export exports. *)
Inductive ExternalKind : Set := KFunction | KTable | KMemory | KGlobal.

Definition isFunctionKind (k : ExternalKind) : bool :=
  match k with KFunction => true | _ => false end.

(** Modelled from the spec: an export is a name for the host and the
    name of what it targets, which the pass may repoint. *)
Record Export : Set :=
  { ex_name : Name;
    ex_value : Name;
    ex_kind : ExternalKind }.

(** Modelled from the spec: a named, typed storage cell with an initial
    value, mutable or not. *)
Record Global : Set :=
  { gl_name : Name;
    gl_type : Type_;
    gl_init : Expression;
    gl_mutable : bool }.

(** Modelled from the spec: a table segment, an ordered sequence of
    function names used for indirect calls. *)
Record Segment : Set :=
  { seg_offset : Expression;
    seg_data : list Name }.

(** Modelled from the spec: the module owns its function types,
    functions, exports, globals and the segments of its table, each in
    the order of creation. *)
Record Module : Set :=
  { functionTypes : list FunctionType;
    functions : list Function;
    exports : list Export;
    globals : list Global;
    table : list Segment }.

(** ** Lookup, creation and removal

    The module's create/lookup/remove primitives (wasm.cpp) are not
    among the sources.  A lookup finds the first entity of the given
    name; creation appends; removal drops the first function of the
    given name. *)

(** Modelled from the spec: [Module::getFunctionOrNull], lookup of a
    function by name. *)
Definition getFunctionOrNull (m : Module) (n : Name) : option Function :=
  find (fun f => String.eqb (fn_name f) n) (functions m).

(** Modelled from the spec: [Module::getFunctionTypeOrNull]. *)
Definition getFunctionTypeOrNull (m : Module) (n : Name)
  : option FunctionType :=
  find (fun t => String.eqb (ft_name t) n) (functionTypes m).

(** Modelled from the spec: [Module::getExportOrNull]. *)
Definition getExportOrNull (m : Module) (n : Name) : option Export :=
  find (fun e => String.eqb (ex_name e) n) (exports m).

(** Modelled from the spec: [Module::getGlobalOrNull]. *)
Definition getGlobalOrNull (m : Module) (n : Name) : option Global :=
  find (fun g => String.eqb (gl_name g) n) (globals m).

Definition set_functions (m : Module) (fs : list Function) : Module :=
  {| functionTypes := functionTypes m; functions := fs;
     exports := exports m; globals := globals m; table := table m |}.

Definition set_exports (m : Module) (es : list Export) : Module :=
  {| functionTypes := functionTypes m; functions := functions m;
     exports := es; globals := globals m; table := table m |}.

Definition set_table (m : Module) (t : list Segment) : Module :=
  {| functionTypes := functionTypes m; functions := functions m;
     exports := exports m; globals := globals m; table := t |}.

(** Modelled from the spec: [Module::addFunction], creation of a
    function. *)
Definition addFunction (m : Module) (curr : Function) : Module :=
  set_functions m (functions m ++ [curr]).

(** Modelled from the spec: [Module::addFunctionType]. *)
Definition addFunctionType (m : Module) (curr : FunctionType) : Module :=
  {| functionTypes := functionTypes m ++ [curr]; functions := functions m;
     exports := exports m; globals := globals m; table := table m |}.

(** Modelled from the spec: [Module::addExport]. *)
Definition addExport (m : Module) (curr : Export) : Module :=
  set_exports m (exports m ++ [curr]).

(** Modelled from the spec: [Module::addGlobal]. *)
Definition addGlobal (m : Module) (curr : Global) : Module :=
  {| functionTypes := functionTypes m; functions := functions m;
     exports := exports m; globals := globals m ++ [curr];
     table := table m |}.

(** Modelled from the spec: the scan of [Module::removeFunction] for the
    function to drop. *)
Fixpoint removeFirst (n : Name) (fs : list Function) : list Function :=
  match fs with
  | [] => []
  | f :: rest =>
      if String.eqb (fn_name f) n then rest else f :: removeFirst n rest
  end.

(** Modelled from the spec: [Module::removeFunction], the one deletion
    the pass performs. *)
Definition removeFunction (m : Module) (n : Name) : Module :=
  set_functions m (removeFirst n (functions m)).

(** Modelled from the spec: ImportInfo of ir/import-utils.h, which
    collects the imported functions of a module. *)
Definition importedFunctions (m : Module) : list Function :=
  filter imported (functions m).

(** Modelled from the spec: [ImportInfo::getImportedFunction], which
    finds an imported function by its host module and base name. *)
Definition getImportedFunction (m : Module) (module_ base : Name)
  : option Function :=
  find (fun import =>
          optName_eqb (fn_module import) module_
          && optName_eqb (fn_base import) base)
       (importedFunctions m).

(** ** How a run ends

    [Fatal] is the pass's own diagnostic: it ends the process, and the
    module stays as it stands at that point.  [Absent] is a lookup
    ([getFunction], [getFunctionType]) of a name the module lacks. *)
Inductive Outcome (A : Type) : Type :=
| Done (a : A)
| Fatal (diagnostic : string) (state : Module)
| Absent (n : option Name).

Arguments Done {A} a.
Arguments Fatal {A} diagnostic state.
Arguments Absent {A} n.

Definition bind {A B} (c : Outcome A) (k : A -> Outcome B) : Outcome B :=
  match c with
  | Done a => k a
  | Fatal d s => Fatal d s
  | Absent n => Absent n
  end.

Declare Scope outcome_scope.
Delimit Scope outcome_scope with outcome.
Notation "x <- c ;; k" := (bind c (fun x => k))
  (at level 61, c at next level, right associativity) : outcome_scope.
Notation "' p <- c ;; k" := (bind c (fun p => k))
  (at level 61, p pattern, c at next level, right associativity)
  : outcome_scope.

(** Modelled from the spec: [Module::getFunction], the lookup that does
    not answer for a missing name. *)
Definition getFunction (m : Module) (n : Name) : Outcome Function :=
  match getFunctionOrNull m n with
  | Some f => Done f
  | None => Absent (Some n)
  end.

(** Modelled from the spec: [Module::getFunctionType], likewise. *)
Definition getFunctionType (m : Module) (n : option Name)
  : Outcome FunctionType :=
  match n with
  | Some n' =>
      match getFunctionTypeOrNull m n' with
      | Some t => Done t
      | None => Absent n
      end
  | None => Absent None
  end.

(** ** Expression helpers

    I64Utilities of ir/utils.h is not among the sources.  An i64 crosses
    the boundary as two i32 words: the low word is the value modulo
    2^32, the high word is the value divided by 2^32. *)
Module I64Utilities.

(** Modelled from the spec: [I64Utilities::recreateI64], which combines
    a low and a high word back into a 64-bit integer: both are
    extended, the high word is shifted left by 32, and the two are
    or-ed. *)
Definition recreateI64 (low high : Expression) : Expression :=
  Binary OrInt64
    (Unary ExtendUInt32 low)
    (Binary ShlInt64 (Unary ExtendUInt32 high) (Const (LitI64 32))).

(** Modelled from the spec: [I64Utilities::recreateI64] on the indices
    of two consecutive i32 parameters. *)
Definition recreateI64_locals (low high : nat) : Expression :=
  recreateI64 (GetLocal low i32) (GetLocal high i32).

(** Modelled from the spec: [I64Utilities::getI64High], the upper 32
    bits of the i64 local [index]. *)
Definition getI64High (index : nat) : Expression :=
  Unary WrapInt64
    (Binary ShrUInt64 (GetLocal index i64) (Const (LitI64 32))).

(** Modelled from the spec: [I64Utilities::getI64Low], the lower 32
    bits of the i64 local [index]. *)
Definition getI64Low (index : nat) : Expression :=
  Unary WrapInt64 (GetLocal index i64).

End I64Utilities.

(** Modelled from the spec: LiteralUtils::makeZero at an integer type. *)
Definition makeZero (t : Type_) : Expression :=
  match t with
  | i64 => Const (LitI64 0)
  | f32 => Const (LitF32 0)
  | f64 => Const (LitF64 0)
  | _ => Const (LitI32 0)
  end.

(** Modelled from the spec: Builder::addVar appends a local after the
    parameters and the variables already there and returns its index. *)
Definition addVar (func : Function) (t : Type_) : nat * Function :=
  (List.length (fn_params func) + List.length (fn_vars func),
   {| fn_name := fn_name func; fn_params := fn_params func;
      fn_result := fn_result func; fn_vars := fn_vars func ++ [t];
      fn_type := fn_type func; fn_body := fn_body func;
      fn_module := fn_module func; fn_base := fn_base func |}).

(** ** A value semantics for the integer fragment

    The meaning of the integer operations the helpers above are built
    from, on bit patterns.  Calls and global reads are answered by the
    environment. *)
Definition two32 : Z := 2 ^ 32.
Definition two64 : Z := 2 ^ 64.

(** Modelled from the spec: what an expression is evaluated in: the
    locals of the function, and the host's answers for globals and
    calls. *)
Record Env : Type :=
  { locals : list Literal;
    globalValue : Name -> option Literal;
    callValue : Name -> list Literal -> option Literal }.

(** Modelled from the spec: the integer conversions; wrapping keeps the
    low 32 bits, unsigned extension keeps the pattern. *)
Definition evalUnary (op : UnaryOp) (v : Literal) : option Literal :=
  match op, v with
  | ExtendUInt32, LitI32 x => Some (LitI64 x)
  | ExtendSInt32, LitI32 x =>
      Some (LitI64 (if Z.ltb x (2 ^ 31) then x else x + (two64 - two32)))
  | WrapInt64, LitI64 x => Some (LitI32 (x mod two32))
  | EqZInt32, LitI32 x => Some (LitI32 (if Z.eqb x 0 then 1 else 0))
  | _, _ => None
  end.

(** Modelled from the spec: the 64-bit or and shifts (the shift count is
    taken modulo 64) and wrap-around addition. *)
Definition evalBinary (op : BinaryOp) (a b : Literal) : option Literal :=
  match op, a, b with
  | OrInt64, LitI64 x, LitI64 y => Some (LitI64 (Z.lor x y))
  | ShlInt64, LitI64 x, LitI64 y =>
      Some (LitI64 (Z.shiftl x (y mod 64) mod two64))
  | ShrUInt64, LitI64 x, LitI64 y => Some (LitI64 (Z.shiftr x (y mod 64)))
  | AddInt32, LitI32 x, LitI32 y => Some (LitI32 ((x + y) mod two32))
  | AddInt64, LitI64 x, LitI64 y => Some (LitI64 ((x + y) mod two64))
  | _, _, _ => None
  end.

(** Modelled from the spec: operands are evaluated left to right. *)
Fixpoint evalAll (ev : Expression -> option Literal) (l : list Expression)
  : option (list Literal) :=
  match l with
  | [] => Some []
  | e :: rest =>
      match ev e, evalAll ev rest with
      | Some v, Some vs => Some (v :: vs)
      | _, _ => None
      end
  end.

(** Modelled from the spec: evaluation of constants, local and global
    reads, calls and integer operations; other nodes have no value
    here. *)
Fixpoint eval (env : Env) (e : Expression) : option Literal :=
  match e with
  | Const v => Some v
  | GetLocal index _ => nth_error (locals env) index
  | GetGlobal n _ => globalValue env n
  | Call target operands _ =>
      match evalAll (eval env) operands with
      | Some vs => callValue env target vs
      | None => None
      end
  | Unary op value =>
      match eval env value with
      | Some v => evalUnary op v
      | None => None
      end
  | Binary op l r =>
      match eval env l, eval env r with
      | Some a, Some b => evalBinary op a b
      | _, _ => None
      end
  | _ => None
  end.

(** The integer an i64 bit pattern stands for, and back. *)
Definition signed64 (bits : Z) : Z :=
  if Z.ltb bits (2 ^ 63) then bits else bits - two64.

Definition bits64 (v : Z) : Z := v mod two64.

Definition bits32 (v : Z) : Z := v mod two32.

(** ** The post-order walker *)

(** Modelled from the spec: PostWalker of wasm-traversal.h visits the
    children of a node first and the node itself last; [replaceCurrent]
    puts the visitor's result in the node's place. *)
Fixpoint walk (visit : Expression -> Expression) (curr : Expression)
  : Expression :=
  visit
    match curr with
    | Nop => Nop
    | Unreachable => Unreachable
    | Block l => Block (map (walk visit) l)
    | If c t e => If (walk visit c) (walk visit t) (option_map (walk visit) e)
    | Loop b => Loop (walk visit b)
    | Call target operands ty => Call target (map (walk visit) operands) ty
    | CallIndirect ft operands target =>
        CallIndirect ft (map (walk visit) operands) (walk visit target)
    | GetLocal i t => GetLocal i t
    | SetLocal i v => SetLocal i (walk visit v)
    | GetGlobal n t => GetGlobal n t
    | SetGlobal n v => SetGlobal n (walk visit v)
    | Const v => Const v
    | Unary op v => Unary op (walk visit v)
    | Binary op l r => Binary op (walk visit l) (walk visit r)
    | Drop v => Drop (walk visit v)
    | Return v => Return (option_map (walk visit) v)
    end.

Definition set_body (f : Function) (b : option Expression) : Function :=
  {| fn_name := fn_name f; fn_params := fn_params f;
     fn_result := fn_result f; fn_vars := fn_vars f;
     fn_type := fn_type f; fn_body := b;
     fn_module := fn_module f; fn_base := fn_base f |}.

(** Modelled from the spec: a walker pass on one function; the visitor
    is told which function it is in ([getFunction()]). *)
Definition walkFunction (visit : Function -> Expression -> Expression)
  (f : Function) : Function :=
  set_body f (option_map (walk (visit f)) (fn_body f)).

(** Modelled from the spec: a function-parallel walker pass runs over
    the body of every function of the module that has one. *)
Definition runOnFunctions (visit : Function -> Expression -> Expression)
  (m : Module) : Module :=
  set_functions m (map (walkFunction visit) (functions m)).

(* ===================================================================== *)
(** * The pass *)
(* ===================================================================== *)

Definition TEMP_RET_0 : Name := "tempRet0".
Definition GET_TEMP_RET_0 : Name := "getTempRet0".
Definition SET_TEMP_RET_0 : Name := "setTempRet0".

(** Modelled from the spec: the host module name of shared-constants.h. *)
Definition ENV : Name := "env".

(** ** The name map

    [illegalImportsToLegal] is a [std::map<Name, Name>]: a finite map
    with one value per key.  It is kept as an association list without
    repeated keys; [map_set] is [operator[]] followed by assignment and
    [map_find] is [find].  The source walks the map once, to remove the
    function of every key; the list is walked in the order of insertion
    instead, which gives the same module ([removeFunctions_order]). *)
Definition NameMap := list (Name * Name).

Fixpoint map_find (k : Name) (mp : NameMap) : option Name :=
  match mp with
  | [] => None
  | (k', v) :: rest => if String.eqb k' k then Some v else map_find k rest
  end.

Fixpoint map_set (k v : Name) (mp : NameMap) : NameMap :=
  match mp with
  | [] => [(k, v)]
  | (k', v') :: rest =>
      if String.eqb k' k then (k, v) :: rest else (k', v') :: map_set k v rest
  end.

Definition map_keys (mp : NameMap) : list Name := map fst mp.

(** The fields of the pass object. *)
Record LegalizeJSInterface : Set :=
  { illegalImportsToLegal : NameMap;
    getTempRet0 : Name;
    setTempRet0 : Name;
    hasGlobal : bool }.

(** A pass object as [createLegalizeJSInterfacePass] makes it.  The
    three channel fields are written by [ensureTempRet0Helpers] before
    anything reads them. *)
Definition newPass : LegalizeJSInterface :=
  {| illegalImportsToLegal := []; getTempRet0 := ""; setTempRet0 := "";
     hasGlobal := false |}.

Definition set_channel (self : LegalizeJSInterface) (get set : Name)
  (has : bool) : LegalizeJSInterface :=
  {| illegalImportsToLegal := illegalImportsToLegal self;
     getTempRet0 := get; setTempRet0 := set; hasGlobal := has |}.

Definition set_map (self : LegalizeJSInterface) (mp : NameMap)
  : LegalizeJSInterface :=
  {| illegalImportsToLegal := mp;
     getTempRet0 := getTempRet0 self; setTempRet0 := setTempRet0 self;
     hasGlobal := hasGlobal self |}.

(** ** isIllegal *)

Definition illegalType (t : Type_) : bool :=
  Type_eqb t i64 || Type_eqb t f32.

Fixpoint anyIllegal (ps : list Type_) : bool :=
  match ps with
  | [] => false
  | param :: rest => if illegalType param then true else anyIllegal rest
  end.

Definition isIllegal {T : Type} `{Signature T} (t : T) : bool :=
  if anyIllegal (params t) then true
  else if illegalType (result t) then true
  else false.

(** ** makeLegalStub

    "JS calls the export, so it must call a legal stub that calls the
    actual wasm function." *)

Definition legalstub (n : Name) : Name := ("legalstub$" ++ n)%string.
Definition legaltype (n : Name) : Name := ("legaltype$" ++ n)%string.
Definition legalimport (n : Name) : Name := ("legalimport$" ++ n)%string.
Definition legalfunc (n : Name) : Name := ("legalfunc$" ++ n)%string.

(** The loop over [func->params]: [legalParams] and [operands] are the
    vectors the loop pushes onto. *)
Fixpoint makeLegalStub_params (ps : list Type_) (legalParams : list Type_)
  (operands : list Expression) : list Type_ * list Expression :=
  match ps with
  | [] => (legalParams, operands)
  | param :: rest =>
      let size := List.length legalParams in
      if Type_eqb param i64 then
        makeLegalStub_params rest (legalParams ++ [i32; i32])
          (operands ++ [I64Utilities.recreateI64_locals size (size + 1)])
      else if Type_eqb param f32 then
        makeLegalStub_params rest (legalParams ++ [f64])
          (operands ++ [Unary DemoteFloat64 (GetLocal size f64)])
      else
        makeLegalStub_params rest (legalParams ++ [param])
          (operands ++ [GetLocal size param])
  end.

(** A function as [new Function()] followed by the assignments of the
    source leaves it: not imported, naming no function type. *)
Definition mkFunction (n : Name) (ps : list Type_) (r : Type_)
  (vs : list Type_) (b : option Expression) : Function :=
  {| fn_name := n; fn_params := ps; fn_result := r; fn_vars := vs;
     fn_type := None; fn_body := b; fn_module := None; fn_base := None |}.

(** The stub [makeLegalStub] builds, before it is (or is not) added. *)
Definition legalStubFor (self : LegalizeJSInterface) (func : Function)
  : Function :=
  let legalName := legalstub (fn_name func) in
  let '(legalParams, operands) :=
    makeLegalStub_params (fn_params func) [] [] in
  let call := Call (fn_name func) operands (fn_result func) in
  if Type_eqb (fn_result func) i64 then
    let '(index, legal) :=
      addVar (mkFunction legalName legalParams i32 [] None) i64 in
    let set :=
      if hasGlobal self then
        SetGlobal TEMP_RET_0 (I64Utilities.getI64High index)
      else
        Call (setTempRet0 self) [I64Utilities.getI64High index] none in
    set_body legal
      (Some (Block [SetLocal index call; set; I64Utilities.getI64Low index]))
  else if Type_eqb (fn_result func) f32 then
    mkFunction legalName legalParams f64 [] (Some (Unary PromoteFloat32 call))
  else
    mkFunction legalName legalParams (fn_result func) [] (Some call).

Definition makeLegalStub (self : LegalizeJSInterface) (func : Function)
  (module : Module) : Name * Module :=
  let legal := legalStubFor self func in
  (* a method may be exported multiple times *)
  match getFunctionOrNull module (fn_name legal) with
  | Some _ => (fn_name legal, module)
  | None => (fn_name legal, addFunction module legal)
  end.

(** ** makeLegalStubForCalledImport

    "wasm calls the import, so it must call a stub that calls the actual
    legal JS import." *)

(** The loop over [imFunctionType->params]. *)
Fixpoint makeLegalStubForCalledImport_params (ps : list Type_)
  (operands : list Expression) (typeParams funcParams : list Type_)
  : list Expression * list Type_ * list Type_ :=
  match ps with
  | [] => (operands, typeParams, funcParams)
  | param :: rest =>
      let size := List.length funcParams in
      if Type_eqb param i64 then
        makeLegalStubForCalledImport_params rest
          (operands ++ [I64Utilities.getI64Low size;
                        I64Utilities.getI64High size])
          (typeParams ++ [i32; i32]) (funcParams ++ [param])
      else if Type_eqb param f32 then
        makeLegalStubForCalledImport_params rest
          (operands ++ [Unary PromoteFloat32 (GetLocal size f32)])
          (typeParams ++ [f64]) (funcParams ++ [param])
      else
        makeLegalStubForCalledImport_params rest
          (operands ++ [GetLocal size param])
          (typeParams ++ [param]) (funcParams ++ [param])
  end.

(** The three entities built for an import of type [imFunctionType]:
    the legal function type, the legal import and the stub. *)
Definition legalImportFor (self : LegalizeJSInterface) (im : Function)
  (imFunctionType : FunctionType) : FunctionType * Function * Function :=
  let typeName := legaltype (fn_name im) in
  let legalName := legalimport (fn_name im) in
  let funcName := legalfunc (fn_name im) in
  let '(operands, typeParams, funcParams) :=
    makeLegalStubForCalledImport_params (ft_params imFunctionType) [] [] []
  in
  let '(body, typeResult) :=
    if Type_eqb (ft_result imFunctionType) i64 then
      let call := Call legalName operands i32 in
      let get :=
        if hasGlobal self then GetGlobal TEMP_RET_0 i32
        else Call (getTempRet0 self) [] i32 in
      (I64Utilities.recreateI64 call get, i32)
    else if Type_eqb (ft_result imFunctionType) f32 then
      (Unary DemoteFloat64 (Call legalName operands f64), f64)
    else
      (Call legalName operands (ft_result imFunctionType),
       ft_result imFunctionType) in
  let type :=
    {| ft_name := typeName; ft_params := typeParams;
       ft_result := typeResult |} in
  (* FunctionTypeUtils::fillFunction copies the type's params and result *)
  let legal :=
    {| fn_name := legalName; fn_params := ft_params type;
       fn_result := ft_result type; fn_vars := [];
       fn_type := Some typeName; fn_body := None;
       fn_module := fn_module im; fn_base := fn_base im |} in
  let func :=
    mkFunction funcName funcParams (ft_result imFunctionType) []
      (Some body) in
  (type, legal, func).

Definition makeLegalStubForCalledImport (self : LegalizeJSInterface)
  (im : Function) (module : Module) : Outcome (Name * Module) :=
  (imFunctionType <- getFunctionType module (fn_type im) ;;
   let '(type, legal, func) := legalImportFor self im imFunctionType in
   let module :=
     match getFunctionOrNull module (fn_name func) with
     | Some _ => module
     | None => addFunction module func
     end in
   let module :=
     match getFunctionTypeOrNull module (ft_name type) with
     | Some _ => module
     | None => addFunctionType module type
     end in
   let module :=
     match getFunctionOrNull module (fn_name legal) with
     | Some _ => module
     | None => addFunction module legal
     end in
   Done (fn_name func, module))%outcome.

(** ** ensureTempRet0Helpers

    "The tempRet0 value and getter/setter are necessary to send/receive
    64-bit values with JS." *)

Definition partialTempRet0 : string :=
  "LegalizeJSInterface cannot handle partial tempRet0 imports".

Definition isSome {A} (o : option A) : bool :=
  match o with Some _ => true | None => false end.

(** The local [add] lambda: a function and an export of the same name. *)
Definition add (module : Module) (n : Name) (hasParam : bool)
  (r : Type_) (body : Expression) : Module :=
  let func := mkFunction n (if hasParam then [i32] else []) r [] (Some body) in
  let module := addFunction module func in
  addExport module
    {| ex_name := fn_name func; ex_value := fn_name func;
       ex_kind := KFunction |}.

Definition tempRet0Global : Global :=
  {| gl_name := TEMP_RET_0; gl_type := i32; gl_init := makeZero i32;
     gl_mutable := true |}.

Definition ensureTempRet0Helpers (self : LegalizeJSInterface)
  (module : Module) : Outcome (LegalizeJSInterface * Module) :=
  (* If imports exist, use them *)
  let importedGet := getImportedFunction module ENV GET_TEMP_RET_0 in
  let importedSet := getImportedFunction module ENV SET_TEMP_RET_0 in
  match importedGet, importedSet with
  | Some g, Some s =>
      Done (set_channel self (fn_name g) (fn_name s) false, module)
  | Some _, None | None, Some _ => Fatal partialTempRet0 module
  | None, None =>
      (* They may exist under another name - find by the export name. *)
      let exportedGet := getExportOrNull module GET_TEMP_RET_0 in
      let exportedSet := getExportOrNull module SET_TEMP_RET_0 in
      match exportedGet, exportedSet with
      | Some g, Some s =>
          Done (set_channel self (ex_value g) (ex_value s)
                  (isSome (getGlobalOrNull module TEMP_RET_0)),
                module)
      | Some _, None | None, Some _ => Fatal partialTempRet0 module
      | None, None =>
          (* No imports or exports - create them with default names. *)
          let self := set_channel self GET_TEMP_RET_0 SET_TEMP_RET_0 true in
          let module :=
            match getGlobalOrNull module TEMP_RET_0 with
            | Some _ => module
            | None => addGlobal module tempRet0Global
            end in
          let module :=
            add module (getTempRet0 self) false i32
              (GetGlobal TEMP_RET_0 i32) in
          let module :=
            add module (setTempRet0 self) true none
              (SetGlobal TEMP_RET_0 (GetLocal 0 i32)) in
          Done (self, module)
      end
  end.

(** ** run *)

Definition set_value (ex : Export) (v : Name) : Export :=
  {| ex_name := ex_name ex; ex_value := v; ex_kind := ex_kind ex |}.

(** "for each illegal export, we must export a legalized stub instead".
    The loop body reads the functions of the module only, so the exports
    it retargets are collected and stored when the loop is over. *)
Fixpoint legalizeExports (self : LegalizeJSInterface) (exs : list Export)
  (module : Module) : Outcome (list Export * Module) :=
  match exs with
  | [] => Done ([], module)
  | ex :: rest =>
      if isFunctionKind (ex_kind ex) then
        (func <- getFunction module (ex_value ex) ;;
         if isIllegal func then
           let '(legalName, module) := makeLegalStub self func module in
           ' (rest', module) <- legalizeExports self rest module ;;
           Done (set_value ex legalName :: rest', module)
         else
           ' (rest', module) <- legalizeExports self rest module ;;
           Done (ex :: rest', module))%outcome
      else
        (' (rest', module) <- legalizeExports self rest module ;;
         Done (ex :: rest', module))%outcome
  end.

(** The table is told about a stub: every entry naming the import names
    the stub from now on. *)
Definition retarget (old new : Name) (n : Name) : Name :=
  if String.eqb n old then new else n.

Definition retargetSegment (old new : Name) (segment : Segment) : Segment :=
  {| seg_offset := seg_offset segment;
     seg_data := map (retarget old new) (seg_data segment) |}.

(** "for each illegal import, we must call a legalized stub instead" *)
Fixpoint legalizeImports (originalFunctions : list Function)
  (self : LegalizeJSInterface) (module : Module)
  : Outcome (LegalizeJSInterface * Module) :=
  match originalFunctions with
  | [] => Done (self, module)
  | im :: rest =>
      if imported im then
        (t <- getFunctionType module (fn_type im) ;;
         if isIllegal t then
           ' (funcName, module) <-
             makeLegalStubForCalledImport self im module ;;
           let self :=
             set_map self
               (map_set (fn_name im) funcName (illegalImportsToLegal self)) in
           let module :=
             set_table module
               (map (retargetSegment (fn_name im) funcName) (table module)) in
           legalizeImports rest self module
         else legalizeImports rest self module)%outcome
      else legalizeImports rest self module
  end.

(** FixImports: "call_import of an illegal must be turned to a call of a
    legal"; [func] is the function the walker is in. *)
Definition visitCall (illegalImportsToLegal : NameMap) (func : Function)
  (curr : Expression) : Expression :=
  match curr with
  | Call target operands type =>
      match map_find target illegalImportsToLegal with
      | None => curr
      | Some second =>
          (* inside the stub function itself, is the one safe place to do
             the call *)
          if String.eqb second (fn_name func) then curr
          else Call second operands type
      end
  | _ => curr
  end.

Definition FixImports (illegalImportsToLegal : NameMap) (module : Module)
  : Module :=
  runOnFunctions (visitCall illegalImportsToLegal) module.

Definition removeFunctions (names : list Name) (module : Module) : Module :=
  fold_left removeFunction names module.

Definition run (module : Module) : Outcome Module :=
  (' (self, module) <- ensureTempRet0Helpers newPass module ;;
   ' (exs, module) <- legalizeExports self (exports module) module ;;
   let module := set_exports module exs in
   (* Avoid iterator invalidation later. *)
   let originalFunctions := functions module in
   ' (self, module) <- legalizeImports originalFunctions self module ;;
   if Nat.ltb 0 (List.length (illegalImportsToLegal self)) then
     let module :=
       removeFunctions (map_keys (illegalImportsToLegal self)) module in
     Done (FixImports (illegalImportsToLegal self) module)
   else Done module)%outcome.


(* ===================================================================== *)
(** * Vocabulary of the specification *)
(* ===================================================================== *)

(** ** The channel *)

(** Exactly one half of a pair is there. *)
Definition exactlyOne {A B} (a : option A) (b : option B) : Prop :=
  (a <> None /\ b = None) \/ (a = None /\ b <> None).

(** The pair the resolver is probing is half-present: the imports, or,
    once no import was found, the exports. *)
Definition halfPresent (m : Module) : Prop :=
  exactlyOne (getImportedFunction m ENV GET_TEMP_RET_0)
             (getImportedFunction m ENV SET_TEMP_RET_0)
  \/ (getImportedFunction m ENV GET_TEMP_RET_0 = None
      /\ getImportedFunction m ENV SET_TEMP_RET_0 = None
      /\ exactlyOne (getExportOrNull m GET_TEMP_RET_0)
                    (getExportOrNull m SET_TEMP_RET_0)).

Definition bothImported (m : Module) : Prop :=
  getImportedFunction m ENV GET_TEMP_RET_0 <> None
  /\ getImportedFunction m ENV SET_TEMP_RET_0 <> None.

Definition bothExported (m : Module) : Prop :=
  getExportOrNull m GET_TEMP_RET_0 <> None
  /\ getExportOrNull m SET_TEMP_RET_0 <> None.

(** The module the fallback branch leaves behind. *)
Definition withRegister (m : Module) : Module :=
  match getGlobalOrNull m TEMP_RET_0 with
  | Some _ => m
  | None => addGlobal m tempRet0Global
  end.

Definition getter : Function :=
  mkFunction GET_TEMP_RET_0 [] i32 [] (Some (GetGlobal TEMP_RET_0 i32)).

Definition setter : Function :=
  mkFunction SET_TEMP_RET_0 [i32] none []
    (Some (SetGlobal TEMP_RET_0 (GetLocal 0 i32))).

Definition withChannel (m : Module) : Module :=
  {| functionTypes := functionTypes m;
     functions := functions m ++ [getter; setter];
     exports :=
       exports m
       ++ [ {| ex_name := GET_TEMP_RET_0; ex_value := GET_TEMP_RET_0;
               ex_kind := KFunction |};
            {| ex_name := SET_TEMP_RET_0; ex_value := SET_TEMP_RET_0;
               ex_kind := KFunction |} ];
     globals := globals (withRegister m);
     table := table m |}.

(** ** The call-site fixer *)

(** What becomes of a call target inside the function named [funcName]:
    a key of the map is replaced by the stub it maps to, unless that
    stub is the function the call is in. *)
Definition fixTarget (mp : NameMap) (funcName target : Name) : Name :=
  match map_find target mp with
  | Some stub => if String.eqb stub funcName then target else stub
  | None => target
  end.

(** Renaming the target of every call of an expression; operands and all
    other nodes stay as they are. *)
Fixpoint renameCalls (r : Name -> Name) (e : Expression) : Expression :=
  match e with
  | Nop => Nop
  | Unreachable => Unreachable
  | Block l => Block (map (renameCalls r) l)
  | If c t e => If (renameCalls r c) (renameCalls r t)
                  (option_map (renameCalls r) e)
  | Loop b => Loop (renameCalls r b)
  | Call target operands ty =>
      Call (r target) (map (renameCalls r) operands) ty
  | CallIndirect ft operands target =>
      CallIndirect ft (map (renameCalls r) operands) (renameCalls r target)
  | GetLocal i t => GetLocal i t
  | SetLocal i v => SetLocal i (renameCalls r v)
  | GetGlobal n t => GetGlobal n t
  | SetGlobal n v => SetGlobal n (renameCalls r v)
  | Const v => Const v
  | Unary op v => Unary op (renameCalls r v)
  | Binary op a b => Binary op (renameCalls r a) (renameCalls r b)
  | Drop v => Drop (renameCalls r v)
  | Return v => Return (option_map (renameCalls r) v)
  end.

(** The targets of the calls of an expression, operands first. *)
Fixpoint callTargets (e : Expression) : list Name :=
  match e with
  | Block l => flat_map callTargets l
  | If c t e =>
      callTargets c ++ callTargets t
      ++ match e with Some e' => callTargets e' | None => [] end
  | Loop b => callTargets b
  | Call target operands _ => flat_map callTargets operands ++ [target]
  | CallIndirect _ operands target =>
      flat_map callTargets operands ++ callTargets target
  | SetLocal _ v | SetGlobal _ v | Unary _ v | Drop v => callTargets v
  | Binary _ a b => callTargets a ++ callTargets b
  | Return (Some v) => callTargets v
  | _ => []
  end.

(** ** The phases of a run *)

(** The last phase: when at least one import was reclassified, drop
    the illegal imports and fix the call sites. *)
Definition finish (self : LegalizeJSInterface) (module : Module) : Module :=
  if Nat.ltb 0 (List.length (illegalImportsToLegal self)) then
    FixImports (illegalImportsToLegal self)
      (removeFunctions (map_keys (illegalImportsToLegal self)) module)
  else module.

(** The module after each phase of a run that completes in [m']. *)
Definition phases (m : Module) (self1 : LegalizeJSInterface)
  (m1 : Module) (exs : list Export) (m2 : Module)
  (self3 : LegalizeJSInterface) (m3 m' : Module) : Prop :=
  ensureTempRet0Helpers newPass m = Done (self1, m1)
  /\ legalizeExports self1 (exports m1) m1 = Done (exs, m2)
  /\ legalizeImports (functions m2) self1 (set_exports m2 exs)
     = Done (self3, m3)
  /\ m' = finish self3 m3.

(** ** Counting and naming *)

(** How many functions of a list carry a name. *)
Definition countNamed (n : Name) (fs : list Function) : nat :=
  List.length (filter (fun f => String.eqb (fn_name f) n) fs).

Definition functionNames (m : Module) : list Name :=
  map fn_name (functions m).

(** ** Legality *)

(** A signature without i64 and without f32, in parameters and result. *)
Definition legalSignature {T : Type} `{Signature T} (t : T) : Prop :=
  ~ In i64 (params t) /\ ~ In f32 (params t)
  /\ result t <> i64 /\ result t <> f32.

(** The function type an import names, when the module has it. *)
Definition typeOf (m : Module) (f : Function) : option FunctionType :=
  match fn_type f with
  | Some n => getFunctionTypeOrNull m n
  | None => None
  end.

(** The imports the pass reclassifies: imported, of an illegal type. *)
Definition illegalImport (m : Module) (f : Function) : bool :=
  imported f
  && match typeOf m f with
     | Some t => isIllegal t
     | None => false
     end.

(** A name is the name of an illegal import of the module. *)
Definition illegalImportName (m : Module) (n : Name) : bool :=
  existsb (fun f => String.eqb (fn_name f) n && illegalImport m f)
          (functions m).

(** ** Well-formed input *)

Definition uniqueFunctionNames (m : Module) : Prop :=
  NoDup (functionNames m).

(** Every import names a function type of the module, and its own
    parameters and result are that type's. *)
Definition validImports (m : Module) : Prop :=
  forall f,
    In f (functions m) -> imported f = true ->
    exists t,
      typeOf m f = Some t
      /\ ft_params t = fn_params f /\ ft_result t = fn_result f.

(** ** Names the pass derives, already in use *)

(** A function that already carries a stub name is legal. *)
Definition stubNamesLegal (m : Module) : Prop :=
  forall f n,
    In f (functions m) -> fn_name f = legalstub n -> isIllegal f = false.

(** A function type that already carries a derived type name is legal. *)
Definition typeNamesLegal (m : Module) : Prop :=
  forall t n,
    In t (functionTypes m) -> ft_name t = legaltype n -> isIllegal t = false.

(** No function carries the name derived for the legal import of an
    illegal import of the module. *)
Definition importNamesFree (m : Module) : Prop :=
  forall x,
    In x (functions m) -> illegalImport m x = true ->
    getFunctionOrNull m (legalimport (fn_name x)) = None.

(** No illegal import carries the stub name of an illegal import. *)
Definition noChainedStubs (m : Module) : Prop :=
  forall n,
    illegalImportName m n = true ->
    illegalImportName m (legalfunc n) = false.

(** ** The table *)

(** The name an entry carries after the pass, by the spec's words: the
    stub of the illegal import it named, or the name it had. *)
Definition tableRename (m : Module) (n : Name) : Name :=
  if illegalImportName m n then legalfunc n else n.

Definition renameSegment (r : Name -> Name) (segment : Segment) : Segment :=
  {| seg_offset := seg_offset segment;
     seg_data := map r (seg_data segment) |}.

(** ** One step of the import loop *)

Definition legalTypeOf (self : LegalizeJSInterface) (im : Function)
  (t : FunctionType) : FunctionType :=
  fst (fst (legalImportFor self im t)).

Definition legalImportOf (self : LegalizeJSInterface) (im : Function)
  (t : FunctionType) : Function :=
  snd (fst (legalImportFor self im t)).

Definition importStubOf (self : LegalizeJSInterface) (im : Function)
  (t : FunctionType) : Function :=
  snd (legalImportFor self im t).

Definition addFunctionIfAbsent (m : Module) (f : Function) : Module :=
  match getFunctionOrNull m (fn_name f) with
  | Some _ => m
  | None => addFunction m f
  end.

Definition addFunctionTypeIfAbsent (m : Module) (t : FunctionType)
  : Module :=
  match getFunctionTypeOrNull m (ft_name t) with
  | Some _ => m
  | None => addFunctionType m t
  end.

(** The module after the body of the import loop ran for the illegal
    import [im] of type [t]. *)
Definition importStep (self : LegalizeJSInterface) (im : Function)
  (t : FunctionType) (m : Module) : Module :=
  let m1 := addFunctionIfAbsent m (importStubOf self im t) in
  let m2 := addFunctionTypeIfAbsent m1 (legalTypeOf self im t) in
  let m3 := addFunctionIfAbsent m2 (legalImportOf self im t) in
  set_table m3
    (map (retargetSegment (fn_name im) (legalfunc (fn_name im))) (table m3)).

(** The same for the pass object and the module together, the type of
    the import being looked up in the module [m0] the loop started
    from. *)
Definition importStepOf (m0 : Module)
  (acc : LegalizeJSInterface * Module) (x : Function)
  : LegalizeJSInterface * Module :=
  match typeOf m0 x with
  | Some t =>
      (set_map (fst acc)
         (map_set (fn_name x) (legalfunc (fn_name x))
            (illegalImportsToLegal (fst acc))),
       importStep (fst acc) x t (snd acc))
  | None => acc
  end.

(** The types of [m] are those of [m0] followed by legal ones. *)
Definition typesExtend (m0 m : Module) : Prop :=
  exists added,
    functionTypes m = functionTypes m0 ++ added
    /\ Forall (fun t => isIllegal t = false) added.

(** The functions the first two phases may add: the channel's getter
    and setter and the export stubs. *)
Definition earlyFunction (self : LegalizeJSInterface) (f : Function)
  : Prop :=
  f = getter \/ f = setter \/ exists func, f = legalStubFor self func.

(** The illegal imports of a module, in the order of its functions. *)
Definition illegalImports (m : Module) : list Function :=
  filter (illegalImport m) (functions m).

(** ** Imports and the names they are found under *)

(** A list of functions grown by appending, in which an import was only
    appended under a name no function carried yet: every import is the
    first function of its name, and no two imports share a name. *)
Inductive importsFirst : list Function -> Prop :=
| importsFirst_nil : importsFirst []
| importsFirst_snoc fs f :
    importsFirst fs ->
    (imported f = true -> ~ In (fn_name f) (map fn_name fs)) ->
    importsFirst (fs ++ [f]).

Definition findNamed (n : Name) (fs : list Function) : option Function :=
  find (fun f => String.eqb (fn_name f) n) fs.

Definition removeAll (names : list Name) (fs : list Function)
  : list Function :=
  fold_left (fun fs k => removeFirst k fs) names fs.

(** Two functions that differ in their bodies at most. *)
Definition sameButBody (f f' : Function) : Prop :=
  fn_name f' = fn_name f /\ fn_params f' = fn_params f
  /\ fn_result f' = fn_result f /\ fn_vars f' = fn_vars f
  /\ fn_type f' = fn_type f /\ fn_module f' = fn_module f
  /\ fn_base f' = fn_base f.

(** The functions the import loop may add: stubs, which are not
    imported, and legal imports. *)
Definition lateFunction (xs : list Function) (h : Function) : Prop :=
  imported h = false
  \/ exists s x t, In x xs /\ h = legalImportOf s x t.

(** A function under the name derived for the legal import of [x] is an
    import from where [x] is imported from. *)
Definition importsAgree (xs : list Function) (fs : list Function) : Prop :=
  forall h x,
    In h fs -> In x xs -> fn_name h = legalimport (fn_name x) ->
    imported h = true /\ fn_module h = fn_module x /\ fn_base h = fn_base x.

(** ** The module invariant of the substrate *)

(** Every export of a function targets a function of the module. *)
Definition exportTargetsExist (m : Module) : Prop :=
  forall ex,
    In ex (exports m) -> isFunctionKind (ex_kind ex) = true ->
    getFunctionOrNull m (ex_value ex) <> None.

(** Every import names a function type of the module. *)
Definition importTypesExist (m : Module) : Prop :=
  forall f, In f (functions m) -> imported f = true -> typeOf m f <> None.
(* ===================================================================== *)
(** * Sample modules *)
(* ===================================================================== *)

(** A function with a body. *)
Definition defined (n : Name) (ps : list Type_) (r : Type_)
  (b : Expression) : Function :=
  mkFunction n ps r [] (Some b).

(** A function imported from [module_] under [base], of the function
    type named [t]. *)
Definition import (n : Name) (t : Name) (ps : list Type_) (r : Type_)
  (module_ base : Name) : Function :=
  {| fn_name := n; fn_params := ps; fn_result := r; fn_vars := [];
     fn_type := Some t; fn_body := None;
     fn_module := Some module_; fn_base := Some base |}.

(** An export of the function [v] under the name [n]. *)
Definition exportFunction (n v : Name) : Export :=
  {| ex_name := n; ex_value := v; ex_kind := KFunction |}.

(** The channel is created from scratch. *)
Definition bareModule : Module :=
  {| functionTypes := [];
     functions := [defined "f" [i32] i32 (GetLocal 0 i32)];
     exports := [exportFunction "f" "f"]; globals := []; table := [] |}.

(** Both halves of the channel are imported, under names of their own. *)
Definition importedChannel : Module :=
  {| functionTypes :=
       [ {| ft_name := "get"; ft_params := []; ft_result := i32 |};
         {| ft_name := "set"; ft_params := [i32]; ft_result := none |} ];
     functions :=
       [ import "g$0" "get" [] i32 ENV GET_TEMP_RET_0;
         import "s$0" "set" [i32] none ENV SET_TEMP_RET_0 ];
     exports := []; globals := []; table := [] |}.

(** Both halves are exported, pointing at functions of other names, and
    there is no register. *)
Definition exportedChannel : Module :=
  {| functionTypes := [];
     functions :=
       [ defined "rd" [] i32 (Const (LitI32 0));
         defined "wr" [i32] none Nop ];
     exports :=
       [ exportFunction GET_TEMP_RET_0 "rd";
         exportFunction SET_TEMP_RET_0 "wr" ];
     globals := []; table := [] |}.

(** Only the getter is imported. *)
Definition halfImported : Module :=
  {| functionTypes :=
       [ {| ft_name := "get"; ft_params := []; ft_result := i32 |} ];
     functions := [ import "g$0" "get" [] i32 ENV GET_TEMP_RET_0 ];
     exports := []; globals := []; table := [] |}.

(** A register of the well-known name is there already, immutable and of
    another type. *)
Definition ownRegister : Module :=
  {| functionTypes := []; functions := []; exports := [];
     globals :=
       [ {| gl_name := TEMP_RET_0; gl_type := i64;
            gl_init := Const (LitI64 7); gl_mutable := false |} ];
     table := [] |}.


(** An environment with locals only. *)
Definition localsOnly (ls : list Literal) : Env :=
  {| locals := ls; globalValue := fun _ => None;
     callValue := fun _ _ => None |}.

(** One import was reclassified. *)
Definition oneImport : NameMap := [("x", legalfunc "x")].

Definition caller : Function :=
  defined "caller" [] none
    (Block [Drop (Call "x" [Call "y" [] i64] i64); Call "x" [] i64]).

Definition stubOfX : Function :=
  defined (legalfunc "x") [] i64 (Call "x" [] i64).

(** An illegal function exported twice. *)
Definition twiceExported : Module :=
  {| functionTypes := [];
     functions := [defined "f" [i64] i64 (GetLocal 0 i64)];
     exports := [exportFunction "a" "f"; exportFunction "b" "f"];
     globals := []; table := [] |}.

(** Two illegal imports, one of them under the name the pass derives for
    the stub of the other, and a table that names the other. *)
Definition chainedImports : Module :=
  {| functionTypes :=
       [ {| ft_name := "t"; ft_params := [i64]; ft_result := none |} ];
     functions :=
       [ import (legalfunc "x") "t" [i64] none ENV "b";
         import "x" "t" [i64] none ENV "a" ];
     exports := []; globals := [];
     table := [ {| seg_offset := Const (LitI32 0); seg_data := ["x"] |} ] |}.

(** One illegal import, named by the table and called by a function. *)
Definition tabledImport : Module :=
  {| functionTypes :=
       [ {| ft_name := "t"; ft_params := [i64]; ft_result := f32 |} ];
     functions :=
       [ import "x" "t" [i64] f32 ENV "a";
         defined "f" [] f32 (Call "x" [Const (LitI64 1)] f32) ];
     exports := [exportFunction "f" "f"]; globals := [];
     table :=
       [ {| seg_offset := Const (LitI32 0); seg_data := ["x"; "f"] |} ] |}.

(** A function already carries the name the pass derives for the stub
    of an exported illegal function, and is illegal itself. *)
Definition stubCollision : Module :=
  {| functionTypes := [];
     functions :=
       [ defined "f" [i64] none Nop;
         defined (legalstub "f") [i64] none Nop ];
     exports := [exportFunction "f" "f"]; globals := []; table := [] |}.

(** A function type already carries the name the pass derives for the
    legal type of an illegal import, and is illegal itself. *)
Definition typeCollision : Module :=
  {| functionTypes :=
       [ {| ft_name := "t"; ft_params := [i64]; ft_result := none |};
         {| ft_name := legaltype "x"; ft_params := [f32];
            ft_result := none |} ];
     functions := [ import "x" "t" [i64] none ENV "a" ];
     exports := []; globals := []; table := [] |}.

(** The channel is imported, its getter under an illegal type, and a
    function already carries the name the pass derives for the legal
    import of the getter. *)
Definition importCollision : Module :=
  {| functionTypes :=
       [ {| ft_name := "get"; ft_params := []; ft_result := i64 |};
         {| ft_name := "set"; ft_params := [i32]; ft_result := none |} ];
     functions :=
       [ import "g" "get" [] i64 ENV GET_TEMP_RET_0;
         import "s" "set" [i32] none ENV SET_TEMP_RET_0;
         defined (legalimport "g") [] none Nop ];
     exports := []; globals := []; table := [] |}.

(** An import whose own parameters are not those of the function type
    it names. *)
Definition invalidImport : Module :=
  {| functionTypes :=
       [ {| ft_name := "t"; ft_params := []; ft_result := none |} ];
     functions := [ import "x" "t" [i64] none ENV "a" ];
     exports := []; globals := []; table := [] |}.

(** Two functions of one name, the second an illegal import. *)
Definition sharedName : Module :=
  {| functionTypes :=
       [ {| ft_name := "t"; ft_params := [i64]; ft_result := none |} ];
     functions :=
       [ defined "x" [] none Nop; import "x" "t" [i64] none ENV "a" ];
     exports := []; globals := []; table := [] |}.

(** A function already carries the name the pass derives for the stub
    of an illegal import, and is neither an import nor of the import's
    signature. *)
Definition preStub : Module :=
  {| functionTypes :=
       [ {| ft_name := "t"; ft_params := [i64]; ft_result := none |} ];
     functions :=
       [ import "x" "t" [i64] none ENV "a";
         defined (legalfunc "x") [] i32 (Const (LitI32 0)) ];
     exports := []; globals := [];
     table := [ {| seg_offset := Const (LitI32 0); seg_data := ["x"] |} ] |}.

(* ===================================================================== *)
(** * Vocabulary of the stubs *)
(* ===================================================================== *)

(** What a value type crosses the boundary as: an i64 as two i32 words,
    an f32 as an f64, any other type as itself. *)
Definition legalizedType (t : Type_) : list Type_ :=
  match t with
  | i64 => [i32; i32]
  | f32 => [f64]
  | _ => [t]
  end.

Definition legalizedParams (ps : list Type_) : list Type_ :=
  flat_map legalizedType ps.

Definition legalizedResult (t : Type_) : Type_ :=
  match t with
  | i64 => i32
  | f32 => f64
  | _ => t
  end.

(** The values an argument crosses the boundary as: an i64 as its low
    word followed by its high word, any other value as itself. *)
Definition splitValue (v : Literal) : list Literal :=
  match v with
  | LitI64 b => [LitI32 (b mod two32); LitI32 (b / two32)]
  | _ => [v]
  end.

Definition splitValues (vs : list Literal) : list Literal :=
  flat_map splitValue vs.

(** A bit pattern of the given type; of the types the value semantics
    covers, which leaves out f32. *)
Definition valueOf (t : Type_) (v : Literal) : Prop :=
  match t, v with
  | i32, LitI32 x => (0 <= x < two32)%Z
  | i64, LitI64 b => (0 <= b < two64)%Z
  | f64, LitF64 _ => True
  | _, _ => False
  end.

(** What reading the channel gives in an environment: the register when
    the pass may access it, the answer of the getter otherwise. *)
Definition channelValue (self : LegalizeJSInterface) (env : Env)
  : option Literal :=
  if hasGlobal self then globalValue env TEMP_RET_0
  else callValue env (getTempRet0 self) [].

(* ===================================================================== *)
(** * Vocabulary of a run *)
(* ===================================================================== *)

(** What becomes of an export: an export of a function the module has
    under the targeted name, when that function is illegal, targets the
    function's stub; any other export stays as it is. *)
Definition legalizedExport (m : Module) (ex : Export) : Export :=
  if isFunctionKind (ex_kind ex) then
    match getFunctionOrNull m (ex_value ex) with
    | Some func =>
        if isIllegal func then set_value ex (legalstub (fn_name func))
        else ex
    | None => ex
    end
  else ex.

(** No function carries the name the pass derives for the stub of an
    illegal import of the module. *)
Definition stubNamesFree (m : Module) : Prop :=
  forall n,
    illegalImportName m n = true ->
    getFunctionOrNull m (legalfunc n) = None.

(** Where the stubs read the channel by a call of the getter, the
    getter is not itself an illegal import. *)
Definition getterKept (m : Module) : Prop :=
  forall self m1,
    ensureTempRet0Helpers newPass m = Done (self, m1) ->
    hasGlobal self = false ->
    illegalImportName m (getTempRet0 self) = false.

Definition uniqueTypeNames (m : Module) : Prop :=
  NoDup (map ft_name (functionTypes m)).

(** The channel is imported, its getter under a function type with an
    i64 result. *)
Definition illegalGetter : Module :=
  {| functionTypes :=
       [ {| ft_name := "get"; ft_params := []; ft_result := i64 |};
         {| ft_name := "set"; ft_params := [i32]; ft_result := none |} ];
     functions :=
       [ import "g" "get" [] i64 ENV GET_TEMP_RET_0;
         import "s" "set" [i32] none ENV SET_TEMP_RET_0 ];
     exports := []; globals := []; table := [] |}.

(** A function with the calls of illegal imports in its body redirected
    to their stubs; inside the stub of an import, the call of that
    import stays. *)
Definition redirected (m : Module) (f : Function) : Function :=
  set_body f
    (option_map
       (renameCalls
          (fun n =>
             if illegalImportName m n then
               if String.eqb (legalfunc n) (fn_name f) then n
               else legalfunc n
             else n))
       (fn_body f)).

(** The names the pass gives to what it makes. *)
Definition madeName (m : Module) (n : Name) : Prop :=
  n = GET_TEMP_RET_0 \/ n = SET_TEMP_RET_0
  \/ (exists func, n = legalstub func)
  \/ (exists x,
         In x (illegalImports m)
         /\ (n = legalfunc (fn_name x) \/ n = legalimport (fn_name x))).

(** The indices of the locals an expression reads or writes. *)
Fixpoint localIndices (e : Expression) : list nat :=
  match e with
  | Block l => flat_map localIndices l
  | If c t e =>
      localIndices c ++ localIndices t
      ++ match e with Some e' => localIndices e' | None => [] end
  | Loop b => localIndices b
  | Call _ operands _ => flat_map localIndices operands
  | CallIndirect _ operands target =>
      flat_map localIndices operands ++ localIndices target
  | GetLocal i _ => [i]
  | SetLocal i v => i :: localIndices v
  | SetGlobal _ v | Unary _ v | Drop v => localIndices v
  | Binary _ a b => localIndices a ++ localIndices b
  | Return (Some v) => localIndices v
  | _ => []
  end.

(** Every local the body of a function touches is a parameter or a
    variable of the function. *)
Definition localsInBounds (f : Function) : Prop :=
  forall body i,
    fn_body f = Some body -> In i (localIndices body) ->
    i < List.length (fn_params f) + List.length (fn_vars f).

(** An illegal import that is exported. *)
Definition exportedImport : Module :=
  {| functionTypes :=
       [ {| ft_name := "t"; ft_params := [i64]; ft_result := none |} ];
     functions := [ import "x" "t" [i64] none ENV "a" ];
     exports := [ exportFunction "e" "x" ]; globals := []; table := [] |}.

(** An environment in which the register holds [register] and every
    call is answered with [answer]. *)
Definition answering (ls : list Literal) (register answer : Literal) : Env :=
  {| locals := ls; globalValue := fun _ => Some register;
     callValue := fun _ _ => Some answer |}.

(** An export of a function the module does not have. *)
Definition danglingExport : Module :=
  {| functionTypes := []; functions := [];
     exports := [ exportFunction "e" "nowhere" ]; globals := [];
     table := [] |}.

(** An import of a function type the module does not have. *)
Definition untypedImport : Module :=
  {| functionTypes := [];
     functions := [ import "x" "t" [i64] none ENV "a" ];
     exports := []; globals := []; table := [] |}.

(** The two exports the resolver adds with the channel it creates. *)
Definition channelExports : list Export :=
  [ {| ex_name := GET_TEMP_RET_0; ex_value := GET_TEMP_RET_0;
       ex_kind := KFunction |};
    {| ex_name := SET_TEMP_RET_0; ex_value := SET_TEMP_RET_0;
       ex_kind := KFunction |} ].
(* ===================================================================== *)
(** * Basic facts *)
(* ===================================================================== *)

Lemma Type_eqb_eq a b : Type_eqb a b = true <-> a = b.
Proof. destruct a, b; simpl; split; congruence. Qed.

Lemma find_app A (p : A -> bool) (l1 l2 : list A) :
  find p (l1 ++ l2)
  = match find p l1 with Some x => Some x | None => find p l2 end.
Proof.
  induction l1 as [| a l1 IH]; simpl; [reflexivity |].
  destruct (p a); auto.
Qed.

Lemma Forall2_in_l_exists A B (R : A -> B -> Prop) l l' a :
  Forall2 R l l' -> In a l -> exists b, In b l' /\ R a b.
Proof.
  induction 1 as [| x y l l' Hxy _ IH]; simpl; [tauto |].
  intros [<- | Hin]; [eauto |].
  destruct (IH Hin) as (b & Hb & Hr). eauto.
Qed.

(* ===================================================================== *)
(** * The high-word channel resolver *)
(* ===================================================================== *)

Ltac channel_cases m :=
  unfold halfPresent, bothImported, bothExported, exactlyOne,
    ensureTempRet0Helpers in *;
  destruct (getImportedFunction m ENV GET_TEMP_RET_0),
    (getImportedFunction m ENV SET_TEMP_RET_0),
    (getExportOrNull m GET_TEMP_RET_0),
    (getExportOrNull m SET_TEMP_RET_0).

Lemma ensureTempRet0Helpers_imported self m g s :
  getImportedFunction m ENV GET_TEMP_RET_0 = Some g ->
  getImportedFunction m ENV SET_TEMP_RET_0 = Some s ->
  ensureTempRet0Helpers self m
  = Done (set_channel self (fn_name g) (fn_name s) false, m).
Proof. unfold ensureTempRet0Helpers. intros -> ->. reflexivity. Qed.

Lemma ensureTempRet0Helpers_exported self m g s :
  getImportedFunction m ENV GET_TEMP_RET_0 = None ->
  getImportedFunction m ENV SET_TEMP_RET_0 = None ->
  getExportOrNull m GET_TEMP_RET_0 = Some g ->
  getExportOrNull m SET_TEMP_RET_0 = Some s ->
  ensureTempRet0Helpers self m
  = Done (set_channel self (ex_value g) (ex_value s)
            (isSome (getGlobalOrNull m TEMP_RET_0)), m).
Proof. unfold ensureTempRet0Helpers. intros -> -> -> ->. reflexivity. Qed.

Lemma ensureTempRet0Helpers_created self m :
  getImportedFunction m ENV GET_TEMP_RET_0 = None ->
  getImportedFunction m ENV SET_TEMP_RET_0 = None ->
  getExportOrNull m GET_TEMP_RET_0 = None ->
  getExportOrNull m SET_TEMP_RET_0 = None ->
  ensureTempRet0Helpers self m
  = Done (set_channel self GET_TEMP_RET_0 SET_TEMP_RET_0 true, withChannel m).
Proof.
  unfold ensureTempRet0Helpers. intros -> -> -> ->. f_equal. f_equal.
  unfold withChannel, withRegister, add, addExport, addFunction,
    set_exports, set_functions, getter, setter.
  destruct (getGlobalOrNull m TEMP_RET_0); simpl;
    rewrite <- !app_assoc; reflexivity.
Qed.

Lemma ensureTempRet0Helpers_half self m :
  halfPresent m -> ensureTempRet0Helpers self m = Fatal partialTempRet0 m.
Proof. channel_cases m; intuition congruence. Qed.

Lemma ensureTempRet0Helpers_whole self m :
  ~ halfPresent m ->
  exists self' m',
    ensureTempRet0Helpers self m = Done (self', m')
    /\ illegalImportsToLegal self' = illegalImportsToLegal self.
Proof.
  channel_cases m; intros H;
    try (eexists; eexists; split; reflexivity);
    exfalso; apply H; intuition congruence.
Qed.

Lemma halfPresent_dec m : halfPresent m \/ ~ halfPresent m.
Proof. channel_cases m; intuition congruence. Qed.

Lemma ensureTempRet0Helpers_Fatal self m d s :
  ensureTempRet0Helpers self m = Fatal d s ->
  halfPresent m /\ d = partialTempRet0 /\ s = m.
Proof.
  intros H. destruct (halfPresent_dec m) as [Hh | Hh].
  - rewrite (ensureTempRet0Helpers_half self Hh) in H.
    inversion H; subst; auto.
  - destruct (ensureTempRet0Helpers_whole self Hh) as (self' & m' & E & _).
    congruence.
Qed.

(* ===================================================================== *)
(** * Outcomes of the loops *)
(* ===================================================================== *)

Lemma bind_Done A B (c : Outcome A) (k : A -> Outcome B) b :
  bind c k = Done b -> exists a, c = Done a /\ k a = Done b.
Proof. destruct c; simpl; intros H; try discriminate; eauto. Qed.

Lemma bind_Fatal A B (c : Outcome A) (k : A -> Outcome B) d s :
  bind c k = Fatal d s ->
  c = Fatal d s \/ exists a, c = Done a /\ k a = Fatal d s.
Proof.
  destruct c; simpl; intros H;
    [right; eauto | left; inversion H; reflexivity | discriminate].
Qed.

Lemma getFunction_Done m n f :
  getFunction m n = Done f <-> getFunctionOrNull m n = Some f.
Proof.
  unfold getFunction. destruct (getFunctionOrNull m n); split; congruence.
Qed.

Lemma getFunction_not_Fatal m n d s : getFunction m n <> Fatal d s.
Proof. unfold getFunction. destruct (getFunctionOrNull m n); discriminate. Qed.

Lemma getFunctionType_Done m n t :
  getFunctionType m n = Done t <->
  exists n', n = Some n' /\ getFunctionTypeOrNull m n' = Some t.
Proof.
  unfold getFunctionType. destruct n as [n' |].
  - destruct (getFunctionTypeOrNull m n') eqn:E; split.
    + intros H; inversion H; subst; eauto.
    + intros (n'' & H1 & H2). inversion H1; subst. congruence.
    + discriminate.
    + intros (n'' & H1 & H2). inversion H1; subst. congruence.
  - split; [discriminate | intros (n' & H & _); discriminate].
Qed.

Lemma getFunctionType_not_Fatal m n d s : getFunctionType m n <> Fatal d s.
Proof.
  unfold getFunctionType. destruct n as [n' |]; [| discriminate].
  destruct (getFunctionTypeOrNull m n'); discriminate.
Qed.

Lemma legalizeExports_not_Fatal self exs :
  forall m d s, legalizeExports self exs m <> Fatal d s.
Proof.
  induction exs as [| ex rest IH]; intros m d s; simpl; [discriminate |].
  destruct (isFunctionKind (ex_kind ex)).
  - intros H. apply bind_Fatal in H as [H | (func & _ & H)].
    + exact (getFunction_not_Fatal _ _ H).
    + destruct (isIllegal func).
      * destruct (makeLegalStub self func m) as [legalName m1].
        apply bind_Fatal in H as [H | ([rest' m2] & _ & H)];
          [exact (IH _ _ _ H) | discriminate].
      * apply bind_Fatal in H as [H | ([rest' m2] & _ & H)];
          [exact (IH _ _ _ H) | discriminate].
  - intros H. apply bind_Fatal in H as [H | ([rest' m2] & _ & H)];
      [exact (IH _ _ _ H) | discriminate].
Qed.

Lemma makeLegalStubForCalledImport_not_Fatal self im m d s :
  makeLegalStubForCalledImport self im m <> Fatal d s.
Proof.
  unfold makeLegalStubForCalledImport. intros H.
  apply bind_Fatal in H as [H | (t & _ & H)].
  - exact (getFunctionType_not_Fatal _ _ H).
  - destruct (legalImportFor self im t) as [[type legal] func].
    discriminate.
Qed.

Lemma legalizeImports_not_Fatal originalFunctions :
  forall self m d s, legalizeImports originalFunctions self m <> Fatal d s.
Proof.
  induction originalFunctions as [| im rest IH]; intros self m d s; simpl;
    [discriminate |].
  destruct (imported im); [| apply IH].
  intros H. apply bind_Fatal in H as [H | (t & _ & H)].
  - exact (getFunctionType_not_Fatal _ _ H).
  - destruct (isIllegal t); [| exact (IH _ _ _ _ H)].
    apply bind_Fatal in H as [H | ([funcName m1] & _ & H)].
    + exact (makeLegalStubForCalledImport_not_Fatal _ _ _ H).
    + exact (IH _ _ _ _ H).
Qed.

(** The only diagnostic of a run is the resolver's. *)
Lemma run_Fatal m d s :
  run m = Fatal d s <-> ensureTempRet0Helpers newPass m = Fatal d s.
Proof.
  unfold run. split.
  - intros H. apply bind_Fatal in H as [H | ([self m1] & _ & H)]; [exact H |].
    exfalso.
    apply bind_Fatal in H as [H | ([exs m2] & _ & H)].
    + exact (legalizeExports_not_Fatal _ _ _ H).
    + apply bind_Fatal in H as [H | ([self' m3] & _ & H)].
      * exact (legalizeImports_not_Fatal _ _ _ H).
      * destruct (Nat.ltb 0 (List.length (illegalImportsToLegal self')));
          discriminate.
  - intros ->. reflexivity.
Qed.

(* ===================================================================== *)
(** * The two words of an i64 *)
(* ===================================================================== *)

Section Words.

Local Open Scope Z_scope.

Lemma high_word_range b : 0 <= b < two64 -> 0 <= b / two32 < two32.
Proof.
  unfold two64, two32. intros [H0 H1]. split.
  - apply Z.div_pos; lia.
  - apply Z.div_lt_upper_bound; lia.
Qed.

Lemma shiftr_32 b : Z.shiftr b (32 mod 64) = b / two32.
Proof.
  change (32 mod 64) with 32. rewrite Z.shiftr_div_pow2 by lia. reflexivity.
Qed.

(** Or-ing the low word with the high word moved up by 32 bits gives the
    pattern back. *)
Lemma lor_words b :
  0 <= b ->
  Z.lor (b mod two32) (Z.shiftl (b / two32) 32) = b.
Proof.
  intros Hb. apply Z.bits_inj'. intros n Hn.
  rewrite Z.lor_spec, Z.shiftl_spec by assumption.
  unfold two32.
  destruct (Z.ltb_spec n 32) as [Hlt | Hge].
  - rewrite Z.mod_pow2_bits_low by lia.
    rewrite (Z.testbit_neg_r _ (n - 32)) by lia.
    apply orb_false_r.
  - rewrite Z.mod_pow2_bits_high by lia.
    rewrite Z.div_pow2_bits by lia.
    simpl. f_equal. lia.
Qed.

Lemma recombine_words b :
  0 <= b < two64 ->
  Z.lor (b mod two32) (Z.shiftl (b / two32) (32 mod 64) mod two64) = b.
Proof.
  intros Hb. change (32 mod 64) with 32.
  assert (Hh := high_word_range Hb).
  rewrite (Z.mod_small (Z.shiftl (b / two32) 32)).
  - apply lor_words. lia.
  - rewrite Z.shiftl_mul_pow2 by lia. unfold two64, two32 in *. lia.
Qed.

Lemma bits64_range v : 0 <= bits64 v < two64.
Proof. unfold bits64, two64. apply Z.mod_pos_bound. lia. Qed.

Lemma signed64_bits64 v : - 2 ^ 63 <= v < 2 ^ 63 -> signed64 (bits64 v) = v.
Proof.
  intros Hv. unfold signed64, bits64, two64.
  destruct (Z.ltb_spec v 0) as [Hneg | Hpos].
  - replace (v mod 2 ^ 64) with (v + 2 ^ 64).
    + destruct (Z.ltb_spec (v + 2 ^ 64) (2 ^ 63)); lia.
    + apply Z.mod_unique with (q := -1); lia.
  - rewrite Z.mod_small by lia.
    destruct (Z.ltb_spec v (2 ^ 63)); lia.
Qed.

(** The low word of the pattern is the value modulo 2^32, the high word
    is the value divided by 2^32, as a 32-bit word. *)
Lemma low_word_value v : bits64 v mod two32 = v mod two32.
Proof.
  unfold bits64, two64, two32. apply Z.mod_mod_divide.
  exists (2 ^ 32). reflexivity.
Qed.

Lemma high_word_value v : bits64 v / two32 = bits32 (v / two32).
Proof.
  unfold bits64, bits32, two64, two32.
  change (2 ^ 64) with (2 ^ 32 * 2 ^ 32).
  rewrite Z.rem_mul_r by lia.
  rewrite (Z.mul_comm (2 ^ 32) ((v / 2 ^ 32) mod 2 ^ 32)).
  rewrite Z.div_add by lia.
  rewrite Z.div_small by (apply Z.mod_pos_bound; lia).
  reflexivity.
Qed.

Lemma eval_getI64Low env index b :
  nth_error (locals env) index = Some (LitI64 b) ->
  eval env (I64Utilities.getI64Low index) = Some (LitI32 (b mod two32)).
Proof. intros H. simpl. rewrite H. reflexivity. Qed.

Lemma eval_getI64High env index b :
  nth_error (locals env) index = Some (LitI64 b) ->
  eval env (I64Utilities.getI64High index) = Some (LitI32 (b / two32 mod two32)).
Proof. intros H. simpl. rewrite H. simpl. rewrite shiftr_32. reflexivity. Qed.

Lemma eval_recreateI64 env low high lo hi :
  eval env low = Some (LitI32 lo) ->
  eval env high = Some (LitI32 hi) ->
  eval env (I64Utilities.recreateI64 low high)
  = Some (LitI64 (Z.lor lo (Z.shiftl hi (32 mod 64) mod two64))).
Proof. intros Hl Hh. simpl. rewrite Hl, Hh. reflexivity. Qed.

End Words.

Lemma legalImportFor_i64_body self im ft :
  ft_result ft = i64 ->
  exists operands,
    fn_body (snd (legalImportFor self im ft))
    = Some (I64Utilities.recreateI64
              (Call (legalimport (fn_name im)) operands i32)
              (if hasGlobal self then GetGlobal TEMP_RET_0 i32
               else Call (getTempRet0 self) [] i32)).
Proof.
  intros Hr. unfold legalImportFor.
  destruct (makeLegalStubForCalledImport_params (ft_params ft) [] [] [])
    as [[operands typeParams] funcParams].
  rewrite Hr. simpl. eauto.
Qed.

(* ===================================================================== *)
(** * Export stubs *)
(* ===================================================================== *)

Lemma Type_eqb_neq a b : a <> b -> Type_eqb a b = false.
Proof.
  intros H. destruct (Type_eqb a b) eqn:E; [| reflexivity].
  apply Type_eqb_eq in E. contradiction.
Qed.

Lemma legalStubFor_name self func :
  fn_name (legalStubFor self func) = legalstub (fn_name func).
Proof.
  unfold legalStubFor.
  destruct (makeLegalStub_params (fn_params func) [] []) as [ps ops].
  destruct (Type_eqb (fn_result func) i64); [reflexivity |].
  destruct (Type_eqb (fn_result func) f32); reflexivity.
Qed.

Lemma legalStubFor_params self func :
  fn_params (legalStubFor self func)
  = fst (makeLegalStub_params (fn_params func) [] []).
Proof.
  unfold legalStubFor.
  destruct (makeLegalStub_params (fn_params func) [] []) as [ps ops].
  destruct (Type_eqb (fn_result func) i64); [reflexivity |].
  destruct (Type_eqb (fn_result func) f32); reflexivity.
Qed.

Lemma legalStubFor_not_imported self func :
  imported (legalStubFor self func) = false.
Proof.
  unfold legalStubFor.
  destruct (makeLegalStub_params (fn_params func) [] []) as [ps ops].
  destruct (Type_eqb (fn_result func) i64); [reflexivity |].
  destruct (Type_eqb (fn_result func) f32); reflexivity.
Qed.

Lemma makeLegalStub_name self func m :
  fst (makeLegalStub self func m) = legalstub (fn_name func).
Proof.
  unfold makeLegalStub. rewrite legalStubFor_name.
  destruct (getFunctionOrNull m (legalstub (fn_name func))); reflexivity.
Qed.

Lemma makeLegalStub_present self func m f :
  getFunctionOrNull m (legalstub (fn_name func)) = Some f ->
  makeLegalStub self func m = (legalstub (fn_name func), m).
Proof.
  intros H. unfold makeLegalStub. rewrite legalStubFor_name, H. reflexivity.
Qed.

Lemma makeLegalStub_absent self func m :
  getFunctionOrNull m (legalstub (fn_name func)) = None ->
  makeLegalStub self func m
  = (legalstub (fn_name func), addFunction m (legalStubFor self func)).
Proof.
  intros H. unfold makeLegalStub. rewrite legalStubFor_name, H. reflexivity.
Qed.

(* ===================================================================== *)
(** * The call-site fixer *)
(* ===================================================================== *)

Lemma map_ext_all A B (f g : A -> B) l :
  list_all (fun x => f x = g x) l -> map f l = map g l.
Proof. induction 1; simpl; congruence. Qed.

Lemma option_map_ext_all A B (f g : A -> B) o :
  option_all (fun x => f x = g x) o -> option_map f o = option_map g o.
Proof. destruct 1; simpl; congruence. Qed.

Lemma visitCall_Call mp func target operands ty :
  visitCall mp func (Call target operands ty)
  = Call (fixTarget mp (fn_name func) target) operands ty.
Proof.
  unfold visitCall, fixTarget.
  destruct (map_find target mp) as [second |]; [| reflexivity].
  destruct (String.eqb second (fn_name func)); reflexivity.
Qed.

Lemma walk_visitCall mp func e :
  walk (visitCall mp func) e = renameCalls (fixTarget mp (fn_name func)) e.
Proof.
  induction e; simpl;
    repeat match goal with
      | H : list_all _ _ |- _ => apply map_ext_all in H; rewrite H; clear H
      | H : option_all _ _ |- _ =>
          apply option_map_ext_all in H; rewrite H; clear H
      | H : walk _ _ = _ |- _ => rewrite H; clear H
      end;
    try reflexivity.
  apply visitCall_Call.
Qed.

Lemma flat_map_ext_all A B C (h : B -> C) (f : A -> list C)
  (g : A -> list B) l :
  list_all (fun x => f x = map h (g x)) l ->
  flat_map f l = map h (flat_map g l).
Proof.
  induction 1; simpl; [reflexivity |]. rewrite map_app. congruence.
Qed.

Lemma callTargets_renameCalls r e :
  callTargets (renameCalls r e) = map r (callTargets e).
Proof.
  induction e as
    [ | | l IHl | c IHc t IHt o IHo | b IHb | target ops IHops ty
    | ft ops IHops target IHt | i t | i v IHv | n t | n v IHv | v
    | op v IHv | op a IHa b IHb | v IHv | o IHo ];
    simpl; try reflexivity; try assumption;
    rewrite ?map_app, ?flat_map_concat_map, ?map_map,
      <- ?flat_map_concat_map.
  - apply flat_map_ext_all. assumption.
  - rewrite IHc, IHt. f_equal. f_equal.
    destruct IHo; simpl; [assumption | reflexivity].
  - f_equal. apply flat_map_ext_all. assumption.
  - rewrite IHt. f_equal. apply flat_map_ext_all. assumption.
  - congruence.
  - destruct IHo; simpl; [assumption | reflexivity].
Qed.

Lemma FixImports_functions mp m :
  functions (FixImports mp m)
  = map (fun f =>
           set_body f
             (option_map (renameCalls (fixTarget mp (fn_name f)))
                (fn_body f)))
        (functions m).
Proof.
  unfold FixImports, runOnFunctions. simpl. apply map_ext. intros f.
  unfold walkFunction. f_equal.
  destruct (fn_body f) as [b |]; simpl; [| reflexivity].
  f_equal. apply walk_visitCall.
Qed.

(* ===================================================================== *)
(** * The phases of a run *)
(* ===================================================================== *)

Lemma run_phases m m' :
  run m = Done m' <->
  exists self1 m1 exs m2 self3 m3, phases m self1 m1 exs m2 self3 m3 m'.
Proof.
  unfold run, phases, finish. split.
  - intros H.
    apply bind_Done in H as ([self1 m1] & E1 & H).
    apply bind_Done in H as ([exs m2] & E2 & H).
    apply bind_Done in H as ([self3 m3] & E3 & H).
    exists self1, m1, exs, m2, self3, m3.
    repeat split; try assumption.
    destruct (Nat.ltb 0 (List.length (illegalImportsToLegal self3)));
      inversion H; reflexivity.
  - intros (self1 & m1 & exs & m2 & self3 & m3 & E1 & E2 & E3 & ->).
    rewrite E1. simpl. rewrite E2. simpl.
    simpl in E3. rewrite E3. simpl.
    destruct (Nat.ltb 0 (List.length (illegalImportsToLegal self3)));
      reflexivity.
Qed.

(* ===================================================================== *)
(** * Lookups in a growing module *)
(* ===================================================================== *)

Lemma getFunctionOrNull_In m n f :
  getFunctionOrNull m n = Some f -> In f (functions m) /\ fn_name f = n.
Proof.
  unfold getFunctionOrNull. intros H. apply find_some in H as [H1 H2].
  apply String.eqb_eq in H2. auto.
Qed.

Lemma getFunctionOrNull_None m n :
  getFunctionOrNull m n = None <-> ~ In n (functionNames m).
Proof.
  unfold getFunctionOrNull, functionNames. split.
  - intros H Hin. apply in_map_iff in Hin as (f & Hn & Hin).
    apply (find_none _ _ H) in Hin. apply String.eqb_neq in Hin. auto.
  - intros H. destruct (find _ _) as [f |] eqn:E; [| reflexivity].
    apply find_some in E as [E1 E2]. apply String.eqb_eq in E2.
    exfalso. apply H. apply in_map_iff. eauto.
Qed.

Lemma getFunctionOrNull_count m n :
  getFunctionOrNull m n = None <-> countNamed n (functions m) = 0.
Proof.
  unfold getFunctionOrNull, countNamed.
  induction (functions m) as [| f fs IH]; simpl; [tauto |].
  destruct (String.eqb (fn_name f) n); simpl; [| exact IH].
  split; discriminate.
Qed.

Lemma countNamed_app n fs gs :
  countNamed n (fs ++ gs) = countNamed n fs + countNamed n gs.
Proof. unfold countNamed. rewrite filter_app, length_app. reflexivity. Qed.

Lemma countNamed_single n f :
  countNamed n [f] = if String.eqb (fn_name f) n then 1 else 0.
Proof.
  unfold countNamed. simpl. destruct (String.eqb (fn_name f) n); reflexivity.
Qed.

Lemma getFunctionOrNull_addFunction m curr n :
  getFunctionOrNull (addFunction m curr) n
  = match getFunctionOrNull m n with
    | Some f => Some f
    | None => if String.eqb (fn_name curr) n then Some curr else None
    end.
Proof.
  unfold getFunctionOrNull, addFunction. simpl. rewrite find_app.
  destruct (find _ (functions m)); [reflexivity |]. simpl.
  destruct (String.eqb (fn_name curr) n); reflexivity.
Qed.

(** ** One step of the export loop *)

Lemma legalizeExports_cons self ex rest m exs' m' :
  legalizeExports self (ex :: rest) m = Done (exs', m') ->
  exists ex' m1 rest',
    exs' = ex' :: rest'
    /\ legalizeExports self rest m1 = Done (rest', m')
    /\ ((isFunctionKind (ex_kind ex) = true
         /\ exists func,
             getFunctionOrNull m (ex_value ex) = Some func
             /\ isIllegal func = true
             /\ m1 = snd (makeLegalStub self func m)
             /\ ex' = set_value ex (legalstub (fn_name func)))
        \/ (isFunctionKind (ex_kind ex) = true
            /\ exists func,
                getFunctionOrNull m (ex_value ex) = Some func
                /\ isIllegal func = false /\ m1 = m /\ ex' = ex)
        \/ (isFunctionKind (ex_kind ex) = false /\ m1 = m /\ ex' = ex)).
Proof.
  simpl. destruct (isFunctionKind (ex_kind ex)) eqn:Ek.
  - intros H. apply bind_Done in H as (func & Ef & H).
    apply getFunction_Done in Ef.
    destruct (isIllegal func) eqn:Ei.
    + destruct (makeLegalStub self func m) as [legalName m1] eqn:Es.
      apply bind_Done in H as ([rest' m2] & Er & H).
      inversion H; subst; clear H.
      exists (set_value ex legalName), m1, rest'.
      split; [reflexivity | split; [assumption |]].
      left. split; [reflexivity |]. exists func.
      rewrite <- (makeLegalStub_name self func m), Es. auto.
    + apply bind_Done in H as ([rest' m2] & Er & H).
      inversion H; subst; clear H.
      exists ex, m, rest'.
      split; [reflexivity | split; [assumption |]].
      right. left. split; [reflexivity |]. exists func. auto.
  - intros H. apply bind_Done in H as ([rest' m2] & Er & H).
    inversion H; subst; clear H.
    exists ex, m, rest'. split; [reflexivity | split; [assumption |]].
    right. right. auto.
Qed.

(** A step of the export loop adds at most one function, a stub. *)
Lemma makeLegalStub_functions self func m :
  snd (makeLegalStub self func m) = m
  /\ getFunctionOrNull m (legalstub (fn_name func)) <> None
  \/ snd (makeLegalStub self func m)
     = addFunction m (legalStubFor self func)
     /\ getFunctionOrNull m (legalstub (fn_name func)) = None.
Proof.
  destruct (getFunctionOrNull m (legalstub (fn_name func))) as [f |] eqn:E.
  - left. rewrite (makeLegalStub_present self _ _ E). split;
      [reflexivity | discriminate].
  - right. rewrite (makeLegalStub_absent self _ _ E). auto.
Qed.

Lemma makeLegalStub_found self func m :
  getFunctionOrNull (snd (makeLegalStub self func m))
    (legalstub (fn_name func)) <> None.
Proof.
  destruct (makeLegalStub_functions self func m) as [[-> H] | [-> H]];
    [assumption |].
  rewrite getFunctionOrNull_addFunction, H, legalStubFor_name,
    String.eqb_refl.
  discriminate.
Qed.

Lemma makeLegalStub_count self func m n :
  countNamed n (functions m)
  <= countNamed n (functions (snd (makeLegalStub self func m)))
  <= Nat.max 1 (countNamed n (functions m)).
Proof.
  destruct (makeLegalStub_functions self func m) as [[-> H] | [-> H]];
    [lia |].
  unfold addFunction, set_functions; cbn [functions].
  rewrite countNamed_app, countNamed_single, legalStubFor_name.
  destruct (String.eqb (legalstub (fn_name func)) n) eqn:E.
  2: { generalize (countNamed n (functions m)). intros c. lia. }
  apply String.eqb_eq in E. subst n.
  apply getFunctionOrNull_count in H. lia.
Qed.

Lemma legalizeExports_count self exs :
  forall m exs' m' n,
    legalizeExports self exs m = Done (exs', m') ->
    countNamed n (functions m) <= countNamed n (functions m')
    <= Nat.max 1 (countNamed n (functions m)).
Proof.
  induction exs as [| ex rest IH]; intros m exs' m' n H.
  - inversion H; subst. lia.
  - apply legalizeExports_cons in H
      as (ex' & m1 & rest' & -> & Hr & Hstep).
    specialize (IH _ _ _ n Hr).
    destruct Hstep as [(_ & func & _ & _ & -> & _)
                      | [(_ & func & _ & _ & -> & _) | (_ & -> & _)]];
      try assumption.
    pose proof (makeLegalStub_count self func m n). lia.
Qed.

Lemma legalizeExports_keeps self exs :
  forall m exs' m' n f,
    legalizeExports self exs m = Done (exs', m') ->
    getFunctionOrNull m n = Some f -> getFunctionOrNull m' n = Some f.
Proof.
  induction exs as [| ex rest IH]; intros m exs' m' n f H Hf.
  - inversion H; subst. assumption.
  - apply legalizeExports_cons in H
      as (ex' & m1 & rest' & -> & Hr & Hstep).
    apply (IH _ _ _ _ _ Hr).
    destruct Hstep as [(_ & func & _ & _ & -> & _)
                      | [(_ & func & _ & _ & -> & _) | (_ & -> & _)]];
      try assumption.
    destruct (makeLegalStub_functions self func m) as [[-> H] | [-> H]];
      [assumption |].
    rewrite getFunctionOrNull_addFunction, Hf. reflexivity.
Qed.

(** What the loop does to the exports, seen from the module it started
    with: an export of an illegal function names the stub afterwards,
    which exists; any other export is as before. *)
Lemma legalizeExports_retargets self exs :
  forall m exs' m',
    legalizeExports self exs m = Done (exs', m') ->
    Forall2
      (fun ex ex' =>
         forall func,
           isFunctionKind (ex_kind ex) = true ->
           getFunctionOrNull m (ex_value ex) = Some func ->
           if isIllegal func then
             ex' = set_value ex (legalstub (fn_name func))
             /\ getFunctionOrNull m' (legalstub (fn_name func)) <> None
           else ex' = ex)
      exs exs'.
Proof.
  induction exs as [| ex rest IH]; intros m exs' m' H.
  - inversion H; subst. constructor.
  - apply legalizeExports_cons in H
      as (ex' & m1 & rest' & -> & Hr & Hstep).
    assert (Hkeep : forall n f,
               getFunctionOrNull m n = Some f ->
               getFunctionOrNull m1 n = Some f).
    { intros n f Hf.
      destruct Hstep as [(_ & func & _ & _ & -> & _)
                        | [(_ & func & _ & _ & -> & _) | (_ & -> & _)]];
        try assumption.
      destruct (makeLegalStub_functions self func m) as [[-> H] | [-> H]];
        [assumption |].
      rewrite getFunctionOrNull_addFunction, Hf. reflexivity. }
    constructor.
    + intros func Hk Hf.
      destruct Hstep as [(_ & func' & Hf' & Hi & -> & ->)
                        | [(_ & func' & Hf' & Hi & -> & ->)
                          | (Hk' & -> & ->)]].
      * assert (func' = func) by congruence. subst func'. rewrite Hi.
        split; [reflexivity |].
        pose proof (makeLegalStub_found self func m) as Hfound.
        destruct (getFunctionOrNull (snd (makeLegalStub self func m))
                    (legalstub (fn_name func))) as [g |] eqn:Eg;
          [| contradiction].
        rewrite (legalizeExports_keeps _ _ _ _ Hr Eg). discriminate.
      * assert (func' = func) by congruence. subst func'. rewrite Hi.
        reflexivity.
      * congruence.
    + specialize (IH _ _ _ Hr).
      eapply Forall2_impl; [| exact IH].
      intros a b Hab func Hk Hf. apply Hab; auto.
Qed.

(* ===================================================================== *)
(** * Legality *)
(* ===================================================================== *)

Lemma illegalType_spec t : illegalType t = true <-> t = i64 \/ t = f32.
Proof.
  destruct t; simpl; split; intros H; try discriminate; auto;
    destruct H; discriminate.
Qed.

Lemma anyIllegal_spec ps :
  anyIllegal ps = false <-> ~ In i64 ps /\ ~ In f32 ps.
Proof.
  induction ps as [| p ps IH]; simpl; [tauto |].
  destruct (illegalType p) eqn:E.
  - apply illegalType_spec in E. intuition congruence.
  - assert (p <> i64 /\ p <> f32) as [H1 H2].
    { split; intros ->; discriminate. }
    rewrite IH. intuition congruence.
Qed.

Lemma isIllegal_legalSignature T `(Signature T) (t : T) :
  isIllegal t = false <-> legalSignature t.
Proof.
  unfold isIllegal, legalSignature.
  destruct (anyIllegal (params t)) eqn:Ea.
  - split; [discriminate |]. intros (H1 & H2 & _).
    assert (anyIllegal (params t) = false) by (apply anyIllegal_spec; auto).
    congruence.
  - apply anyIllegal_spec in Ea as [H1 H2].
    destruct (illegalType (result t)) eqn:Er.
    + apply illegalType_spec in Er. split; [discriminate |]. tauto.
    + split; [| reflexivity]. intros _.
      repeat split; auto; intros Hr; rewrite Hr in Er; discriminate.
Qed.

Lemma anyIllegal_app ps qs :
  anyIllegal (ps ++ qs) = anyIllegal ps || anyIllegal qs.
Proof.
  induction ps as [| p ps IH]; simpl; [reflexivity |].
  destruct (illegalType p); simpl; auto.
Qed.

Lemma illegalType_not t :
  Type_eqb t i64 = false -> Type_eqb t f32 = false -> illegalType t = false.
Proof. unfold illegalType. intros -> ->. reflexivity. Qed.

Lemma makeLegalStub_params_legal ps :
  forall legalParams operands,
    anyIllegal legalParams = false ->
    anyIllegal (fst (makeLegalStub_params ps legalParams operands)) = false.
Proof.
  induction ps as [| p ps IH]; intros legalParams operands H; simpl;
    [assumption |].
  destruct (Type_eqb p i64) eqn:E64; [| destruct (Type_eqb p f32) eqn:E32];
    apply IH; rewrite anyIllegal_app, H; simpl; try reflexivity.
  rewrite (illegalType_not _ E64 E32). reflexivity.
Qed.

Lemma legalStubFor_legal self func : isIllegal (legalStubFor self func) = false.
Proof.
  unfold isIllegal. simpl params. simpl result.
  rewrite legalStubFor_params.
  rewrite makeLegalStub_params_legal by reflexivity.
  unfold legalStubFor.
  destruct (makeLegalStub_params (fn_params func) [] []) as [ps ops].
  destruct (Type_eqb (fn_result func) i64) eqn:E64; [reflexivity |].
  destruct (Type_eqb (fn_result func) f32) eqn:E32; [reflexivity |].
  simpl. rewrite (illegalType_not _ E64 E32). reflexivity.
Qed.

Lemma makeLegalStubForCalledImport_params_legal ps :
  forall operands typeParams funcParams,
    anyIllegal typeParams = false ->
    anyIllegal
      (snd (fst (makeLegalStubForCalledImport_params ps operands typeParams
                   funcParams))) = false.
Proof.
  induction ps as [| p ps IH]; intros operands typeParams funcParams H;
    simpl; [assumption |].
  destruct (Type_eqb p i64) eqn:E64; [| destruct (Type_eqb p f32) eqn:E32];
    apply IH; rewrite anyIllegal_app, H; simpl; try reflexivity.
  rewrite (illegalType_not _ E64 E32). reflexivity.
Qed.

(* ===================================================================== *)
(** * The import loop *)
(* ===================================================================== *)

Lemma legalImportFor_names self im t :
  ft_name (legalTypeOf self im t) = legaltype (fn_name im)
  /\ fn_name (legalImportOf self im t) = legalimport (fn_name im)
  /\ fn_name (importStubOf self im t) = legalfunc (fn_name im).
Proof.
  unfold legalTypeOf, legalImportOf, importStubOf, legalImportFor.
  destruct (makeLegalStubForCalledImport_params (ft_params t) [] [] [])
    as [[operands typeParams] funcParams].
  destruct (Type_eqb (ft_result t) i64); [simpl; auto |].
  destruct (Type_eqb (ft_result t) f32); simpl; auto.
Qed.

Lemma legalImportOf_fields self im t :
  fn_module (legalImportOf self im t) = fn_module im
  /\ fn_base (legalImportOf self im t) = fn_base im
  /\ fn_type (legalImportOf self im t) = Some (legaltype (fn_name im))
  /\ imported (legalImportOf self im t) = imported im
  /\ fn_params (legalImportOf self im t) = ft_params (legalTypeOf self im t)
  /\ fn_result (legalImportOf self im t) = ft_result (legalTypeOf self im t).
Proof.
  unfold legalTypeOf, legalImportOf, imported, legalImportFor.
  destruct (makeLegalStubForCalledImport_params (ft_params t) [] [] [])
    as [[operands typeParams] funcParams].
  destruct (Type_eqb (ft_result t) i64); [simpl; auto 7 |].
  destruct (Type_eqb (ft_result t) f32); simpl; auto 7.
Qed.

Lemma importStubOf_not_imported self im t :
  imported (importStubOf self im t) = false.
Proof.
  unfold importStubOf, legalImportFor.
  destruct (makeLegalStubForCalledImport_params (ft_params t) [] [] [])
    as [[operands typeParams] funcParams].
  destruct (Type_eqb (ft_result t) i64); [reflexivity |].
  destruct (Type_eqb (ft_result t) f32); reflexivity.
Qed.

Lemma legalTypeOf_legal self im t : isIllegal (legalTypeOf self im t) = false.
Proof.
  pose proof (makeLegalStubForCalledImport_params_legal (ft_params t)
                [] [] [] eq_refl) as Hp.
  unfold isIllegal, legalTypeOf, legalImportFor. simpl params. simpl result.
  destruct (makeLegalStubForCalledImport_params (ft_params t) [] [] [])
    as [[operands typeParams] funcParams].
  simpl in Hp.
  destruct (Type_eqb (ft_result t) i64) eqn:E64; [simpl; rewrite Hp; auto |].
  destruct (Type_eqb (ft_result t) f32) eqn:E32; simpl; rewrite Hp; auto.
  rewrite (illegalType_not _ E64 E32). reflexivity.
Qed.

Lemma legalImportOf_legal self im t :
  isIllegal (legalImportOf self im t) = false.
Proof.
  pose proof (legalTypeOf_legal self im t) as H.
  destruct (legalImportOf_fields self im t) as (_ & _ & _ & _ & Hp & Hr).
  unfold isIllegal in *. simpl params in *. simpl result in *.
  rewrite Hp, Hr. exact H.
Qed.

Lemma makeLegalStubForCalledImport_Done self im m n m1 :
  makeLegalStubForCalledImport self im m = Done (n, m1) <->
  exists t,
    typeOf m im = Some t
    /\ n = legalfunc (fn_name im)
    /\ m1 = addFunctionIfAbsent
              (addFunctionTypeIfAbsent
                 (addFunctionIfAbsent m (importStubOf self im t))
                 (legalTypeOf self im t))
              (legalImportOf self im t).
Proof.
  unfold makeLegalStubForCalledImport, typeOf, getFunctionType.
  destruct (fn_type im) as [tn |]; simpl.
  2: { split; [discriminate | intros (t & H & _); discriminate]. }
  destruct (getFunctionTypeOrNull m tn) as [t |]; simpl.
  2: { split; [discriminate | intros (t & H & _); discriminate]. }
  match goal with
  | |- ?lhs = _ <-> _ =>
      assert (E : lhs
                  = Done (legalfunc (fn_name im),
                          addFunctionIfAbsent
                            (addFunctionTypeIfAbsent
                               (addFunctionIfAbsent m (importStubOf self im t))
                               (legalTypeOf self im t))
                            (legalImportOf self im t)))
  end.
  { pose proof (legalImportFor_names self im t) as (Hn1 & Hn2 & Hn3).
    unfold addFunctionIfAbsent, addFunctionTypeIfAbsent, legalTypeOf,
      legalImportOf, importStubOf in *.
    destruct (legalImportFor self im t) as [[type legal] func].
    simpl in *. rewrite Hn3. reflexivity. }
  rewrite E. split.
  - intros H. exists t. injection H as <- <-. auto.
  - intros (t' & Ht & -> & ->). injection Ht as <-. reflexivity.
Qed.

Lemma legalizeImports_cons im rest self m self' m' :
  legalizeImports (im :: rest) self m = Done (self', m') ->
  ((imported im = false
    \/ exists t, typeOf m im = Some t /\ isIllegal t = false)
   /\ legalizeImports rest self m = Done (self', m'))
  \/ (exists t,
         imported im = true /\ typeOf m im = Some t /\ isIllegal t = true
         /\ legalizeImports rest
              (set_map self
                 (map_set (fn_name im) (legalfunc (fn_name im))
                    (illegalImportsToLegal self)))
              (importStep self im t m)
            = Done (self', m')).
Proof.
  simpl. destruct (imported im) eqn:Eimp; simpl.
  2: { intros H. left. auto. }
  intros H. apply bind_Done in H as (t & Et & H).
  apply getFunctionType_Done in Et as (tn & Etn & Et).
  assert (Hty : typeOf m im = Some t) by (unfold typeOf; rewrite Etn; exact Et).
  destruct (isIllegal t) eqn:Ei; [| left; eauto].
  right. exists t. repeat split; auto.
  apply bind_Done in H as ([funcName m1] & Es & H).
  apply makeLegalStubForCalledImport_Done in Es as (t' & Ht' & -> & ->).
  assert (t' = t) by congruence. subst t'.
  exact H.
Qed.

(** ** Types only grow, by legal types *)

Lemma typesExtend_refl m : typesExtend m m.
Proof. exists []. rewrite app_nil_r. auto. Qed.

Lemma typesExtend_found m0 m n t :
  typesExtend m0 m ->
  getFunctionTypeOrNull m0 n = Some t -> getFunctionTypeOrNull m n = Some t.
Proof.
  intros (added & E & _) H. unfold getFunctionTypeOrNull in *.
  rewrite E, find_app, H. reflexivity.
Qed.

Lemma typesExtend_new m0 m n t :
  typesExtend m0 m ->
  getFunctionTypeOrNull m0 n = None -> getFunctionTypeOrNull m n = Some t ->
  isIllegal t = false.
Proof.
  intros (added & E & Hl) H0 H. unfold getFunctionTypeOrNull in *.
  rewrite E, find_app, H0 in H. apply find_some in H as [Hin _].
  rewrite Forall_forall in Hl. auto.
Qed.

Lemma typesExtend_typeOf m0 m f t :
  typesExtend m0 m -> typeOf m0 f = Some t -> typeOf m f = Some t.
Proof.
  unfold typeOf. destruct (fn_type f); [| discriminate].
  apply typesExtend_found.
Qed.

Lemma typesExtend_illegal m0 m f t :
  typesExtend m0 m -> typeOf m f = Some t -> isIllegal t = true ->
  typeOf m0 f = Some t.
Proof.
  intros He Ht Hi. unfold typeOf in *. destruct (fn_type f) as [n |];
    [| discriminate].
  destruct (getFunctionTypeOrNull m0 n) as [t0 |] eqn:E0.
  - rewrite (typesExtend_found _ He E0) in Ht. exact Ht.
  - rewrite (typesExtend_new _ He E0 Ht) in Hi. discriminate.
Qed.

Lemma typesExtend_legal m0 m f t :
  typesExtend m0 m -> typeOf m f = Some t -> isIllegal t = false ->
  illegalImport m0 f = false.
Proof.
  intros He Ht Hi. unfold illegalImport.
  destruct (typeOf m0 f) as [t0 |] eqn:E0; [| apply andb_false_r].
  rewrite (typesExtend_typeOf _ He E0) in Ht. inversion Ht; subst.
  rewrite Hi. apply andb_false_r.
Qed.

Lemma functionTypes_addFunctionIfAbsent m f :
  functionTypes (addFunctionIfAbsent m f) = functionTypes m.
Proof.
  unfold addFunctionIfAbsent.
  destruct (getFunctionOrNull m (fn_name f)); reflexivity.
Qed.

Lemma typesExtend_importStep m0 self im t m :
  typesExtend m0 m -> typesExtend m0 (importStep self im t m).
Proof.
  intros (added & E & Hl). unfold importStep, typesExtend.
  simpl functionTypes. rewrite functionTypes_addFunctionIfAbsent.
  unfold addFunctionTypeIfAbsent.
  destruct (getFunctionTypeOrNull _ _).
  - rewrite functionTypes_addFunctionIfAbsent. eauto.
  - simpl. rewrite functionTypes_addFunctionIfAbsent, E, <- app_assoc.
    eexists. split; [reflexivity |].
    apply Forall_app. split; [assumption |].
    constructor; [apply legalTypeOf_legal | constructor].
Qed.

(** The loop is a fold over the illegal imports of the module it
    started from. *)
Lemma legalizeImports_fold m0 fs :
  forall self m self' m',
    typesExtend m0 m ->
    legalizeImports fs self m = Done (self', m') ->
    (self', m')
    = fold_left (importStepOf m0) (filter (illegalImport m0) fs) (self, m).
Proof.
  induction fs as [| im rest IH]; intros self m self' m' He H.
  - inversion H; subst. reflexivity.
  - apply legalizeImports_cons in H
      as [[Hleg H] | (t & Himp & Ht & Hi & H)]; simpl.
    + assert (E : illegalImport m0 im = false).
      { destruct Hleg as [Hn | (t & Ht & Hi)].
        - unfold illegalImport. rewrite Hn. reflexivity.
        - apply (typesExtend_legal _ He Ht Hi). }
      rewrite E. apply IH; assumption.
    + pose proof (typesExtend_illegal _ He Ht Hi) as Ht0.
      assert (E : illegalImport m0 im = true).
      { unfold illegalImport. rewrite Himp, Ht0, Hi. reflexivity. }
      rewrite E. simpl. unfold importStepOf at 2. rewrite Ht0. simpl.
      apply IH; [| assumption].
      apply typesExtend_importStep, He.
Qed.

(** ** What a step of the import loop leaves alone *)

Lemma addFunctionIfAbsent_fields m f :
  functionTypes (addFunctionIfAbsent m f) = functionTypes m
  /\ exports (addFunctionIfAbsent m f) = exports m
  /\ globals (addFunctionIfAbsent m f) = globals m
  /\ table (addFunctionIfAbsent m f) = table m.
Proof.
  unfold addFunctionIfAbsent.
  destruct (getFunctionOrNull m (fn_name f)); simpl; auto.
Qed.

Lemma addFunctionTypeIfAbsent_fields m t :
  functions (addFunctionTypeIfAbsent m t) = functions m
  /\ exports (addFunctionTypeIfAbsent m t) = exports m
  /\ globals (addFunctionTypeIfAbsent m t) = globals m
  /\ table (addFunctionTypeIfAbsent m t) = table m.
Proof.
  unfold addFunctionTypeIfAbsent.
  destruct (getFunctionTypeOrNull m (ft_name t)); simpl; auto.
Qed.

Lemma importStep_fields self im t m :
  exports (importStep self im t m) = exports m
  /\ globals (importStep self im t m) = globals m
  /\ table (importStep self im t m)
     = map (retargetSegment (fn_name im) (legalfunc (fn_name im))) (table m).
Proof.
  unfold importStep. simpl.
  repeat match goal with
    | |- context [exports (addFunctionIfAbsent ?m ?f)] =>
        rewrite (proj1 (proj2 (addFunctionIfAbsent_fields m f)))
    | |- context [globals (addFunctionIfAbsent ?m ?f)] =>
        rewrite (proj1 (proj2 (proj2 (addFunctionIfAbsent_fields m f))))
    | |- context [table (addFunctionIfAbsent ?m ?f)] =>
        rewrite (proj2 (proj2 (proj2 (addFunctionIfAbsent_fields m f))))
    | |- context [exports (addFunctionTypeIfAbsent ?m ?f)] =>
        rewrite (proj1 (proj2 (addFunctionTypeIfAbsent_fields m f)))
    | |- context [globals (addFunctionTypeIfAbsent ?m ?f)] =>
        rewrite (proj1 (proj2 (proj2 (addFunctionTypeIfAbsent_fields m f))))
    | |- context [table (addFunctionTypeIfAbsent ?m ?f)] =>
        rewrite (proj2 (proj2 (proj2 (addFunctionTypeIfAbsent_fields m f))))
    end.
  auto.
Qed.

Lemma importStepOf_illegal m0 acc x :
  illegalImport m0 x = true ->
  exists t,
    typeOf m0 x = Some t /\ isIllegal t = true /\ imported x = true
    /\ importStepOf m0 acc x
       = (set_map (fst acc)
            (map_set (fn_name x) (legalfunc (fn_name x))
               (illegalImportsToLegal (fst acc))),
          importStep (fst acc) x t (snd acc)).
Proof.
  unfold illegalImport, importStepOf. intros H.
  apply andb_true_iff in H as [Himp H].
  destruct (typeOf m0 x) as [t |]; [| discriminate]. eauto.
Qed.

(** ** The table after the loop *)

Lemma fold_importStepOf_table m0 xs :
  forall acc,
    Forall (fun x => illegalImport m0 x = true) xs ->
    table (snd (fold_left (importStepOf m0) xs acc))
    = fold_left
        (fun tb x =>
           map (retargetSegment (fn_name x) (legalfunc (fn_name x))) tb)
        xs (table (snd acc)).
Proof.
  induction xs as [| x xs IH]; intros acc Hall; simpl; [reflexivity |].
  inversion Hall as [| ? ? Hx Hxs]; subst.
  destruct (@importStepOf_illegal m0 acc x Hx) as (t & _ & _ & _ & ->).
  rewrite IH by assumption. cbn [snd fst].
  rewrite (proj2 (proj2 (importStep_fields _ _ _ _))). reflexivity.
Qed.

Lemma fold_retarget_absent ks n :
  ~ In n ks ->
  fold_left (fun n' k => retarget k (legalfunc k) n') ks n = n.
Proof.
  revert n. induction ks as [| k ks IH]; intros n Hn; simpl; [reflexivity |].
  unfold retarget at 2.
  destruct (String.eqb n k) eqn:E.
  - apply String.eqb_eq in E. subst. exfalso. apply Hn. left. reflexivity.
  - apply IH. intros Hin. apply Hn. right. exact Hin.
Qed.

Lemma fold_retarget ks n :
  (forall k, In k ks -> ~ In (legalfunc k) ks) ->
  fold_left (fun n' k => retarget k (legalfunc k) n') ks n
  = if in_dec string_dec n ks then legalfunc n else n.
Proof.
  revert n. induction ks as [| k ks IH]; intros n H; simpl; [reflexivity |].
  unfold retarget at 2.
  destruct (String.eqb n k) eqn:E.
  - apply String.eqb_eq in E. subst n.
    destruct (string_dec k k) as [Hkk | Hne]; [| congruence].
    apply fold_retarget_absent. intros Hin.
    apply (H k); simpl; auto.
  - apply String.eqb_neq in E.
    rewrite IH.
    + destruct (string_dec k n) as [Heq | Hkn]; [congruence |].
      destruct (in_dec string_dec n ks); reflexivity.
    + intros k' Hk' Hin. apply (H k'); simpl; auto.
Qed.

Lemma fold_retargetSegments (xs : list Function) :
  forall tb,
    fold_left
      (fun tb x =>
         map (retargetSegment (fn_name x) (legalfunc (fn_name x))) tb)
      xs tb
    = map (renameSegment
             (fun n =>
                fold_left (fun n' k => retarget k (legalfunc k) n')
                  (map fn_name xs) n))
          tb.
Proof.
  induction xs as [| x xs IH]; intros tb; simpl.
  - rewrite <- (map_id tb) at 1. apply map_ext. intros [o d].
    unfold renameSegment. simpl. rewrite map_id. reflexivity.
  - rewrite IH, map_map. apply map_ext. intros [o d].
    unfold renameSegment, retargetSegment. simpl. rewrite map_map.
    reflexivity.
Qed.

(* ===================================================================== *)
(** * The module before the import loop *)
(* ===================================================================== *)

Lemma ensureTempRet0Helpers_Done self m self' m1 :
  ensureTempRet0Helpers self m = Done (self', m1) ->
  illegalImportsToLegal self' = illegalImportsToLegal self
  /\ (m1 = m \/ m1 = withChannel m).
Proof.
  unfold ensureTempRet0Helpers.
  destruct (getImportedFunction m ENV GET_TEMP_RET_0) as [ig |] eqn:Eig,
    (getImportedFunction m ENV SET_TEMP_RET_0) as [is_ |] eqn:Eis;
    try discriminate.
  - intros H. injection H as <- <-. auto.
  - destruct (getExportOrNull m GET_TEMP_RET_0) as [eg |] eqn:Eeg,
      (getExportOrNull m SET_TEMP_RET_0) as [es |] eqn:Ees;
      try discriminate.
    + intros H. injection H as <- <-. auto.
    + intros H.
      pose proof (ensureTempRet0Helpers_created self m Eig Eis Eeg Ees) as E.
      unfold ensureTempRet0Helpers in E. rewrite Eig, Eis, Eeg, Ees in E.
      rewrite E in H. injection H as <- <-. auto.
Qed.

Lemma legalizeExports_extends self exs :
  forall m exs' m',
    legalizeExports self exs m = Done (exs', m') ->
    exists extra,
      functions m' = functions m ++ extra
      /\ Forall (fun f => exists func, f = legalStubFor self func) extra
      /\ functionTypes m' = functionTypes m
      /\ exports m' = exports m
      /\ globals m' = globals m
      /\ table m' = table m.
Proof.
  induction exs as [| ex rest IH]; intros m exs' m' H.
  - inversion H; subst. exists []. rewrite app_nil_r. auto 6.
  - apply legalizeExports_cons in H
      as (ex' & m1 & rest' & -> & Hr & Hstep).
    destruct (IH _ _ _ Hr) as (extra & Ef & Hall & Et & Ee & Eg & Etb).
    destruct Hstep as [(_ & func & _ & _ & -> & _)
                      | [(_ & func & _ & _ & -> & _) | (_ & -> & _)]];
      try (exists extra; auto 6; fail).
    destruct (makeLegalStub_functions self func m) as [[E H] | [E H]];
      rewrite E in *.
    + exists extra; auto 6.
    + exists (legalStubFor self func :: extra). simpl in *.
      rewrite Ef, <- app_assoc. simpl. repeat split; auto.
      constructor; eauto.
Qed.

Lemma legalizeExports_names self exs :
  forall m exs' m',
    legalizeExports self exs m = Done (exs', m') ->
    map ex_name exs' = map ex_name exs
    /\ map ex_kind exs' = map ex_kind exs.
Proof.
  induction exs as [| ex rest IH]; intros m exs' m' H.
  - inversion H; subst. auto.
  - apply legalizeExports_cons in H
      as (ex' & m1 & rest' & -> & Hr & Hstep).
    destruct (IH _ _ _ Hr) as [En Ek]. simpl. rewrite En, Ek.
    destruct Hstep as [(_ & func & _ & _ & _ & ->)
                      | [(_ & func & _ & _ & _ & ->) | (_ & _ & ->)]];
      auto.
Qed.

Lemma earlyFunction_not_imported self f :
  earlyFunction self f -> imported f = false.
Proof.
  intros [-> | [-> | (func & ->)]]; try reflexivity.
  apply legalStubFor_not_imported.
Qed.

Lemma before_imports m self1 m1 exs m2 :
  ensureTempRet0Helpers newPass m = Done (self1, m1) ->
  legalizeExports self1 (exports m1) m1 = Done (exs, m2) ->
  illegalImportsToLegal self1 = []
  /\ functionTypes m2 = functionTypes m
  /\ table m2 = table m
  /\ exists extra,
       functions m2 = functions m ++ extra
       /\ Forall (earlyFunction self1) extra.
Proof.
  intros H1 H2.
  apply ensureTempRet0Helpers_Done in H1 as [Hmap Hm1].
  apply legalizeExports_extends in H2
    as (extra & Ef & Hall & Et & _ & _ & Etb).
  split; [exact Hmap |].
  assert (Hstubs : Forall (earlyFunction self1) extra).
  { eapply Forall_impl; [| exact Hall]. intros f Hf. right. right. exact Hf. }
  destruct Hm1 as [-> | ->].
  - repeat split; auto. eauto.
  - rewrite Et, Etb, Ef. simpl. repeat split; auto.
    exists ([getter; setter] ++ extra). rewrite <- app_assoc.
    split; [reflexivity |].
    apply Forall_app. split; [| assumption].
    constructor; [left; reflexivity |].
    constructor; [right; left; reflexivity | constructor].
Qed.

Lemma illegalImport_ext m m' f :
  functionTypes m = functionTypes m' -> illegalImport m f = illegalImport m' f.
Proof.
  intros E. unfold illegalImport, typeOf, getFunctionTypeOrNull.
  rewrite E. reflexivity.
Qed.

Lemma filter_none A (p : A -> bool) l :
  Forall (fun x => p x = false) l -> filter p l = [].
Proof.
  induction 1 as [| x l Hx _ IH]; simpl; [reflexivity |].
  rewrite Hx. exact IH.
Qed.

Lemma illegalImport_not_imported m f :
  imported f = false -> illegalImport m f = false.
Proof. unfold illegalImport. intros ->. reflexivity. Qed.

(** The import loop meets the illegal imports of the module the run
    started from, and nothing else. *)
Lemma illegalImports_before m self1 m1 exs m2 :
  ensureTempRet0Helpers newPass m = Done (self1, m1) ->
  legalizeExports self1 (exports m1) m1 = Done (exs, m2) ->
  filter (illegalImport (set_exports m2 exs)) (functions m2)
  = illegalImports m.
Proof.
  intros H1 H2.
  destruct (before_imports _ H1 H2) as (_ & Et & _ & extra & Ef & Hall).
  unfold illegalImports. rewrite Ef, filter_app.
  rewrite (@filter_none _ (illegalImport (set_exports m2 exs)) extra).
  - rewrite app_nil_r. apply filter_ext. intros f.
    apply illegalImport_ext. simpl. exact Et.
  - eapply Forall_impl; [| exact Hall]. intros f Hf.
    apply illegalImport_not_imported.
    apply (earlyFunction_not_imported Hf).
Qed.

Lemma illegalImports_all m :
  Forall (fun x => illegalImport m x = true) (illegalImports m).
Proof.
  apply Forall_forall. intros x Hin. apply filter_In in Hin. tauto.
Qed.

Lemma illegalImportName_In m n :
  illegalImportName m n = true <-> In n (map fn_name (illegalImports m)).
Proof.
  unfold illegalImportName, illegalImports. rewrite existsb_exists. split.
  - intros (f & Hin & H). apply andb_true_iff in H as [Hn Hi].
    apply String.eqb_eq in Hn. apply in_map_iff. exists f.
    split; [assumption |]. apply filter_In. auto.
  - intros H. apply in_map_iff in H as (f & Hn & Hin).
    apply filter_In in Hin as [Hin Hi]. exists f. split; [assumption |].
    rewrite Hi, Hn, String.eqb_refl. reflexivity.
Qed.

(** ** What the last phase leaves alone *)

Lemma removeFunctions_fields names :
  forall m,
    functionTypes (removeFunctions names m) = functionTypes m
    /\ exports (removeFunctions names m) = exports m
    /\ globals (removeFunctions names m) = globals m
    /\ table (removeFunctions names m) = table m.
Proof.
  unfold removeFunctions.
  induction names as [| n names IH]; intros m; simpl; [auto |].
  destruct (IH (removeFunction m n)) as (-> & -> & -> & ->). auto.
Qed.

Lemma finish_fields self m :
  functionTypes (finish self m) = functionTypes m
  /\ exports (finish self m) = exports m
  /\ globals (finish self m) = globals m
  /\ table (finish self m) = table m.
Proof.
  unfold finish.
  destruct (Nat.ltb 0 (List.length (illegalImportsToLegal self))); [| auto].
  unfold FixImports, runOnFunctions. simpl. apply removeFunctions_fields.
Qed.

(** The import loop of a run, as a fold. *)
Lemma phases_fold m self1 m1 exs m2 self3 m3 m' :
  phases m self1 m1 exs m2 self3 m3 m' ->
  (self3, m3)
  = fold_left (importStepOf (set_exports m2 exs)) (illegalImports m)
      (self1, set_exports m2 exs).
Proof.
  intros (H1 & H2 & H3 & _).
  rewrite <- (illegalImports_before _ H1 H2).
  apply legalizeImports_fold; [apply typesExtend_refl | exact H3].
Qed.

(* ===================================================================== *)
(** * The name map after the import loop *)
(* ===================================================================== *)

Lemma map_find_map_set k k' v mp :
  map_find k (map_set k' v mp)
  = if String.eqb k' k then Some v else map_find k mp.
Proof.
  induction mp as [| [k0 v0] mp IH]; simpl.
  - reflexivity.
  - destruct (String.eqb k0 k') eqn:E0; simpl.
    + apply String.eqb_eq in E0. subst k0.
      destruct (String.eqb k' k); reflexivity.
    + destruct (String.eqb k0 k) eqn:E1; [| exact IH].
      destruct (String.eqb k' k) eqn:E2; [| reflexivity].
      apply String.eqb_eq in E1, E2. subst.
      rewrite String.eqb_refl in E0. discriminate.
Qed.

Lemma map_keys_map_set k k' v mp :
  In k (map_keys (map_set k' v mp)) <-> k = k' \/ In k (map_keys mp).
Proof.
  unfold map_keys. induction mp as [| [k0 v0] mp IH]; simpl.
  - intuition.
  - destruct (String.eqb k0 k') eqn:E0; simpl.
    + apply String.eqb_eq in E0. subst k0. intuition.
    + rewrite IH. intuition.
Qed.

Lemma fold_importStepOf_map m0 xs :
  forall acc,
    Forall (fun x => illegalImport m0 x = true) xs ->
    illegalImportsToLegal (fst (fold_left (importStepOf m0) xs acc))
    = fold_left
        (fun mp x => map_set (fn_name x) (legalfunc (fn_name x)) mp)
        xs (illegalImportsToLegal (fst acc)).
Proof.
  induction xs as [| x xs IH]; intros acc Hall; simpl; [reflexivity |].
  inversion Hall as [| ? ? Hx Hxs]; subst.
  destruct (@importStepOf_illegal m0 acc x Hx) as (t & _ & _ & _ & ->).
  rewrite IH by assumption. reflexivity.
Qed.

Lemma fold_map_set_keys (xs : list Function) :
  forall mp k,
    In k (map_keys
            (fold_left
               (fun mp x => map_set (fn_name x) (legalfunc (fn_name x)) mp)
               xs mp))
    <-> In k (map fn_name xs) \/ In k (map_keys mp).
Proof.
  induction xs as [| x xs IH]; intros mp k; simpl; [tauto |].
  rewrite IH, map_keys_map_set. intuition.
Qed.

Lemma fold_map_set_find (xs : list Function) :
  forall mp k,
    (forall k', In k' (map_keys mp) -> map_find k' mp = Some (legalfunc k')) ->
    In k (map fn_name xs) \/ In k (map_keys mp) ->
    map_find k
      (fold_left
         (fun mp x => map_set (fn_name x) (legalfunc (fn_name x)) mp)
         xs mp)
    = Some (legalfunc k).
Proof.
  induction xs as [| x xs IH]; intros mp k Hmp Hk; simpl.
  - destruct Hk as [[] | Hk]. auto.
  - apply IH.
    + intros k' Hk'. rewrite map_find_map_set.
      destruct (String.eqb (fn_name x) k') eqn:E.
      * apply String.eqb_eq in E. subst. reflexivity.
      * apply map_keys_map_set in Hk' as [-> | Hk'].
        -- rewrite String.eqb_refl in E. discriminate.
        -- auto.
    + rewrite map_keys_map_set. simpl in Hk. intuition.
Qed.

(** The keys of the map are the names of the illegal imports, each
    mapped to its stub's name. *)
Lemma phases_map m self1 m1 exs m2 self3 m3 m' :
  phases m self1 m1 exs m2 self3 m3 m' ->
  forall n,
    (In n (map_keys (illegalImportsToLegal self3))
     <-> illegalImportName m n = true)
    /\ (illegalImportName m n = true ->
        map_find n (illegalImportsToLegal self3) = Some (legalfunc n)).
Proof.
  intros Hph n.
  pose proof (phases_fold Hph) as Hfold.
  destruct Hph as (H1 & H2 & _ & _).
  destruct (before_imports _ H1 H2) as (Hmap & Et & _).
  assert (Hall : Forall (fun x => illegalImport (set_exports m2 exs) x = true)
                   (illegalImports m)).
  { eapply Forall_impl; [| apply illegalImports_all]. intros f Hf.
    rewrite <- Hf. apply illegalImport_ext. simpl. exact Et. }
  pose proof (@fold_importStepOf_map _ _ (self1, set_exports m2 exs) Hall) as E.
  rewrite <- Hfold in E. simpl in E. rewrite Hmap in E. rewrite E.
  rewrite illegalImportName_In. split.
  - rewrite fold_map_set_keys. simpl. tauto.
  - intros Hin. apply fold_map_set_find; simpl; [tauto | auto].
Qed.

(** The table after a run: every entry went through the renamings of
    the illegal imports, one after the other. *)
Lemma phases_table m self1 m1 exs m2 self3 m3 m' :
  phases m self1 m1 exs m2 self3 m3 m' ->
  table m'
  = map (renameSegment
           (fun n =>
              fold_left (fun n' k => retarget k (legalfunc k) n')
                (map fn_name (illegalImports m)) n))
        (table m).
Proof.
  intros Hph.
  pose proof (phases_fold Hph) as Hfold.
  destruct Hph as (H1 & H2 & _ & ->).
  destruct (before_imports _ H1 H2) as (_ & Et & Etb & _).
  assert (Hall : Forall (fun x => illegalImport (set_exports m2 exs) x = true)
                   (illegalImports m)).
  { eapply Forall_impl; [| apply illegalImports_all]. intros f Hf.
    rewrite <- Hf. apply illegalImport_ext. simpl. exact Et. }
  pose proof (@fold_importStepOf_table _ _ (self1, set_exports m2 exs) Hall) as E.
  rewrite <- Hfold in E. simpl in E.
  rewrite (proj2 (proj2 (proj2 (finish_fields self3 m3)))), E, Etb.
  apply fold_retargetSegments.
Qed.

(* ===================================================================== *)
(** * Imports are found under their names *)
(* ===================================================================== *)

Lemma findNamed_app n fs gs :
  findNamed n (fs ++ gs)
  = match findNamed n fs with Some f => Some f | None => findNamed n gs end.
Proof. apply find_app. Qed.

Lemma findNamed_None n fs :
  findNamed n fs = None <-> ~ In n (map fn_name fs).
Proof.
  unfold findNamed. split.
  - intros H Hin. apply in_map_iff in Hin as (f & Hn & Hin).
    apply (find_none _ _ H) in Hin. apply String.eqb_neq in Hin. auto.
  - intros H. destruct (find _ _) as [f |] eqn:E; [| reflexivity].
    apply find_some in E as [E1 E2]. apply String.eqb_eq in E2.
    exfalso. apply H. apply in_map_iff. eauto.
Qed.

Lemma findNamed_Some n fs f :
  findNamed n fs = Some f -> In f fs /\ fn_name f = n.
Proof.
  unfold findNamed. intros H. apply find_some in H as [H1 H2].
  apply String.eqb_eq in H2. auto.
Qed.

Lemma importsFirst_found fs :
  importsFirst fs ->
  forall x, In x fs -> imported x = true -> findNamed (fn_name x) fs = Some x.
Proof.
  induction 1 as [| fs f _ IH Hf]; intros x Hin Himp; [destruct Hin |].
  rewrite findNamed_app. apply in_app_iff in Hin as [Hin | [<- | []]].
  - rewrite (IH x Hin Himp). reflexivity.
  - apply Hf in Himp. apply findNamed_None in Himp. rewrite Himp.
    unfold findNamed. simpl. rewrite String.eqb_refl. reflexivity.
Qed.

Lemma importsFirst_NoDup fs : NoDup (map fn_name fs) -> importsFirst fs.
Proof.
  induction fs as [| f fs IH] using rev_ind; intros H; [constructor |].
  rewrite map_app in H. simpl in H.
  apply NoDup_remove in H as [H1 H2]. rewrite app_nil_r in *.
  constructor; auto.
Qed.

Lemma importsFirst_app fs gs :
  importsFirst fs -> Forall (fun g => imported g = false) gs ->
  importsFirst (fs ++ gs).
Proof.
  intros Hfs. induction gs as [| g gs IH] using rev_ind; intros Hall.
  - rewrite app_nil_r. exact Hfs.
  - apply Forall_app in Hall as [Hgs Hg]. inversion Hg; subst.
    rewrite app_assoc. constructor; [auto |]. congruence.
Qed.

(** ** Removing the first function of a name *)

Lemma removeFirst_app k fs gs :
  removeFirst k (fs ++ gs)
  = match findNamed k fs with
    | Some _ => removeFirst k fs ++ gs
    | None => fs ++ removeFirst k gs
    end.
Proof.
  unfold findNamed. induction fs as [| f fs IH]; simpl; [reflexivity |].
  destruct (String.eqb (fn_name f) k); [reflexivity |].
  rewrite IH. destruct (find _ fs); reflexivity.
Qed.

Lemma removeFirst_In k fs f : In f (removeFirst k fs) -> In f fs.
Proof.
  induction fs as [| g fs IH]; simpl; [tauto |].
  destruct (String.eqb (fn_name g) k); simpl; intuition.
Qed.

Lemma removeFirst_keeps k fs f :
  In f fs -> fn_name f <> k -> In f (removeFirst k fs).
Proof.
  induction fs as [| g fs IH]; simpl; [tauto |].
  intros [-> | Hin] Hne.
  - apply String.eqb_neq in Hne. rewrite Hne. left. reflexivity.
  - destruct (String.eqb (fn_name g) k); [assumption |].
    right. auto.
Qed.

Lemma removeFirst_findNamed k fs n :
  n <> k -> findNamed n (removeFirst k fs) = findNamed n fs.
Proof.
  unfold findNamed. intros Hne.
  induction fs as [| g fs IH]; simpl; [reflexivity |].
  destruct (String.eqb (fn_name g) k) eqn:Ek; simpl.
  - apply String.eqb_eq in Ek.
    destruct (String.eqb (fn_name g) n) eqn:En; [| reflexivity].
    apply String.eqb_eq in En. congruence.
  - rewrite IH. reflexivity.
Qed.

Lemma removeFirst_names k fs n :
  In n (map fn_name (removeFirst k fs)) -> In n (map fn_name fs).
Proof.
  intros H. apply in_map_iff in H as (f & <- & Hin).
  apply in_map. apply (removeFirst_In _ _ _ Hin).
Qed.

Lemma importsFirst_removeFirst k fs :
  importsFirst fs ->
  importsFirst (removeFirst k fs)
  /\ forall f, In f (removeFirst k fs) -> imported f = true -> fn_name f <> k.
Proof.
  induction 1 as [| fs f Hfs [IH1 IH2] Hf].
  - split; [constructor | intros f []].
  - rewrite removeFirst_app.
    destruct (findNamed k fs) as [g |] eqn:Eg.
    + apply findNamed_Some in Eg as [Hg Hgn]. split.
      * constructor; [assumption |].
        intros Himp Hin. apply (Hf Himp).
        apply (removeFirst_names _ _ _ Hin).
      * intros f' Hin Himp. apply in_app_iff in Hin as [Hin | [<- | []]].
        -- auto.
        -- intros Hk. apply (Hf Himp). rewrite Hk, <- Hgn.
           apply in_map, Hg.
    + apply findNamed_None in Eg. simpl.
      destruct (String.eqb (fn_name f) k) eqn:Ek.
      * rewrite app_nil_r. split; [assumption |].
        intros f' Hin _ Hk. apply Eg. rewrite <- Hk. apply in_map, Hin.
      * split; [constructor; assumption |].
        intros f' Hin _ Hk. apply in_app_iff in Hin as [Hin | [<- | []]].
        -- apply Eg. rewrite <- Hk. apply in_map, Hin.
        -- rewrite Hk, String.eqb_refl in Ek. discriminate.
Qed.

(** ** Removing the functions of all keys *)

Lemma removeAll_In names :
  forall fs f, In f (removeAll names fs) -> In f fs.
Proof.
  unfold removeAll. induction names as [| k names IH]; intros fs f; simpl;
    [tauto |].
  intros H. apply IH in H. apply (removeFirst_In _ _ _ H).
Qed.

Lemma removeAll_keeps names :
  forall fs f, In f fs -> ~ In (fn_name f) names -> In f (removeAll names fs).
Proof.
  unfold removeAll. induction names as [| k names IH]; intros fs f Hin Hn;
    simpl; [assumption |].
  apply IH.
  - apply removeFirst_keeps; [assumption |]. intros E. apply Hn. left. auto.
  - intros E. apply Hn. right. assumption.
Qed.

Lemma removeAll_findNamed names :
  forall fs n, ~ In n names -> findNamed n (removeAll names fs) = findNamed n fs.
Proof.
  unfold removeAll. induction names as [| k names IH]; intros fs n Hn; simpl;
    [reflexivity |].
  rewrite IH by (intros E; apply Hn; right; assumption).
  apply removeFirst_findNamed. intros E. apply Hn. left. auto.
Qed.

Lemma importsFirst_removeAll names :
  forall fs,
    importsFirst fs ->
    importsFirst (removeAll names fs)
    /\ forall f,
         In f (removeAll names fs) -> imported f = true ->
         ~ In (fn_name f) names.
Proof.
  unfold removeAll. induction names as [| k names IH]; intros fs Hfs; simpl.
  - split; [assumption | intros f _ _ []].
  - destruct (importsFirst_removeFirst k Hfs) as [H1 H2].
    destruct (IH _ H1) as [H3 H4]. split; [assumption |].
    intros f Hin Himp [E | E].
    + apply (H2 f); auto. apply (removeAll_In _ _ _ Hin).
    + apply (H4 f); auto.
Qed.

Lemma removeFirst_comm a b fs :
  removeFirst a (removeFirst b fs) = removeFirst b (removeFirst a fs).
Proof.
  induction fs as [| f fs IH]; simpl; [reflexivity |].
  destruct (String.eqb (fn_name f) b) eqn:Eb,
    (String.eqb (fn_name f) a) eqn:Ea; simpl;
    rewrite ?Ea, ?Eb; try reflexivity.
  - apply String.eqb_eq in Ea, Eb. congruence.
  - rewrite IH. reflexivity.
Qed.

(** In whatever order the keys are walked, the same functions are left. *)
Lemma removeAll_order names names' fs :
  Permutation names names' -> removeAll names fs = removeAll names' fs.
Proof.
  intros H. revert fs.
  induction H as [| k l l' _ IH | a b l | l l' l'' _ IH1 _ IH2]; intros fs.
  - reflexivity.
  - unfold removeAll in *. simpl. apply IH.
  - unfold removeAll. simpl. rewrite removeFirst_comm. reflexivity.
  - rewrite IH1. apply IH2.
Qed.

Lemma removeFunctions_functions names :
  forall m,
    functions (removeFunctions names m) = removeAll names (functions m).
Proof.
  unfold removeFunctions, removeAll.
  induction names as [| k names IH]; intros m; simpl; [reflexivity |].
  rewrite IH. reflexivity.
Qed.

(* ===================================================================== *)
(** * The last phase and the functions *)
(* ===================================================================== *)

Lemma sameButBody_refl f : sameButBody f f.
Proof. unfold sameButBody. auto 8. Qed.

Lemma walkFunction_same visit f : sameButBody f (walkFunction visit f).
Proof. unfold sameButBody, walkFunction, set_body. simpl. auto 8. Qed.

Lemma sameButBody_imported f f' : sameButBody f f' -> imported f' = imported f.
Proof.
  intros (_ & _ & _ & _ & _ & Hm & _). unfold imported. rewrite Hm.
  reflexivity.
Qed.

Lemma sameButBody_isIllegal f f' :
  sameButBody f f' -> isIllegal f' = isIllegal f.
Proof.
  intros (_ & Hp & Hr & _). unfold isIllegal. simpl. rewrite Hp, Hr.
  reflexivity.
Qed.

Lemma sameButBody_typeOf m f f' : sameButBody f f' -> typeOf m f' = typeOf m f.
Proof.
  intros (_ & _ & _ & _ & Ht & _). unfold typeOf. rewrite Ht. reflexivity.
Qed.

Lemma findNamed_map g n fs :
  (forall f, fn_name (g f) = fn_name f) ->
  findNamed n (map g fs) = option_map g (findNamed n fs).
Proof.
  intros Hg. unfold findNamed.
  induction fs as [| f fs IH]; simpl; [reflexivity |].
  rewrite Hg. destruct (String.eqb (fn_name f) n); [reflexivity | exact IH].
Qed.

Lemma removeFunctions_order names names' m :
  Permutation names names' ->
  removeFunctions names m = removeFunctions names' m.
Proof.
  intros H.
  assert (E : forall ks, removeFunctions ks m
                         = set_functions m (removeAll ks (functions m))).
  { intros ks. rewrite <- removeFunctions_functions.
    destruct (removeFunctions_fields ks m) as (H1 & H2 & H3 & H4).
    destruct (removeFunctions ks m); simpl in *. unfold set_functions.
    congruence. }
  rewrite !E, (removeAll_order (functions m) H). reflexivity.
Qed.

(** The functions after the last phase: those of the illegal imports
    are gone, the others are as they were but for their bodies. *)
Lemma finish_functions self m :
  exists g,
    (forall f, sameButBody f (g f))
    /\ functions (finish self m)
       = map g (removeAll (map_keys (illegalImportsToLegal self))
                  (functions m)).
Proof.
  unfold finish.
  destruct (illegalImportsToLegal self) as [| p mp] eqn:E.
  - exists (fun f => f). split; [apply sameButBody_refl |].
    simpl. rewrite map_id. reflexivity.
  - exists (walkFunction (visitCall (p :: mp))).
    split; [intros f; apply walkFunction_same |].
    simpl. rewrite removeFunctions_functions. reflexivity.
Qed.

(* ===================================================================== *)
(** * The functions after the import loop *)
(* ===================================================================== *)

Lemma fold_importStepOf_ind m0
  (P : LegalizeJSInterface * Module -> Prop) xs :
  Forall (fun x => illegalImport m0 x = true) xs ->
  (forall acc x t,
      In x xs -> typeOf m0 x = Some t -> isIllegal t = true ->
      imported x = true -> P acc ->
      P (set_map (fst acc)
           (map_set (fn_name x) (legalfunc (fn_name x))
              (illegalImportsToLegal (fst acc))),
         importStep (fst acc) x t (snd acc))) ->
  forall acc, P acc -> P (fold_left (importStepOf m0) xs acc).
Proof.
  induction xs as [| x xs IH]; intros Hall Hstep acc Hacc; simpl;
    [assumption |].
  inversion Hall as [| ? ? Hx Hxs]; subst.
  apply IH; [assumption | |].
  - intros acc' x' t' Hin. apply Hstep. right. assumption.
  - destruct (@importStepOf_illegal m0 acc x Hx) as (t & Ht & Hi & Himp & ->).
    apply Hstep; auto. left. reflexivity.
Qed.

Lemma addFunctionIfAbsent_functions m f :
  functions (addFunctionIfAbsent m f) = functions m
  /\ getFunctionOrNull m (fn_name f) <> None
  \/ functions (addFunctionIfAbsent m f) = functions m ++ [f]
     /\ getFunctionOrNull m (fn_name f) = None.
Proof.
  unfold addFunctionIfAbsent.
  destruct (getFunctionOrNull m (fn_name f)) eqn:E.
  - left. split; [reflexivity | discriminate].
  - right. auto.
Qed.

Lemma getFunctionOrNull_findNamed m n :
  getFunctionOrNull m n = findNamed n (functions m).
Proof. reflexivity. Qed.

Lemma addFunctionIfAbsent_found m f :
  exists g,
    getFunctionOrNull (addFunctionIfAbsent m f) (fn_name f) = Some g
    /\ (g = f \/ In g (functions m)).
Proof.
  unfold addFunctionIfAbsent.
  destruct (getFunctionOrNull m (fn_name f)) as [g |] eqn:E.
  - exists g. split; [assumption |]. right.
    apply (getFunctionOrNull_In _ _ E).
  - exists f. split; [| left; reflexivity].
    rewrite getFunctionOrNull_addFunction, E, String.eqb_refl. reflexivity.
Qed.

Lemma importsFirst_addFunctionIfAbsent m f :
  importsFirst (functions m) ->
  importsFirst (functions (addFunctionIfAbsent m f)).
Proof.
  intros H.
  destruct (addFunctionIfAbsent_functions m f) as [[-> _] | [-> Hn]];
    [assumption |].
  constructor; [assumption |]. intros _.
  apply getFunctionOrNull_None in Hn. exact Hn.
Qed.

(** The functions a step appends. *)
Lemma importStep_functions self im t m :
  exists new,
    functions (importStep self im t m) = functions m ++ new
    /\ Forall (fun h => h = importStubOf self im t
                        \/ h = legalImportOf self im t) new.
Proof.
  unfold importStep. simpl functions.
  set (m1 := addFunctionIfAbsent m (importStubOf self im t)).
  set (m2 := addFunctionTypeIfAbsent m1 (legalTypeOf self im t)).
  assert (E2 : functions m2 = functions m1)
    by apply addFunctionTypeIfAbsent_fields.
  destruct (addFunctionIfAbsent_functions m (importStubOf self im t))
    as [[E1 _] | [E1 _]];
    destruct (addFunctionIfAbsent_functions m2 (legalImportOf self im t))
      as [[E3 _] | [E3 _]];
    rewrite E3, E2; fold m1; unfold m1 at 1; rewrite E1.
  - exists []. rewrite app_nil_r. auto.
  - exists [legalImportOf self im t]. auto.
  - exists [importStubOf self im t]. auto.
  - exists [importStubOf self im t; legalImportOf self im t].
    rewrite <- app_assoc. auto.
Qed.

Lemma importsFirst_importStep self im t m :
  importsFirst (functions m) ->
  importsFirst (functions (importStep self im t m)).
Proof.
  intros H. unfold importStep. simpl functions.
  apply importsFirst_addFunctionIfAbsent.
  rewrite (proj1 (addFunctionTypeIfAbsent_fields _ _)).
  apply importsFirst_addFunctionIfAbsent, H.
Qed.

Lemma fold_importStepOf_importsFirst m0 xs acc :
  Forall (fun x => illegalImport m0 x = true) xs ->
  importsFirst (functions (snd acc)) ->
  importsFirst (functions (snd (fold_left (importStepOf m0) xs acc))).
Proof.
  intros Hall.
  apply (@fold_importStepOf_ind m0
           (fun acc => importsFirst (functions (snd acc))) xs Hall).
  intros acc' x t _ _ _ _ H. simpl. apply importsFirst_importStep, H.
Qed.

Lemma fold_importStepOf_functions m0 xs acc :
  Forall (fun x => illegalImport m0 x = true) xs ->
  exists added,
    functions (snd (fold_left (importStepOf m0) xs acc))
    = functions (snd acc) ++ added
    /\ Forall (lateFunction xs) added.
Proof.
  intros Hall.
  apply (@fold_importStepOf_ind m0
           (fun acc' =>
              exists added,
                functions (snd acc') = functions (snd acc) ++ added
                /\ Forall (lateFunction xs) added) xs Hall).
  - intros acc' x t Hin _ _ _ (added & E & Hl). cbn [snd fst].
    destruct (importStep_functions (fst acc') x t (snd acc'))
      as (new & En & Hn).
    exists (added ++ new). rewrite En, E, <- app_assoc.
    split; [reflexivity |].
    apply Forall_app. split; [assumption |].
    eapply Forall_impl; [| exact Hn].
    intros h [-> | ->].
    + left. apply importStubOf_not_imported.
    + right. eauto.
  - exists []. rewrite app_nil_r. auto.
Qed.

(** Everything the loop leaves alone. *)
Lemma fold_importStepOf_fields m0 xs acc :
  Forall (fun x => illegalImport m0 x = true) xs ->
  exports (snd (fold_left (importStepOf m0) xs acc)) = exports (snd acc)
  /\ globals (snd (fold_left (importStepOf m0) xs acc)) = globals (snd acc)
  /\ getTempRet0 (fst (fold_left (importStepOf m0) xs acc))
     = getTempRet0 (fst acc)
  /\ setTempRet0 (fst (fold_left (importStepOf m0) xs acc))
     = setTempRet0 (fst acc)
  /\ hasGlobal (fst (fold_left (importStepOf m0) xs acc))
     = hasGlobal (fst acc).
Proof.
  intros Hall.
  apply (@fold_importStepOf_ind m0
           (fun acc' =>
              exports (snd acc') = exports (snd acc)
              /\ globals (snd acc') = globals (snd acc)
              /\ getTempRet0 (fst acc') = getTempRet0 (fst acc)
              /\ setTempRet0 (fst acc') = setTempRet0 (fst acc)
              /\ hasGlobal (fst acc') = hasGlobal (fst acc)) xs Hall).
  - intros acc' x t _ _ _ _ (He & Hg & H1 & H2 & H3). cbn [snd fst].
    destruct (importStep_fields (fst acc') x t (snd acc')) as (-> & -> & _).
    auto.
  - auto.
Qed.

Lemma fold_importStepOf_types m0 xs acc :
  Forall (fun x => illegalImport m0 x = true) xs ->
  typesExtend (snd acc) (snd (fold_left (importStepOf m0) xs acc)).
Proof.
  intros Hall.
  apply (@fold_importStepOf_ind m0
           (fun acc' => typesExtend (snd acc) (snd acc')) xs Hall).
  - intros acc' x t _ _ _ _ H. cbn [snd fst].
    apply typesExtend_importStep, H.
  - apply typesExtend_refl.
Qed.

(* ===================================================================== *)
(** * The functions of a run, phase by phase *)
(* ===================================================================== *)

Lemma isIllegal_same_signature (f : Function) (t : FunctionType) :
  ft_params t = fn_params f -> ft_result t = fn_result f ->
  isIllegal f = isIllegal t.
Proof. intros Hp Hr. unfold isIllegal. simpl. rewrite Hp, Hr. reflexivity. Qed.

Lemma phases_all m self1 m1 exs m2 self3 m3 m' :
  phases m self1 m1 exs m2 self3 m3 m' ->
  (exists extra,
      functions m2 = functions m ++ extra
      /\ Forall (earlyFunction self1) extra)
  /\ (exists added,
         functions m3 = functions m2 ++ added
         /\ Forall (lateFunction (illegalImports m)) added)
  /\ (exists g,
         (forall f, sameButBody f (g f))
         /\ functions m'
            = map g (removeAll (map_keys (illegalImportsToLegal self3))
                       (functions m3)))
  /\ exports m' = exs
  /\ functionTypes m' = functionTypes m3
  /\ typesExtend m m3
  /\ globals m' = globals m1
  /\ (uniqueFunctionNames m -> importsFirst (functions m3)).
Proof.
  intros Hph.
  pose proof (phases_fold Hph) as Hfold.
  destruct Hph as (H1 & H2 & H3 & ->).
  destruct (before_imports _ H1 H2) as (_ & Et & _ & extra & Ef & Hearly).
  assert (Hall : Forall (fun x => illegalImport (set_exports m2 exs) x = true)
                   (illegalImports m)).
  { eapply Forall_impl; [| apply illegalImports_all]. intros f Hf.
    rewrite <- Hf. apply illegalImport_ext. simpl. exact Et. }
  set (acc := (self1, set_exports m2 exs)) in *.
  assert (E3 : m3 = snd (fold_left (importStepOf (set_exports m2 exs))
                            (illegalImports m) acc))
    by (rewrite <- Hfold; reflexivity).
  split; [eauto |]. split; [| split; [| split; [| split; [| split;
    [| split]]]]].
  - rewrite E3. apply (@fold_importStepOf_functions _ _ acc Hall).
  - apply finish_functions.
  - rewrite (proj1 (proj2 (finish_fields self3 m3))), E3.
    rewrite (proj1 (@fold_importStepOf_fields _ _ acc Hall)). reflexivity.
  - apply finish_fields.
  - pose proof (@fold_importStepOf_types _ _ acc Hall) as (addedT & E & Hl).
    rewrite <- E3 in E. simpl in E. rewrite Et in E. exists addedT. auto.
  - rewrite (proj1 (proj2 (proj2 (finish_fields self3 m3)))), E3.
    rewrite (proj1 (proj2 (@fold_importStepOf_fields _ _ acc Hall))).
    simpl.
    apply legalizeExports_extends in H2 as (_ & _ & _ & _ & _ & Eg & _).
    exact Eg.
  - intros Huniq. rewrite E3.
    apply (@fold_importStepOf_importsFirst _ _ acc Hall).
    simpl. rewrite Ef. apply importsFirst_app.
    + apply importsFirst_NoDup, Huniq.
    + eapply Forall_impl; [| exact Hearly].
      intros f Hf. apply (earlyFunction_not_imported Hf).
Qed.

(** ** Exports name legal functions after the export loop *)

Lemma stubNamesLegal_app m m' extra :
  stubNamesLegal m ->
  functions m' = functions m ++ extra ->
  Forall (fun f => isIllegal f = false) extra ->
  stubNamesLegal m'.
Proof.
  intros H E Hall f n Hin Hn. rewrite E in Hin.
  apply in_app_iff in Hin as [Hin | Hin]; [eauto |].
  rewrite Forall_forall in Hall. auto.
Qed.

Lemma stubNamesLegal_makeLegalStub self func m :
  stubNamesLegal m -> stubNamesLegal (snd (makeLegalStub self func m)).
Proof.
  intros H.
  destruct (makeLegalStub_functions self func m) as [[-> _] | [-> _]];
    [assumption |].
  apply (@stubNamesLegal_app m _ [legalStubFor self func] H); [reflexivity |].
  constructor; [apply legalStubFor_legal | constructor].
Qed.

Lemma legalizeExports_targets self exs :
  forall m exs' m',
    stubNamesLegal m ->
    legalizeExports self exs m = Done (exs', m') ->
    forall ex',
      In ex' exs' -> isFunctionKind (ex_kind ex') = true ->
      exists f,
        getFunctionOrNull m' (ex_value ex') = Some f /\ isIllegal f = false.
Proof.
  induction exs as [| ex rest IH]; intros m exs' m' HL H ex' Hin Hk.
  - inversion H; subst. destruct Hin.
  - apply legalizeExports_cons in H
      as (ex1 & m1 & rest' & -> & Hr & Hstep).
    destruct Hin as [<- | Hin].
    + destruct Hstep as [(_ & func & Hf & Hi & -> & ->)
                        | [(_ & func & Hf & Hi & -> & ->)
                          | (Hk' & -> & ->)]].
      * pose proof (makeLegalStub_found self func m) as Hfound.
        destruct (getFunctionOrNull (snd (makeLegalStub self func m))
                    (legalstub (fn_name func))) as [g |] eqn:Eg;
          [| contradiction].
        exists g. split; [apply (legalizeExports_keeps _ _ _ _ Hr Eg) |].
        apply getFunctionOrNull_In in Eg as [Hg Hgn].
        eapply stubNamesLegal_makeLegalStub; eassumption.
      * exists func. split; [| assumption].
        apply (legalizeExports_keeps _ _ _ _ Hr Hf).
      * congruence.
    + apply (IH m1 rest' m'); auto.
      destruct Hstep as [(_ & func & _ & _ & -> & _)
                        | [(_ & func & _ & _ & -> & _) | (_ & -> & _)]];
        try assumption.
      apply stubNamesLegal_makeLegalStub, HL.
Qed.

Lemma stubNamesLegal_channel self m self1 m1 :
  stubNamesLegal m ->
  ensureTempRet0Helpers self m = Done (self1, m1) ->
  stubNamesLegal m1.
Proof.
  intros H H1. apply ensureTempRet0Helpers_Done in H1 as [_ [-> | ->]];
    [assumption |].
  apply (@stubNamesLegal_app m _ [getter; setter] H); [reflexivity |].
  repeat constructor.
Qed.

(* ===================================================================== *)
(** * Exports and imports after a run *)
(* ===================================================================== *)

Lemma illegalImportName_intro m f :
  In f (functions m) -> illegalImport m f = true ->
  illegalImportName m (fn_name f) = true.
Proof.
  intros Hin Hi. apply illegalImportName_In. apply in_map.
  apply filter_In. auto.
Qed.

Lemma illegalImportName_elim m n :
  illegalImportName m n = true ->
  exists x, In x (functions m) /\ fn_name x = n /\ illegalImport m x = true.
Proof.
  intros H. apply illegalImportName_In in H.
  apply in_map_iff in H as (x & Hn & Hin). apply filter_In in Hin as [H1 H2].
  eauto.
Qed.

Lemma illegalImport_valid m x :
  validImports m -> In x (functions m) -> illegalImport m x = true ->
  isIllegal x = true.
Proof.
  intros Hv Hin Hi. unfold illegalImport in Hi.
  apply andb_true_iff in Hi as [Himp Hi].
  destruct (Hv x Hin Himp) as (t & Ht & Hp & Hr).
  rewrite Ht in Hi. rewrite (isIllegal_same_signature x t Hp Hr). exact Hi.
Qed.

Lemma legalImport_valid m x :
  validImports m -> In x (functions m) -> imported x = true ->
  illegalImport m x = false ->
  exists t, typeOf m x = Some t /\ isIllegal t = false /\ isIllegal x = false.
Proof.
  intros Hv Hin Himp Hi. unfold illegalImport in Hi. rewrite Himp in Hi.
  destruct (Hv x Hin Himp) as (t & Ht & Hp & Hr).
  rewrite Ht in Hi. simpl in Hi. exists t.
  rewrite (isIllegal_same_signature x t Hp Hr). auto.
Qed.

(** Every import left after a run is an import of the original module
    that was not illegal, or a legal import the loop made. *)
Lemma phases_imports m self1 m1 exs m2 self3 m3 m' :
  phases m self1 m1 exs m2 self3 m3 m' ->
  uniqueFunctionNames m ->
  forall f',
    In f' (functions m') -> imported f' = true ->
    exists f,
      sameButBody f f' /\ In f (functions m3)
      /\ ((In f (functions m) /\ illegalImport m f = false)
          \/ exists s x t, In x (illegalImports m) /\ f = legalImportOf s x t).
Proof.
  intros Hph Huniq f' Hin Himp.
  destruct (phases_all Hph)
    as ((extra & Ef & Hearly) & (added & Ea & Hlate) & (g & Hg & Eg)
        & _ & _ & _ & _ & Hfirst).
  specialize (Hfirst Huniq).
  rewrite Eg in Hin. apply in_map_iff in Hin as (f & <- & Hin).
  rewrite (sameButBody_imported (Hg f)) in Himp.
  destruct (importsFirst_removeAll
              (map_keys (illegalImportsToLegal self3)) Hfirst) as [_ Hkeys].
  specialize (Hkeys f Hin Himp).
  apply removeAll_In in Hin.
  exists f. split; [apply Hg |]. split; [assumption |].
  rewrite Ea, Ef in Hin.
  apply in_app_iff in Hin as [Hin | Hin];
    [apply in_app_iff in Hin as [Hin | Hin] |].
  - left. split; [assumption |].
    destruct (illegalImport m f) eqn:Ei; [| reflexivity].
    exfalso. apply Hkeys. apply (phases_map Hph).
    apply illegalImportName_intro; assumption.
  - rewrite Forall_forall in Hearly.
    rewrite (earlyFunction_not_imported (Hearly f Hin)) in Himp.
    discriminate.
  - rewrite Forall_forall in Hlate.
    destruct (Hlate f Hin) as [Hn | H]; [congruence | right; exact H].
Qed.

(** Every function export left after a run names a legal function. *)
Lemma phases_exports m self1 m1 exs m2 self3 m3 m' :
  phases m self1 m1 exs m2 self3 m3 m' ->
  uniqueFunctionNames m -> validImports m -> stubNamesLegal m ->
  forall ex,
    In ex (exports m') -> isFunctionKind (ex_kind ex) = true ->
    exists f,
      getFunctionOrNull m' (ex_value ex) = Some f /\ isIllegal f = false.
Proof.
  intros Hph Huniq Hvalid Hstubs ex Hin Hk.
  destruct (phases_all Hph)
    as ((extra & Ef & Hearly) & (added & Ea & Hlate) & (g & Hg & Eg)
        & Eex & _ & _ & _ & Hfirst).
  specialize (Hfirst Huniq).
  pose proof Hph as (H1 & H2 & _ & _).
  rewrite Eex in Hin.
  assert (Hstubs1 : stubNamesLegal m1)
    by (eapply stubNamesLegal_channel; eassumption).
  destruct (@legalizeExports_targets self1 (exports m1) m1 exs m2 Hstubs1
              H2 ex Hin Hk) as (f & Hf & Hleg).
  assert (Hf3 : findNamed (ex_value ex) (functions m3) = Some f).
  { rewrite Ea, findNamed_app.
    rewrite getFunctionOrNull_findNamed in Hf. rewrite Hf. reflexivity. }
  assert (Hkey : ~ In (ex_value ex) (map_keys (illegalImportsToLegal self3))).
  { intros Hkey. apply (phases_map Hph) in Hkey.
    apply illegalImportName_elim in Hkey as (x & Hx & Hxn & Hxi).
    assert (Hx3 : In x (functions m3)).
    { rewrite Ea, Ef. apply in_app_iff. left. apply in_app_iff. left.
      exact Hx. }
    assert (Himp : imported x = true).
    { unfold illegalImport in Hxi. apply andb_true_iff in Hxi. tauto. }
    pose proof (importsFirst_found Hfirst x Hx3 Himp) as Hfound.
    rewrite Hxn, Hf3 in Hfound. injection Hfound as ->.
    rewrite (@illegalImport_valid m x Hvalid Hx Hxi) in Hleg. discriminate. }
  exists (g f). split.
  - rewrite getFunctionOrNull_findNamed, Eg.
    rewrite findNamed_map by (intros f0; apply (Hg f0)).
    rewrite removeAll_findNamed by exact Hkey.
    rewrite Hf3. reflexivity.
  - rewrite (sameButBody_isIllegal (Hg f)). exact Hleg.
Qed.

(* ===================================================================== *)
(** * Derived names *)
(* ===================================================================== *)

Lemma legalimport_inj a b : legalimport a = legalimport b -> a = b.
Proof. unfold legalimport. simpl. intros H. inversion H. reflexivity. Qed.

Lemma legalfunc_not_legalimport a b : legalfunc a <> legalimport b.
Proof. unfold legalfunc, legalimport. simpl. intros H. inversion H. Qed.

Lemma legalstub_not_legalimport a b : legalstub a <> legalimport b.
Proof. unfold legalstub, legalimport. simpl. intros H. inversion H. Qed.

Lemma earlyFunction_not_legalimport self f b :
  earlyFunction self f -> fn_name f <> legalimport b.
Proof.
  intros [-> | [-> | (func & ->)]].
  - unfold legalimport. simpl. intros H. inversion H.
  - unfold legalimport. simpl. intros H. inversion H.
  - rewrite legalStubFor_name. apply legalstub_not_legalimport.
Qed.

(* ===================================================================== *)
(** * What the import loop leaves behind for each illegal import *)
(* ===================================================================== *)

Lemma findNamed_extends n fs gs f :
  findNamed n fs = Some f -> findNamed n (fs ++ gs) = Some f.
Proof. intros H. rewrite findNamed_app, H. reflexivity. Qed.

Lemma importStep_keeps_function self im t m n :
  getFunctionOrNull m n <> None ->
  getFunctionOrNull (importStep self im t m) n <> None.
Proof.
  rewrite !getFunctionOrNull_findNamed.
  destruct (importStep_functions self im t m) as (new & -> & _).
  destruct (findNamed n (functions m)) as [f |] eqn:E; [| congruence].
  rewrite (@findNamed_extends n (functions m) new f E). discriminate.
Qed.

Lemma importStep_keeps_type self im t m n :
  getFunctionTypeOrNull m n <> None ->
  getFunctionTypeOrNull (importStep self im t m) n <> None.
Proof.
  destruct (getFunctionTypeOrNull m n) as [t0 |] eqn:E; [| congruence].
  intros _.
  rewrite (typesExtend_found n
             (typesExtend_importStep self im t (typesExtend_refl m)) E).
  discriminate.
Qed.

Lemma importStep_makes_import self im t m :
  getFunctionOrNull (importStep self im t m) (legalimport (fn_name im))
  <> None.
Proof.
  unfold importStep.
  destruct (legalImportFor_names self im t) as (_ & Hn & _).
  match goal with
  | |- getFunctionOrNull (set_table ?m3 _) _ <> None =>
      change (getFunctionOrNull m3 (legalimport (fn_name im)) <> None)
  end.
  rewrite <- Hn.
  match goal with
  | |- getFunctionOrNull (addFunctionIfAbsent ?m2 ?f) _ <> None =>
      destruct (addFunctionIfAbsent_found m2 f) as (g & -> & _)
  end.
  discriminate.
Qed.

Lemma importStep_makes_type self im t m :
  getFunctionTypeOrNull (importStep self im t m) (legaltype (fn_name im))
  <> None.
Proof.
  unfold importStep.
  destruct (legalImportFor_names self im t) as (Hn & _ & _).
  match goal with
  | |- getFunctionTypeOrNull (set_table ?m3 _) _ <> None =>
      change (getFunctionTypeOrNull m3 (legaltype (fn_name im)) <> None)
  end.
  unfold getFunctionTypeOrNull.
  rewrite (proj1 (addFunctionIfAbsent_fields _ _)).
  unfold addFunctionTypeIfAbsent. rewrite Hn.
  match goal with
  | |- context [getFunctionTypeOrNull ?m1 ?n] =>
      destruct (getFunctionTypeOrNull m1 n) eqn:E
  end.
  - unfold getFunctionTypeOrNull in E. rewrite E. discriminate.
  - simpl. rewrite find_app. unfold getFunctionTypeOrNull in E. rewrite E.
    simpl. rewrite Hn, String.eqb_refl. discriminate.
Qed.

Lemma importStep_makes_stub self im t m :
  getFunctionOrNull (importStep self im t m) (legalfunc (fn_name im))
  <> None.
Proof.
  destruct (legalImportFor_names self im t) as (_ & _ & Hn).
  unfold importStep.
  match goal with
  | |- getFunctionOrNull (set_table ?m3 _) ?n <> None =>
      change (findNamed n (functions m3) <> None)
  end.
  set (m1 := addFunctionIfAbsent m (importStubOf self im t)).
  set (m2 := addFunctionTypeIfAbsent m1 (legalTypeOf self im t)).
  destruct (addFunctionIfAbsent_found m (importStubOf self im t))
    as (g & Hg & _).
  fold m1 in Hg. rewrite Hn, getFunctionOrNull_findNamed in Hg.
  assert (E2 : functions m2 = functions m1)
    by apply addFunctionTypeIfAbsent_fields.
  destruct (addFunctionIfAbsent_functions m2 (legalImportOf self im t))
    as [[E3 _] | [E3 _]]; rewrite E3, E2.
  - rewrite Hg. discriminate.
  - rewrite (@findNamed_extends _ _ [legalImportOf self im t] g Hg).
    discriminate.
Qed.

(** A property a step establishes for its import and no step destroys
    holds of every import the loop went through. *)
Lemma fold_importStepOf_each m0 (R : Function -> Module -> Prop) :
  (forall s x t m, R x (importStep s x t m)) ->
  (forall s x y t m, R x m -> R x (importStep s y t m)) ->
  forall xs acc,
    Forall (fun x => illegalImport m0 x = true) xs ->
    forall x, In x xs -> R x (snd (fold_left (importStepOf m0) xs acc)).
Proof.
  intros Hmake Hkeep.
  induction xs as [| y xs IH]; intros acc Hall x Hin; [destruct Hin |].
  inversion Hall as [| ? ? Hy Hxs]; subst. simpl.
  destruct Hin as [<- | Hin]; [| apply IH; assumption].
  destruct (@importStepOf_illegal m0 acc y Hy) as (t & _ & _ & _ & ->).
  apply (@fold_importStepOf_ind m0 (fun acc' => R y (snd acc')) xs Hxs).
  - intros acc' x' t' _ _ _ _ H. cbn [snd fst]. apply Hkeep, H.
  - cbn [snd fst]. apply Hmake.
Qed.

Lemma fold_importStepOf_agree m0 xs acc :
  Forall (fun x => illegalImport m0 x = true) xs ->
  (forall x y, In x xs -> In y xs -> fn_name x = fn_name y -> x = y) ->
  importsAgree xs (functions (snd acc)) ->
  importsAgree xs (functions (snd (fold_left (importStepOf m0) xs acc))).
Proof.
  intros Hall Hinj.
  apply (@fold_importStepOf_ind m0
           (fun acc' => importsAgree xs (functions (snd acc'))) xs Hall).
  intros acc' y t Hy _ _ Himp H h x Hh Hx Hn. cbn [snd fst] in Hh.
  destruct (importStep_functions (fst acc') y t (snd acc'))
    as (new & En & Hnew).
  rewrite En in Hh. apply in_app_iff in Hh as [Hh | Hh]; [eauto |].
  rewrite Forall_forall in Hnew.
  destruct (legalImportFor_names (fst acc') y t) as (_ & Hn2 & Hn3).
  destruct (Hnew h Hh) as [-> | ->].
  - rewrite Hn3 in Hn. exfalso. apply (legalfunc_not_legalimport Hn).
  - rewrite Hn2 in Hn. apply legalimport_inj in Hn.
    assert (y = x) by (apply Hinj; assumption). subst y.
    destruct (legalImportOf_fields (fst acc') x t)
      as (Hm & Hb & _ & Hi & _).
    rewrite Hm, Hb, Hi. auto.
Qed.

(* ===================================================================== *)
(** * The channel after a run *)
(* ===================================================================== *)

Lemma optName_eqb_eq a b : optName_eqb a b = true <-> a = Some b.
Proof.
  unfold optName_eqb. destruct a as [a' |]; [| split; discriminate].
  rewrite String.eqb_eq. split; congruence.
Qed.

Lemma getImportedFunction_found m module_ base :
  getImportedFunction m module_ base <> None <->
  exists f,
    In f (functions m) /\ imported f = true
    /\ fn_module f = Some module_ /\ fn_base f = Some base.
Proof.
  unfold getImportedFunction, importedFunctions. split.
  - destruct (find _ _) as [f |] eqn:E; [| congruence]. intros _.
    apply find_some in E as [Hin H]. apply filter_In in Hin as [Hin Himp].
    apply andb_true_iff in H as [H1 H2].
    apply optName_eqb_eq in H1, H2. eauto.
  - intros (f & Hin & Himp & Hm & Hb) E.
    assert (Hf : In f (filter imported (functions m)))
      by (apply filter_In; auto).
    apply (find_none _ _ E) in Hf.
    rewrite Hm, Hb in Hf. simpl in Hf. rewrite !String.eqb_refl in Hf.
    discriminate.
Qed.

Lemma illegalImports_unique m :
  uniqueFunctionNames m ->
  forall x y,
    In x (illegalImports m) -> In y (illegalImports m) ->
    fn_name x = fn_name y -> x = y.
Proof.
  intros Huniq x y Hx Hy Hn.
  apply filter_In in Hx as [Hx Hxi], Hy as [Hy Hyi].
  unfold illegalImport in Hxi, Hyi.
  apply andb_true_iff in Hxi as [Hxi _], Hyi as [Hyi _].
  pose proof (@importsFirst_NoDup (functions m) Huniq) as Hfirst.
  pose proof (importsFirst_found Hfirst x Hx Hxi) as E1.
  pose proof (importsFirst_found Hfirst y Hy Hyi) as E2.
  rewrite Hn in E1. congruence.
Qed.

(** An import of the original module is still there after the run, or
    the legal import made for it is: something is imported from where
    it was imported from. *)
Lemma phases_import_kept m self1 m1 exs m2 self3 m3 m' :
  phases m self1 m1 exs m2 self3 m3 m' ->
  uniqueFunctionNames m -> importNamesFree m ->
  forall f,
    In f (functions m) -> imported f = true ->
    exists f',
      In f' (functions m') /\ imported f' = true
      /\ fn_module f' = fn_module f /\ fn_base f' = fn_base f.
Proof.
  intros Hph Huniq Hfree f Hin Himp.
  pose proof (phases_fold Hph) as Hfold.
  destruct (phases_all Hph)
    as ((extra & Ef & Hearly) & (added & Ea & Hlate) & (g & Hg & Eg)
        & _ & _ & _ & _ & Hfirst).
  specialize (Hfirst Huniq).
  assert (Hsurvive : forall h,
             In h (functions m3) ->
             ~ In (fn_name h) (map_keys (illegalImportsToLegal self3)) ->
             imported h = true ->
             fn_module h = fn_module f -> fn_base h = fn_base f ->
             exists f',
               In f' (functions m') /\ imported f' = true
               /\ fn_module f' = fn_module f /\ fn_base f' = fn_base f).
  { intros h Hh Hkey Hhi Hhm Hhb. exists (g h).
    destruct (Hg h) as (_ & _ & _ & _ & _ & Hm & Hb).
    rewrite (sameButBody_imported (Hg h)), Hm, Hb, Eg.
    repeat split; auto. apply in_map. apply removeAll_keeps; assumption. }
  assert (Hf3 : In f (functions m3)).
  { rewrite Ea, Ef. apply in_app_iff. left. apply in_app_iff. left.
    exact Hin. }
  destruct (illegalImport m f) eqn:Ei.
  - (* the import is illegal: its legal import stands in for it *)
    pose proof Hph as (H1 & H2 & _ & _).
    destruct (before_imports _ H1 H2) as (_ & Et & _ & _).
    assert (Hall : Forall
                     (fun x => illegalImport (set_exports m2 exs) x = true)
                     (illegalImports m)).
    { eapply Forall_impl; [| apply illegalImports_all]. intros x Hx.
      rewrite <- Hx. apply illegalImport_ext. simpl. exact Et. }
    assert (Hfx : In f (illegalImports m)) by (apply filter_In; auto).
    set (acc := (self1, set_exports m2 exs)) in *.
    assert (E3 : m3 = snd (fold_left (importStepOf (set_exports m2 exs))
                              (illegalImports m) acc))
      by (rewrite <- Hfold; reflexivity).
    assert (Hpresent :
             getFunctionOrNull m3 (legalimport (fn_name f)) <> None).
    { rewrite E3.
      apply (@fold_importStepOf_each (set_exports m2 exs)
               (fun x mm =>
                  getFunctionOrNull mm (legalimport (fn_name x)) <> None));
        auto.
      - intros s x t mm. apply importStep_makes_import.
      - intros s x y t mm. apply importStep_keeps_function. }
    assert (Hagree : importsAgree (illegalImports m) (functions m3)).
    { rewrite E3. apply fold_importStepOf_agree; auto.
      - apply illegalImports_unique, Huniq.
      - intros h x Hh Hx Hn. exfalso. simpl in Hh. rewrite Ef in Hh.
        apply in_app_iff in Hh as [Hh | Hh].
        + apply filter_In in Hx as [Hx Hxi].
          pose proof (Hfree x Hx Hxi) as Hnone.
          apply getFunctionOrNull_None in Hnone. apply Hnone.
          rewrite <- Hn. apply in_map, Hh.
        + rewrite Forall_forall in Hearly.
          apply (earlyFunction_not_legalimport (Hearly h Hh) Hn). }
    destruct (getFunctionOrNull m3 (legalimport (fn_name f))) as [h |] eqn:Eh;
      [| contradiction].
    apply getFunctionOrNull_In in Eh as [Hh Hhn].
    destruct (Hagree h f Hh Hfx Hhn) as (Hhi & Hhm & Hhb).
    apply (Hsurvive h); auto.
    intros Hkey. apply (phases_map Hph) in Hkey.
    apply illegalImportName_elim in Hkey as (x & Hx & Hxn & _).
    pose proof (Hfree f Hin Ei) as Hnone.
    apply getFunctionOrNull_None in Hnone. apply Hnone.
    rewrite <- Hhn, <- Hxn. apply in_map, Hx.
  - (* the import is legal: it stays *)
    apply (Hsurvive f); auto.
    intros Hkey. apply (phases_map Hph) in Hkey.
    apply illegalImportName_elim in Hkey as (x & Hx & Hxn & Hxi).
    assert (Hx3 : In x (functions m3)).
    { rewrite Ea, Ef. apply in_app_iff. left. apply in_app_iff. left.
      exact Hx. }
    assert (Hximp : imported x = true).
    { unfold illegalImport in Hxi. apply andb_true_iff in Hxi. tauto. }
    pose proof (importsFirst_found Hfirst x Hx3 Hximp) as E1.
    pose proof (importsFirst_found Hfirst f Hf3 Himp) as E2.
    rewrite Hxn in E1. rewrite E1 in E2. injection E2 as ->.
    congruence.
Qed.

(** Whatever is imported after the run is imported from where an import
    of the original module was imported from. *)
Lemma phases_import_origin m self1 m1 exs m2 self3 m3 m' :
  phases m self1 m1 exs m2 self3 m3 m' ->
  uniqueFunctionNames m ->
  forall f',
    In f' (functions m') -> imported f' = true ->
    exists f,
      In f (functions m) /\ imported f = true
      /\ fn_module f = fn_module f' /\ fn_base f = fn_base f'.
Proof.
  intros Hph Huniq f' Hin Himp.
  destruct (@phases_imports _ _ _ _ _ _ _ _ Hph Huniq f' Hin Himp)
    as (f & Hsame & _ & [[Hf Hi] | (s & x & t & Hx & ->)]).
  - exists f. rewrite <- (sameButBody_imported Hsame).
    destruct Hsame as (_ & _ & _ & _ & _ & Hm & Hb). auto.
  - apply filter_In in Hx as [Hx Hxi].
    exists x. split; [assumption |].
    destruct Hsame as (_ & _ & _ & _ & _ & Hm & Hb).
    destruct (legalImportOf_fields s x t) as (Hm' & Hb' & _ & _).
    unfold illegalImport in Hxi. apply andb_true_iff in Hxi as [Hxi _].
    rewrite Hm, Hb, Hm', Hb'. auto.
Qed.

Lemma phases_imported_iff m self1 m1 exs m2 self3 m3 m' module_ base :
  phases m self1 m1 exs m2 self3 m3 m' ->
  uniqueFunctionNames m -> importNamesFree m ->
  (getImportedFunction m module_ base <> None
   <-> getImportedFunction m' module_ base <> None).
Proof.
  intros Hph Huniq Hfree. rewrite !getImportedFunction_found. split.
  - intros (f & Hin & Himp & Hm & Hb).
    destruct (@phases_import_kept _ _ _ _ _ _ _ _ Hph Huniq Hfree f Hin Himp)
      as (f' & Hin' & Himp' & Hm' & Hb').
    exists f'. rewrite Hm', Hb'. auto.
  - intros (f' & Hin & Himp & Hm & Hb).
    destruct (@phases_import_origin _ _ _ _ _ _ _ _ Hph Huniq f' Hin Himp)
      as (f & Hin' & Himp' & Hm' & Hb').
    exists f. rewrite Hm', Hb'. auto.
Qed.

Lemma find_name_isSome (n : Name) (es es' : list Export) :
  map ex_name es = map ex_name es' ->
  (find (fun e => String.eqb (ex_name e) n) es <> None
   <-> find (fun e => String.eqb (ex_name e) n) es' <> None).
Proof.
  revert es'. induction es as [| e es IH]; intros [| e' es'] H;
    try discriminate; simpl; [tauto |].
  injection H as Hn Hrest. rewrite Hn.
  destruct (String.eqb (ex_name e') n); [split; discriminate |].
  apply IH, Hrest.
Qed.

Lemma phases_exported_iff m self1 m1 exs m2 self3 m3 m' n :
  phases m self1 m1 exs m2 self3 m3 m' ->
  (getExportOrNull m1 n <> None <-> getExportOrNull m' n <> None).
Proof.
  intros Hph.
  destruct (phases_all Hph) as (_ & _ & _ & Eex & _).
  destruct Hph as (_ & H2 & _ & _).
  apply legalizeExports_names in H2 as [Hn _].
  unfold getExportOrNull. rewrite Eex.
  apply find_name_isSome. symmetry. exact Hn.
Qed.

(* ===================================================================== *)
(** * A module the pass has nothing to do on *)
(* ===================================================================== *)

Lemma typeOf_ext m m' f :
  functionTypes m = functionTypes m' -> typeOf m f = typeOf m' f.
Proof.
  intros E. unfold typeOf, getFunctionTypeOrNull. rewrite E. reflexivity.
Qed.

(** Every import left after a run names a legal function type. *)
Lemma phases_import_types m self1 m1 exs m2 self3 m3 m' :
  phases m self1 m1 exs m2 self3 m3 m' ->
  uniqueFunctionNames m -> validImports m -> typeNamesLegal m ->
  forall f',
    In f' (functions m') -> imported f' = true ->
    exists t, typeOf m' f' = Some t /\ isIllegal t = false.
Proof.
  intros Hph Huniq Hvalid Htypes f' Hin Himp.
  pose proof (phases_fold Hph) as Hfold.
  destruct (phases_all Hph)
    as (_ & _ & _ & _ & Et' & Hext & _).
  destruct (@phases_imports _ _ _ _ _ _ _ _ Hph Huniq f' Hin Himp)
    as (f & Hsame & Hf3 & Hcases).
  rewrite (@sameButBody_typeOf m' f f' Hsame), (@typeOf_ext m' m3 f Et').
  rewrite (sameButBody_imported Hsame) in Himp.
  destruct Hcases as [[Hf Hi] | (s & x & t0 & Hx & ->)].
  - destruct (@legalImport_valid m f Hvalid Hf Himp Hi) as (t & Ht & Hl & _).
    exists t. split; [| assumption].
    apply (@typesExtend_typeOf m m3 f t Hext Ht).
  - pose proof Hph as (H1 & H2 & _ & _).
    destruct (before_imports _ H1 H2) as (_ & Et & _ & _).
    assert (Hall : Forall
                     (fun x => illegalImport (set_exports m2 exs) x = true)
                     (illegalImports m)).
    { eapply Forall_impl; [| apply illegalImports_all]. intros y Hy.
      rewrite <- Hy. apply illegalImport_ext. simpl. exact Et. }
    set (acc := (self1, set_exports m2 exs)) in *.
    assert (E3 : m3 = snd (fold_left (importStepOf (set_exports m2 exs))
                              (illegalImports m) acc))
      by (rewrite <- Hfold; reflexivity).
    assert (Hpresent :
             getFunctionTypeOrNull m3 (legaltype (fn_name x)) <> None).
    { rewrite E3.
      apply (@fold_importStepOf_each (set_exports m2 exs)
               (fun x mm =>
                  getFunctionTypeOrNull mm (legaltype (fn_name x)) <> None));
        auto.
      - intros s' x' t mm. apply importStep_makes_type.
      - intros s' x' y t mm. apply importStep_keeps_type. }
    unfold typeOf.
    rewrite (proj1 (proj2 (proj2 (legalImportOf_fields s x t0)))).
    destruct (getFunctionTypeOrNull m3 (legaltype (fn_name x))) as [t |] eqn:E;
      [| contradiction].
    exists t. split; [reflexivity |].
    unfold getFunctionTypeOrNull in E. apply find_some in E as [Ht Hn].
    apply String.eqb_eq in Hn.
    destruct Hext as (addedT & Ea & Hl). rewrite Ea in Ht.
    apply in_app_iff in Ht as [Ht | Ht].
    + apply (Htypes t (fn_name x) Ht Hn).
    + rewrite Forall_forall in Hl. auto.
Qed.

Lemma legalizeExports_nothing self exs :
  forall m,
    (forall ex,
        In ex exs -> isFunctionKind (ex_kind ex) = true ->
        exists f,
          getFunctionOrNull m (ex_value ex) = Some f /\ isIllegal f = false) ->
    legalizeExports self exs m = Done (exs, m).
Proof.
  induction exs as [| ex rest IH]; intros m H; simpl; [reflexivity |].
  assert (Hrest : legalizeExports self rest m = Done (rest, m)).
  { apply IH. intros ex' Hin. apply H. right. exact Hin. }
  destruct (isFunctionKind (ex_kind ex)) eqn:Ek.
  - destruct (H ex (or_introl eq_refl) Ek) as (f & Hf & Hl).
    unfold getFunction. rewrite Hf. simpl. rewrite Hl, Hrest. reflexivity.
  - rewrite Hrest. reflexivity.
Qed.

Lemma legalizeImports_nothing fs :
  forall self m,
    (forall f,
        In f fs -> imported f = true ->
        exists t, typeOf m f = Some t /\ isIllegal t = false) ->
    legalizeImports fs self m = Done (self, m).
Proof.
  induction fs as [| im rest IH]; intros self m H; simpl; [reflexivity |].
  assert (Hrest : legalizeImports rest self m = Done (self, m)).
  { apply IH. intros f Hin. apply H. right. exact Hin. }
  destruct (imported im) eqn:Eimp; [| exact Hrest].
  destruct (H im (or_introl eq_refl) Eimp) as (t & Ht & Hl).
  unfold typeOf in Ht. unfold getFunctionType.
  destruct (fn_type im) as [n |]; [| discriminate].
  rewrite Ht. simpl. rewrite Hl. exact Hrest.
Qed.

Lemma set_exports_same m : set_exports m (exports m) = m.
Proof. destruct m; reflexivity. Qed.

(** On a module whose channel is resolved without a change, whose
    function exports name legal functions and whose imports are of
    legal types, a run changes nothing. *)
Lemma run_nothing m self :
  ensureTempRet0Helpers newPass m = Done (self, m) ->
  (forall ex,
      In ex (exports m) -> isFunctionKind (ex_kind ex) = true ->
      exists f,
        getFunctionOrNull m (ex_value ex) = Some f /\ isIllegal f = false) ->
  (forall f,
      In f (functions m) -> imported f = true ->
      exists t, typeOf m f = Some t /\ isIllegal t = false) ->
  run m = Done m.
Proof.
  intros H1 Hex Him. unfold run. rewrite H1. simpl.
  rewrite (legalizeExports_nothing self (exports m) m Hex). simpl.
  rewrite set_exports_same.
  rewrite (legalizeImports_nothing (functions m) self m Him). simpl.
  apply ensureTempRet0Helpers_Done in H1 as [Hmap _].
  rewrite Hmap. reflexivity.
Qed.

Lemma withChannel_exported m :
  getExportOrNull (withChannel m) GET_TEMP_RET_0 <> None
  /\ getExportOrNull (withChannel m) SET_TEMP_RET_0 <> None.
Proof.
  unfold getExportOrNull, withChannel. cbn [exports]. rewrite !find_app.
  split; destruct (find _ (exports m)); discriminate.
Qed.

(** After a run the channel is resolved without a change. *)
Lemma phases_channel m self1 m1 exs m2 self3 m3 m' :
  phases m self1 m1 exs m2 self3 m3 m' ->
  uniqueFunctionNames m -> importNamesFree m ->
  exists self', ensureTempRet0Helpers newPass m' = Done (self', m').
Proof.
  intros Hph Huniq Hfree.
  pose proof (@phases_imported_iff _ _ _ _ _ _ _ _ ENV GET_TEMP_RET_0
                Hph Huniq Hfree) as Hig.
  pose proof (@phases_imported_iff _ _ _ _ _ _ _ _ ENV SET_TEMP_RET_0
                Hph Huniq Hfree) as His.
  pose proof (@phases_exported_iff _ _ _ _ _ _ _ _ GET_TEMP_RET_0 Hph)
    as Heg.
  pose proof (@phases_exported_iff _ _ _ _ _ _ _ _ SET_TEMP_RET_0 Hph)
    as Hes.
  destruct Hph as (H1 & _).
  assert (Hcases :
           (getImportedFunction m' ENV GET_TEMP_RET_0 <> None
            /\ getImportedFunction m' ENV SET_TEMP_RET_0 <> None)
           \/ (getImportedFunction m' ENV GET_TEMP_RET_0 = None
               /\ getImportedFunction m' ENV SET_TEMP_RET_0 = None
               /\ getExportOrNull m' GET_TEMP_RET_0 <> None
               /\ getExportOrNull m' SET_TEMP_RET_0 <> None)).
  { destruct (getImportedFunction m ENV GET_TEMP_RET_0) as [ig |] eqn:Eig,
      (getImportedFunction m ENV SET_TEMP_RET_0) as [is_ |] eqn:Eis.
    - left. split; [apply Hig | apply His]; discriminate.
    - exfalso. unfold ensureTempRet0Helpers in H1.
      rewrite Eig, Eis in H1. discriminate.
    - exfalso. unfold ensureTempRet0Helpers in H1.
      rewrite Eig, Eis in H1. discriminate.
    - right.
      assert (Hg' : getImportedFunction m' ENV GET_TEMP_RET_0 = None).
      { destruct (getImportedFunction m' ENV GET_TEMP_RET_0) eqn:E;
          [| reflexivity].
        exfalso. apply (proj2 Hig); [discriminate | reflexivity]. }
      assert (Hs' : getImportedFunction m' ENV SET_TEMP_RET_0 = None).
      { destruct (getImportedFunction m' ENV SET_TEMP_RET_0) eqn:E;
          [| reflexivity].
        exfalso. apply (proj2 His); [discriminate | reflexivity]. }
      split; [assumption |]. split; [assumption |].
      destruct (getExportOrNull m GET_TEMP_RET_0) as [eg |] eqn:Eeg,
        (getExportOrNull m SET_TEMP_RET_0) as [es |] eqn:Ees.
      + rewrite (ensureTempRet0Helpers_exported newPass m Eig Eis Eeg Ees)
          in H1.
        injection H1 as _ <-.
        split; [apply Heg | apply Hes]; congruence.
      + exfalso. unfold ensureTempRet0Helpers in H1.
        rewrite Eig, Eis, Eeg, Ees in H1. discriminate.
      + exfalso. unfold ensureTempRet0Helpers in H1.
        rewrite Eig, Eis, Eeg, Ees in H1. discriminate.
      + rewrite (ensureTempRet0Helpers_created newPass m Eig Eis Eeg Ees)
          in H1.
        injection H1 as _ <-.
        split; [apply Heg | apply Hes]; apply withChannel_exported. }
  unfold ensureTempRet0Helpers.
  destruct Hcases as [[Hg Hs] | (Hg & Hs & Heg' & Hes')].
  - destruct (getImportedFunction m' ENV GET_TEMP_RET_0); [| contradiction].
    destruct (getImportedFunction m' ENV SET_TEMP_RET_0); [| contradiction].
    eauto.
  - rewrite Hg, Hs.
    destruct (getExportOrNull m' GET_TEMP_RET_0); [| contradiction].
    destruct (getExportOrNull m' SET_TEMP_RET_0); [| contradiction].
    eauto.
Qed.

(* ===================================================================== *)
(** * The stubs of the imports after a run *)
(* ===================================================================== *)

(** The stub the table names for an illegal import is a function of the
    module the run leaves, unless its name is a key of the map. *)
Lemma phases_stub_present m self1 m1 exs m2 self3 m3 m' :
  phases m self1 m1 exs m2 self3 m3 m' ->
  forall n,
    illegalImportName m n = true ->
    ~ In (legalfunc n) (map_keys (illegalImportsToLegal self3)) ->
    getFunctionOrNull m' (legalfunc n) <> None.
Proof.
  intros Hph n Hn Hkey.
  pose proof (phases_fold Hph) as Hfold.
  destruct (phases_all Hph) as (_ & _ & (g & Hg & Eg) & _).
  pose proof Hph as (H1 & H2 & _ & _).
  destruct (before_imports _ H1 H2) as (_ & Et & _ & _).
  assert (Hall : Forall
                   (fun x => illegalImport (set_exports m2 exs) x = true)
                   (illegalImports m)).
  { eapply Forall_impl; [| apply illegalImports_all]. intros y Hy.
    rewrite <- Hy. apply illegalImport_ext. simpl. exact Et. }
  set (acc := (self1, set_exports m2 exs)) in *.
  assert (E3 : m3 = snd (fold_left (importStepOf (set_exports m2 exs))
                            (illegalImports m) acc))
    by (rewrite <- Hfold; reflexivity).
  apply illegalImportName_In in Hn.
  apply in_map_iff in Hn as (x & <- & Hx).
  assert (Hpresent : getFunctionOrNull m3 (legalfunc (fn_name x)) <> None).
  { rewrite E3.
    apply (@fold_importStepOf_each (set_exports m2 exs)
             (fun x mm =>
                getFunctionOrNull mm (legalfunc (fn_name x)) <> None));
      auto.
    - intros s' x' t mm. apply importStep_makes_stub.
    - intros s' x' y t mm. apply importStep_keeps_function. }
  rewrite getFunctionOrNull_findNamed in *. rewrite Eg.
  rewrite findNamed_map by (intros f0; apply (Hg f0)).
  rewrite removeAll_findNamed by exact Hkey.
  destruct (findNamed (legalfunc (fn_name x)) (functions m3));
    [discriminate | contradiction].
Qed.

(* ===================================================================== *)
(** * Runs that complete *)
(* ===================================================================== *)

Lemma makeLegalStub_keeps self func m n :
  getFunctionOrNull m n <> None ->
  getFunctionOrNull (snd (makeLegalStub self func m)) n <> None.
Proof.
  destruct (makeLegalStub_functions self func m) as [[-> _] | [-> _]];
    [auto |].
  rewrite getFunctionOrNull_addFunction.
  destruct (getFunctionOrNull m n); [discriminate | contradiction].
Qed.

Lemma legalizeExports_completes self exs :
  forall m,
    (forall ex,
        In ex exs -> isFunctionKind (ex_kind ex) = true ->
        getFunctionOrNull m (ex_value ex) <> None) ->
    exists r, legalizeExports self exs m = Done r.
Proof.
  induction exs as [| ex rest IH]; intros m H; simpl; [eauto |].
  assert (Hrest : forall m1,
             (forall n, getFunctionOrNull m n <> None ->
                        getFunctionOrNull m1 n <> None) ->
             exists r, legalizeExports self rest m1 = Done r).
  { intros m1 Hkeep. apply IH. intros ex' Hin Hk.
    apply Hkeep, H; [right; exact Hin | exact Hk]. }
  destruct (isFunctionKind (ex_kind ex)) eqn:Ek.
  - pose proof (H ex (or_introl eq_refl) Ek) as Hf. unfold getFunction.
    destruct (getFunctionOrNull m (ex_value ex)) as [func |];
      [| contradiction].
    simpl. destruct (isIllegal func).
    + rewrite (surjective_pairing (makeLegalStub self func m)).
      destruct (Hrest (snd (makeLegalStub self func m)))
        as ([rest' m'] & ->).
      * intros n. apply makeLegalStub_keeps.
      * simpl. eauto.
    + destruct (Hrest m) as ([rest' m'] & ->); [auto |]. simpl. eauto.
  - destruct (Hrest m) as ([rest' m'] & ->); [auto |]. simpl. eauto.
Qed.

Lemma importStep_keeps_typeOf self im t m f :
  typeOf m f <> None -> typeOf (importStep self im t m) f <> None.
Proof.
  unfold typeOf. destruct (fn_type f) as [n |]; [| auto].
  apply importStep_keeps_type.
Qed.

Lemma legalizeImports_completes fs :
  forall self m,
    (forall f, In f fs -> imported f = true -> typeOf m f <> None) ->
    exists r, legalizeImports fs self m = Done r.
Proof.
  induction fs as [| im rest IH]; intros self m H; simpl; [eauto |].
  assert (Hrest : forall self1,
             exists r, legalizeImports rest self1 m = Done r).
  { intros self1. apply IH. intros f Hin. apply H. right. exact Hin. }
  destruct (imported im) eqn:Eimp; [| apply Hrest].
  pose proof (H im (or_introl eq_refl) Eimp) as Ht.
  destruct (typeOf m im) as [t |] eqn:Et; [| contradiction].
  assert (Eg : getFunctionType m (fn_type im) = Done t).
  { apply getFunctionType_Done. unfold typeOf in Et.
    destruct (fn_type im) as [n |]; [eauto | discriminate]. }
  rewrite Eg. simpl. destruct (isIllegal t); [| apply Hrest].
  assert (Es : makeLegalStubForCalledImport self im m
               = Done (legalfunc (fn_name im),
                       addFunctionIfAbsent
                         (addFunctionTypeIfAbsent
                            (addFunctionIfAbsent m (importStubOf self im t))
                            (legalTypeOf self im t))
                         (legalImportOf self im t))).
  { apply makeLegalStubForCalledImport_Done. eauto. }
  rewrite Es. simpl. apply IH. intros f Hin Hi.
  apply (@importStep_keeps_typeOf self im t m f).
  apply H; [right; exact Hin | exact Hi].
Qed.

(** On a module that keeps the substrate's invariant, a run ends with
    the diagnostic or completes. *)
Lemma run_completes m :
  exportTargetsExist m -> importTypesExist m -> ~ halfPresent m ->
  exists m', run m = Done m'.
Proof.
  intros Hex Hty Hhalf.
  destruct (ensureTempRet0Helpers_whole newPass Hhalf)
    as (self1 & m1 & H1 & _).
  pose proof (ensureTempRet0Helpers_Done _ _ H1) as [_ Hm1].
  assert (Hex1 : forall ex,
             In ex (exports m1) -> isFunctionKind (ex_kind ex) = true ->
             getFunctionOrNull m1 (ex_value ex) <> None).
  { destruct Hm1 as [-> | ->]; [exact Hex |].
    intros ex Hin Hk. unfold getFunctionOrNull, withChannel in *.
    cbn [exports functions] in *. rewrite find_app.
    apply in_app_iff in Hin as [Hin | [<- | [<- | []]]].
    - specialize (Hex ex Hin Hk). unfold getFunctionOrNull in Hex.
      destruct (find _ (functions m)); [discriminate | contradiction].
    - destruct (find _ (functions m)); discriminate.
    - destruct (find _ (functions m)); discriminate. }
  destruct (legalizeExports_completes self1 (exports m1) m1 Hex1)
    as ([exs m2] & H2).
  destruct (before_imports _ H1 H2) as (_ & Et & _ & extra & Ef & Hearly).
  destruct (legalizeImports_completes (functions m2) self1
              (set_exports m2 exs)) as ([self3 m3] & H3).
  { intros f Hin Himp. rewrite Ef in Hin.
    apply in_app_iff in Hin as [Hin | Hin].
    - rewrite (@typeOf_ext (set_exports m2 exs) m f Et). auto.
    - rewrite Forall_forall in Hearly.
      rewrite (earlyFunction_not_imported (Hearly f Hin)) in Himp.
      discriminate. }
  exists (finish self3 m3). apply run_phases.
  exists self1, m1, exs, m2, self3, m3. unfold phases. auto.
Qed.

(* ===================================================================== *)
(** * Properties of the code *)
(* ===================================================================== *)

(** ** The stubs *)

Lemma makeLegalStub_params_fst ps :
  forall legalParams operands,
    fst (makeLegalStub_params ps legalParams operands)
    = legalParams ++ legalizedParams ps.
Proof.
  induction ps as [| param rest IH]; intros legalParams operands; simpl.
  - rewrite app_nil_r. reflexivity.
  - destruct param; simpl; rewrite IH, <- app_assoc; reflexivity.
Qed.

Lemma makeLegalStub_params_length ps :
  forall legalParams operands,
    List.length (snd (makeLegalStub_params ps legalParams operands))
    = List.length operands + List.length ps.
Proof.
  induction ps as [| param rest IH]; intros legalParams operands; simpl.
  - lia.
  - destruct param; simpl; rewrite IH, length_app; simpl; lia.
Qed.

Lemma legalizedParams_legal ps : anyIllegal (legalizedParams ps) = false.
Proof.
  induction ps as [| param rest IH]; [reflexivity |].
  destruct param; simpl; exact IH.
Qed.

(** X1: the stub of an exported function is named legalstub$ followed by
    the function's name; its parameters are the function's, in order,
    with two i32 in the place of every i64 and an f64 in the place of
    every f32; its result is i32 for i64, f64 for f32 and the function's
    otherwise; it is not imported, its signature is legal, and its call
    of the function has one operand for each parameter of the
    function. *)
Theorem export_stub_signature self func :
  fn_name (legalStubFor self func) = legalstub (fn_name func)
  /\ fn_params (legalStubFor self func) = legalizedParams (fn_params func)
  /\ fn_result (legalStubFor self func) = legalizedResult (fn_result func)
  /\ imported (legalStubFor self func) = false
  /\ fn_type (legalStubFor self func) = None
  /\ legalSignature (legalStubFor self func)
  /\ List.length (snd (makeLegalStub_params (fn_params func) [] []))
     = List.length (fn_params func).
Proof.
  split; [apply legalStubFor_name |].
  split.
  { rewrite legalStubFor_params, makeLegalStub_params_fst. reflexivity. }
  split.
  { unfold legalStubFor.
    destruct (makeLegalStub_params (fn_params func) [] []) as [lp ops].
    destruct (fn_result func); reflexivity. }
  split; [apply legalStubFor_not_imported |].
  split.
  { unfold legalStubFor.
    destruct (makeLegalStub_params (fn_params func) [] []) as [lp ops].
    destruct (fn_result func); reflexivity. }
  split; [apply isIllegal_legalSignature, legalStubFor_legal |].
  rewrite makeLegalStub_params_length. reflexivity.
Qed.

Lemma evalAll_app ev a b :
  evalAll ev (a ++ b)
  = match evalAll ev a, evalAll ev b with
    | Some x, Some y => Some (x ++ y)
    | _, _ => None
    end.
Proof.
  induction a as [| e a IH]; simpl.
  - destruct (evalAll ev b); reflexivity.
  - rewrite IH. destruct (ev e); [| reflexivity].
    destruct (evalAll ev a); [| reflexivity].
    destruct (evalAll ev b); reflexivity.
Qed.

Lemma nth_error_middle A (pre : list A) x rest :
  nth_error (pre ++ x :: rest) (List.length pre) = Some x.
Proof.
  rewrite nth_error_app2 by lia. rewrite Nat.sub_diag. reflexivity.
Qed.

Lemma makeLegalStub_params_eval env ps :
  forall args legalParams operands pre rest vs,
    Forall2 valueOf ps args ->
    List.length pre = List.length legalParams ->
    locals env = pre ++ splitValues args ++ rest ->
    evalAll (eval env) operands = Some vs ->
    evalAll (eval env) (snd (makeLegalStub_params ps legalParams operands))
    = Some (vs ++ args).
Proof.
  induction ps as [| param ps IH];
    intros args legalParams operands pre rest vs Hty Hlen Hloc Hops;
    inversion Hty as [| p v ps' args' Hv Hrest]; subst.
  - simpl. rewrite app_nil_r. exact Hops.
  - assert (Hstep : forall op ws,
               List.length ws = List.length (legalizedType param) ->
               splitValue v = ws ->
               eval env op = Some v ->
               evalAll (eval env)
                 (snd (makeLegalStub_params ps
                         (legalParams ++ legalizedType param)
                         (operands ++ [op])))
               = Some (vs ++ v :: args')).
    { intros op ws Hws Hsplit Hop.
      replace (vs ++ v :: args') with ((vs ++ [v]) ++ args')
        by (rewrite <- app_assoc; reflexivity).
      apply IH with (pre := pre ++ ws) (rest := rest).
      - exact Hrest.
      - rewrite !length_app. lia.
      - rewrite Hloc. simpl. rewrite Hsplit, <- !app_assoc. reflexivity.
      - rewrite evalAll_app, Hops. simpl. rewrite Hop. reflexivity. }
    assert (Hat : forall ws w,
               splitValue v = w :: ws ->
               nth_error (locals env) (List.length legalParams) = Some w).
    { intros ws w Hsplit. rewrite Hloc. simpl. rewrite Hsplit, <- Hlen.
      simpl. apply nth_error_middle. }
    destruct param, v; simpl in Hv; try contradiction; simpl.
    + eapply (Hstep _ [_]); [reflexivity | reflexivity |].
      simpl. eapply Hat. reflexivity.
    + eapply (Hstep _ [_; _]); [reflexivity | reflexivity |].
      unfold I64Utilities.recreateI64_locals.
      rewrite (@eval_recreateI64 env _ _ (bits mod two32) (bits / two32)).
      * rewrite (recombine_words Hv). reflexivity.
      * simpl. eapply Hat. reflexivity.
      * simpl. rewrite Hloc. simpl. rewrite <- Hlen.
        replace (pre ++ LitI32 (bits mod two32) :: LitI32 (bits / two32)
                      :: splitValues args' ++ rest)
          with ((pre ++ [LitI32 (bits mod two32)])
                  ++ LitI32 (bits / two32) :: splitValues args' ++ rest)
          by (rewrite <- app_assoc; reflexivity).
        replace (List.length pre + 1)
          with (List.length (pre ++ [LitI32 (bits mod two32)]))
          by (rewrite length_app; reflexivity).
        apply nth_error_middle.
    + eapply (Hstep _ [_]); [reflexivity | reflexivity |].
      simpl. eapply Hat. reflexivity.
Qed.

(** X2: the export stub hands the wrapped function its original
    arguments.  When the stub's locals start with the arguments as they
    cross the boundary (an i64 as its low word followed by its high
    word, an i32 and an f64 as they are), the operands of the stub's
    call evaluate, in order, to the arguments themselves; a stub whose
    result passes through evaluates to the answer of the function on
    them. *)
Theorem export_stub_arguments self func args env rest :
  Forall2 valueOf (fn_params func) args ->
  locals env = splitValues args ++ rest ->
  evalAll (eval env) (snd (makeLegalStub_params (fn_params func) [] []))
  = Some args
  /\ (fn_result func <> i64 -> fn_result func <> f32 ->
      exists body,
        fn_body (legalStubFor self func) = Some body
        /\ eval env body = callValue env (fn_name func) args).
Proof.
  intros Hty Hloc.
  assert (Hops : evalAll (eval env)
                   (snd (makeLegalStub_params (fn_params func) [] []))
                 = Some args).
  { apply (@makeLegalStub_params_eval env (fn_params func) args [] [] []
             rest []); auto. }
  split; [exact Hops |].
  intros H64 H32. unfold legalStubFor.
  destruct (makeLegalStub_params (fn_params func) [] []) as [lp ops].
  simpl in Hops.
  rewrite (Type_eqb_neq H64), (Type_eqb_neq H32).
  eexists. split; [reflexivity |].
  cbn [eval]. rewrite Hops. reflexivity.
Qed.

Lemma export_stub_arguments_witness :
  let func := defined "f" [i32; i64; f64] i32 Nop in
  let args := [LitI32 5; LitI64 (2 ^ 32 + 7); LitF64 0] in
  let env :=
    answering [LitI32 5; LitI32 7; LitI32 1; LitF64 0] (LitI32 0)
      (LitI32 3) in
  evalAll (eval env) (snd (makeLegalStub_params (fn_params func) [] []))
  = Some args
  /\ exists body,
       fn_body (legalStubFor newPass func) = Some body
       /\ eval env body = Some (LitI32 3).
Proof.
  destruct (@export_stub_arguments newPass
              (defined "f" [i32; i64; f64] i32 Nop)
              [LitI32 5; LitI64 (2 ^ 32 + 7); LitF64 0]
              (answering [LitI32 5; LitI32 7; LitI32 1; LitF64 0] (LitI32 0)
                 (LitI32 3))
              [])
    as [Hops Hbody].
  - repeat constructor; simpl; unfold two32, two64; lia.
  - reflexivity.
  - split; [exact Hops |]. apply Hbody; discriminate.
Defined.

Lemma makeLegalStubForCalledImport_params_spec ps :
  forall operands typeParams funcParams,
    let r :=
      makeLegalStubForCalledImport_params ps operands typeParams funcParams in
    snd (fst r) = typeParams ++ legalizedParams ps
    /\ snd r = funcParams ++ ps.
Proof.
  induction ps as [| param rest IH]; intros operands typeParams funcParams;
    simpl.
  - rewrite !app_nil_r. split; reflexivity.
  - destruct param; simpl;
      match goal with
      | |- context [makeLegalStubForCalledImport_params rest ?o ?t ?f] =>
          destruct (IH o t f) as [H1 H2]; rewrite H1, H2, <- !app_assoc
      end; split; reflexivity.
Qed.

Lemma makeLegalStubForCalledImport_params_length ps :
  forall operands typeParams funcParams,
    List.length
      (fst (fst (makeLegalStubForCalledImport_params ps operands typeParams
                   funcParams)))
    = List.length operands + List.length (legalizedParams ps).
Proof.
  induction ps as [| param rest IH]; intros operands typeParams funcParams;
    simpl; [lia |].
  destruct param; simpl; rewrite IH, length_app; simpl; lia.
Qed.

(** X3: of the three entities built for an import of an illegal type,
    the function type is named legaltype$ followed by the import's name
    and has the legalized parameters (two i32 for an i64, an f64 for an
    f32) and the legalized result of the import's type; the legal import
    is named legalimport$..., carries that signature, names that type
    and is imported from where the import was; the stub is named
    legalfunc$..., has the parameters and the result of the import's
    type unchanged, and is not imported.  The type and the legal import
    are legal, and the stub's call of the legal import has one operand
    for each parameter of the legal import. *)
Theorem import_stub_signature self im t :
  ft_name (legalTypeOf self im t) = legaltype (fn_name im)
  /\ ft_params (legalTypeOf self im t) = legalizedParams (ft_params t)
  /\ ft_result (legalTypeOf self im t) = legalizedResult (ft_result t)
  /\ legalSignature (legalTypeOf self im t)
  /\ fn_name (legalImportOf self im t) = legalimport (fn_name im)
  /\ fn_params (legalImportOf self im t) = legalizedParams (ft_params t)
  /\ fn_result (legalImportOf self im t) = legalizedResult (ft_result t)
  /\ fn_type (legalImportOf self im t) = Some (legaltype (fn_name im))
  /\ fn_module (legalImportOf self im t) = fn_module im
  /\ fn_base (legalImportOf self im t) = fn_base im
  /\ fn_body (legalImportOf self im t) = None
  /\ legalSignature (legalImportOf self im t)
  /\ fn_name (importStubOf self im t) = legalfunc (fn_name im)
  /\ fn_params (importStubOf self im t) = ft_params t
  /\ fn_result (importStubOf self im t) = ft_result t
  /\ fn_vars (importStubOf self im t) = []
  /\ imported (importStubOf self im t) = false
  /\ List.length
       (fst (fst (makeLegalStubForCalledImport_params (ft_params t)
                    [] [] [])))
     = List.length (fn_params (legalImportOf self im t)).
Proof.
  assert (Hp : ft_params (legalTypeOf self im t)
               = legalizedParams (ft_params t)).
  { unfold legalTypeOf, legalImportFor.
    destruct (makeLegalStubForCalledImport_params_spec (ft_params t) [] [] [])
      as [H1 _].
    destruct (makeLegalStubForCalledImport_params (ft_params t) [] [] [])
      as [[ops tp] fp].
    simpl in H1. subst tp.
    destruct (ft_result t); reflexivity. }
  assert (Hr : ft_result (legalTypeOf self im t)
               = legalizedResult (ft_result t)).
  { unfold legalTypeOf, legalImportFor.
    destruct (makeLegalStubForCalledImport_params (ft_params t) [] [] [])
      as [[ops tp] fp].
    destruct (ft_result t); reflexivity. }
  destruct (legalImportFor_names self im t) as (Hn1 & Hn2 & Hn3).
  destruct (legalImportOf_fields self im t)
    as (Hm & Hb & Hty & _ & Hps & Hrs).
  repeat split;
    try (apply isIllegal_legalSignature;
         first [apply legalTypeOf_legal | apply legalImportOf_legal]);
    try assumption; try congruence.
  - unfold legalImportOf, legalImportFor.
    destruct (makeLegalStubForCalledImport_params (ft_params t) [] [] [])
      as [[ops tp] fp].
    destruct (ft_result t); reflexivity.
  - unfold importStubOf, legalImportFor.
    destruct (makeLegalStubForCalledImport_params_spec (ft_params t) [] [] [])
      as [_ H2].
    destruct (makeLegalStubForCalledImport_params (ft_params t) [] [] [])
      as [[ops tp] fp].
    simpl in H2. subst fp.
    destruct (ft_result t); reflexivity.
  - unfold importStubOf, legalImportFor.
    destruct (makeLegalStubForCalledImport_params (ft_params t) [] [] [])
      as [[ops tp] fp].
    destruct (ft_result t); reflexivity.
  - unfold importStubOf, legalImportFor.
    destruct (makeLegalStubForCalledImport_params (ft_params t) [] [] [])
      as [[ops tp] fp].
    destruct (ft_result t); reflexivity.
  - apply importStubOf_not_imported.
  - rewrite makeLegalStubForCalledImport_params_length, Hps, Hp.
    reflexivity.
Qed.

Lemma makeLegalStubForCalledImport_params_eval env ps :
  forall args operands typeParams funcParams pre rest vs,
    Forall2 valueOf ps args ->
    List.length pre = List.length funcParams ->
    locals env = pre ++ args ++ rest ->
    evalAll (eval env) operands = Some vs ->
    evalAll (eval env)
      (fst (fst (makeLegalStubForCalledImport_params ps operands typeParams
                   funcParams)))
    = Some (vs ++ splitValues args).
Proof.
  induction ps as [| param ps IH];
    intros args operands typeParams funcParams pre rest vs Hty Hlen Hloc Hops;
    inversion Hty as [| p v ps' args' Hv Hrest]; subst.
  - simpl. rewrite app_nil_r. exact Hops.
  - assert (Hat : nth_error (locals env) (List.length funcParams) = Some v).
    { rewrite Hloc, <- Hlen. simpl. apply nth_error_middle. }
    assert (Hstep : forall ops tps,
               evalAll (eval env) ops = Some (splitValue v) ->
               evalAll (eval env)
                 (fst (fst (makeLegalStubForCalledImport_params ps
                              (operands ++ ops) (typeParams ++ tps)
                              (funcParams ++ [param]))))
               = Some (vs ++ splitValues (v :: args'))).
    { intros ops tps Hop.
      replace (vs ++ splitValues (v :: args'))
        with ((vs ++ splitValue v) ++ splitValues args')
        by (simpl; rewrite <- app_assoc; reflexivity).
      apply IH with (pre := pre ++ [v]) (rest := rest).
      - exact Hrest.
      - rewrite !length_app. simpl. lia.
      - rewrite Hloc, <- app_assoc. reflexivity.
      - rewrite evalAll_app, Hops, Hop. reflexivity. }
    destruct param, v; simpl in Hv; try contradiction; simpl.
    + apply Hstep. simpl. rewrite Hat. reflexivity.
    + apply Hstep. cbn [evalAll].
      rewrite (eval_getI64Low env _ Hat), (eval_getI64High env _ Hat).
      rewrite (Z.mod_small (bits / two32)) by (apply high_word_range, Hv).
      reflexivity.
    + apply Hstep. simpl. rewrite Hat. reflexivity.
Qed.

(** X4: the import stub hands the host the arguments as they cross the
    boundary and returns the host's answer.  When the stub's locals
    start with its arguments, the legal import is called with each i64
    argument as its low word followed by its high word and every other
    argument as it is; a stub whose result passes through evaluates to
    the import's answer, and a stub with an i64 result evaluates to the
    64-bit value whose low word is the import's answer and whose high
    word is what the channel holds. *)
Theorem import_stub_value self im t args env rest :
  Forall2 valueOf (ft_params t) args ->
  locals env = args ++ rest ->
  exists body,
    fn_body (importStubOf self im t) = Some body
    /\ (ft_result t <> i64 -> ft_result t <> f32 ->
        eval env body
        = callValue env (legalimport (fn_name im)) (splitValues args))
    /\ (ft_result t = i64 ->
        forall lo hi,
          (0 <= lo < two32)%Z -> (0 <= hi < two32)%Z ->
          callValue env (legalimport (fn_name im)) (splitValues args)
          = Some (LitI32 lo) ->
          channelValue self env = Some (LitI32 hi) ->
          eval env body = Some (LitI64 (lo + two32 * hi))).
Proof.
  intros Hty Hloc.
  pose proof (@makeLegalStubForCalledImport_params_eval env (ft_params t)
                args [] [] [] [] rest [] Hty eq_refl Hloc eq_refl) as Hops.
  unfold importStubOf, legalImportFor.
  destruct (makeLegalStubForCalledImport_params (ft_params t) [] [] [])
    as [[ops tp] fp].
  simpl in Hops.
  destruct (Type_eqb (ft_result t) i64) eqn:E64.
  - apply Type_eqb_eq in E64.
    eexists. split; [reflexivity |]. split; [congruence |].
    intros _ lo hi Hlo Hhi Hcall Hch. cbn [snd fst fn_body mkFunction].
    rewrite (@eval_recreateI64 env _ _ lo hi).
    + f_equal. f_equal.
      assert (E1 : ((lo + two32 * hi) mod two32 = lo)%Z).
      { rewrite (Z.mul_comm two32 hi), Z_mod_plus_full.
        apply Z.mod_small. exact Hlo. }
      assert (E2 : ((lo + two32 * hi) / two32 = hi)%Z).
      { rewrite (Z.mul_comm two32 hi), Z.div_add by (unfold two32; lia).
        rewrite (Z.div_small lo) by exact Hlo. lia. }
      assert (Hb : (0 <= lo + two32 * hi < two64)%Z).
      { unfold two32, two64 in *. lia. }
      pose proof (recombine_words Hb) as H. rewrite E1, E2 in H. exact H.
    + cbn [eval]. rewrite Hops. exact Hcall.
    + unfold channelValue in Hch.
      destruct (hasGlobal self); cbn [eval evalAll]; exact Hch.
  - destruct (Type_eqb (ft_result t) f32) eqn:E32.
    + apply Type_eqb_eq in E32.
      eexists. split; [reflexivity |]. split; [congruence |].
      intros H. rewrite H in E32. discriminate.
    + eexists. split; [reflexivity |]. split.
      * intros _ _. cbn [snd fst fn_body mkFunction eval].
        rewrite Hops. reflexivity.
      * intros H. rewrite H in E64. discriminate.
Qed.

Lemma import_stub_value_witness :
  let im := import "x" "t" [i32; i64] i64 ENV "a" in
  let t := {| ft_name := "t"; ft_params := [i32; i64]; ft_result := i64 |} in
  let self := set_channel newPass GET_TEMP_RET_0 SET_TEMP_RET_0 true in
  let env :=
    answering [LitI32 5; LitI64 (2 ^ 32 + 7)] (LitI32 1) (LitI32 7) in
  exists body,
    fn_body (importStubOf self im t) = Some body
    /\ eval env body = Some (LitI64 (2 ^ 32 + 7)).
Proof.
  destruct (@import_stub_value
              (set_channel newPass GET_TEMP_RET_0 SET_TEMP_RET_0 true)
              (import "x" "t" [i32; i64] i64 ENV "a")
              {| ft_name := "t"; ft_params := [i32; i64]; ft_result := i64 |}
              [LitI32 5; LitI64 (2 ^ 32 + 7)]
              (answering [LitI32 5; LitI64 (2 ^ 32 + 7)] (LitI32 1)
                 (LitI32 7))
              [])
    as (body & Hbody & _ & Hvalue).
  - repeat constructor; simpl; unfold two32, two64; lia.
  - reflexivity.
  - exists body. split; [exact Hbody |].
    apply (Hvalue eq_refl 7%Z 1%Z); try reflexivity; unfold two32; lia.
Defined.

(** X5: the two stubs undo each other on a list of arguments.  For
    parameters of the types i32, i64 and f64, the operands the import
    stub passes to the host evaluate to the arguments as they cross the
    boundary, and the operands of the export stub of a function with the
    same parameters, evaluated on those values, give back the arguments,
    each i64 recombined from its two words at the right positions. *)
Theorem stub_arguments_roundtrip ps args env rest env' rest' :
  Forall2 valueOf ps args ->
  locals env = args ++ rest ->
  exists ws,
    evalAll (eval env)
      (fst (fst (makeLegalStubForCalledImport_params ps [] [] [])))
    = Some ws
    /\ (locals env' = ws ++ rest' ->
        evalAll (eval env') (snd (makeLegalStub_params ps [] []))
        = Some args).
Proof.
  intros Hty Hloc. exists (splitValues args). split.
  - apply (@makeLegalStubForCalledImport_params_eval env ps args [] [] []
             [] rest []); auto.
  - intros Hloc'.
    apply (@makeLegalStub_params_eval env' ps args [] [] [] rest' []); auto.
Qed.

Lemma stub_arguments_roundtrip_witness :
  let ps := [i64; i32; i64] in
  let args := [LitI64 (2 ^ 63 + 5); LitI32 9; LitI64 (2 ^ 32)] in
  exists ws,
    evalAll (eval (localsOnly args))
      (fst (fst (makeLegalStubForCalledImport_params ps [] [] [])))
    = Some ws
    /\ (locals (localsOnly [LitI32 5; LitI32 (2 ^ 31); LitI32 9; LitI32 0;
                            LitI32 1])
        = ws ++ [] ->
        evalAll
          (eval (localsOnly [LitI32 5; LitI32 (2 ^ 31); LitI32 9; LitI32 0;
                             LitI32 1]))
          (snd (makeLegalStub_params ps [] []))
        = Some args).
Proof.
  apply (@stub_arguments_roundtrip [i64; i32; i64]
           [LitI64 (2 ^ 63 + 5); LitI32 9; LitI64 (2 ^ 32)]
           (localsOnly [LitI64 (2 ^ 63 + 5); LitI32 9; LitI64 (2 ^ 32)]) []).
  - repeat constructor; simpl; unfold two32, two64; lia.
  - reflexivity.
Defined.

Lemma addFunctionIfAbsent_present m f :
  getFunctionOrNull m (fn_name f) <> None -> addFunctionIfAbsent m f = m.
Proof.
  unfold addFunctionIfAbsent.
  destruct (getFunctionOrNull m (fn_name f)); [reflexivity | congruence].
Qed.

Lemma addFunctionTypeIfAbsent_present m t :
  getFunctionTypeOrNull m (ft_name t) <> None ->
  addFunctionTypeIfAbsent m t = m.
Proof.
  unfold addFunctionTypeIfAbsent.
  destruct (getFunctionTypeOrNull m (ft_name t)); [reflexivity | congruence].
Qed.

Lemma addFunctionIfAbsent_list m f :
  functions (addFunctionIfAbsent m f)
  = functions m
    ++ (if isSome (getFunctionOrNull m (fn_name f)) then [] else [f]).
Proof.
  unfold addFunctionIfAbsent.
  destruct (getFunctionOrNull m (fn_name f)); simpl;
    [rewrite app_nil_r |]; reflexivity.
Qed.

Lemma addFunctionTypeIfAbsent_list m t :
  functionTypes (addFunctionTypeIfAbsent m t)
  = functionTypes m
    ++ (if isSome (getFunctionTypeOrNull m (ft_name t)) then [] else [t]).
Proof.
  unfold addFunctionTypeIfAbsent.
  destruct (getFunctionTypeOrNull m (ft_name t)); simpl;
    [rewrite app_nil_r |]; reflexivity.
Qed.

Lemma importStep_list self im t m :
  functions (importStep self im t m)
  = functions m
    ++ (if isSome (getFunctionOrNull m (legalfunc (fn_name im)))
        then [] else [importStubOf self im t])
    ++ (if isSome (getFunctionOrNull m (legalimport (fn_name im)))
        then [] else [legalImportOf self im t]).
Proof.
  destruct (legalImportFor_names self im t) as (Hn1 & Hn2 & Hn3).
  unfold importStep. cbn [functions set_table].
  set (m1 := addFunctionIfAbsent m (importStubOf self im t)).
  set (m2 := addFunctionTypeIfAbsent m1 (legalTypeOf self im t)).
  assert (Hfs2 : functions m2 = functions m1)
    by apply addFunctionTypeIfAbsent_fields.
  rewrite addFunctionIfAbsent_list, Hfs2. unfold m1 at 1.
  rewrite addFunctionIfAbsent_list, Hn2, Hn3, <- app_assoc.
  f_equal. f_equal.
  assert (E : getFunctionOrNull m2 (legalimport (fn_name im))
              = getFunctionOrNull m (legalimport (fn_name im))).
  { unfold getFunctionOrNull. rewrite Hfs2. unfold m1.
    rewrite addFunctionIfAbsent_list, find_app, Hn3.
    destruct (find _ (functions m)); [reflexivity |].
    destruct (isSome (getFunctionOrNull m (legalfunc (fn_name im))));
      [reflexivity |].
    simpl. rewrite Hn3.
    destruct (String.eqb_spec (legalfunc (fn_name im))
                (legalimport (fn_name im))) as [E | _];
      [| reflexivity].
    exfalso. exact (legalfunc_not_legalimport E). }
  rewrite E. reflexivity.
Qed.

(** X6: what [makeLegalStubForCalledImport] does to the module.  For an
    import whose function type the module has, it returns the name
    legalfunc$ followed by the import's name; it appends the stub, the
    legal function type and the legal import, each only when nothing is
    found under its name, and leaves every existing function and type,
    the exports, the globals and the table as they are; called again on
    its own result it changes nothing.  For an import whose function
    type the module lacks there is no result. *)
Theorem import_stub_creation self im m :
  (typeOf m im = None ->
   makeLegalStubForCalledImport self im m = Absent (fn_type im))
  /\ (forall t,
         typeOf m im = Some t ->
         exists m',
           makeLegalStubForCalledImport self im m
           = Done (legalfunc (fn_name im), m')
           /\ functions m'
              = functions m
                ++ (if isSome (getFunctionOrNull m (legalfunc (fn_name im)))
                    then [] else [importStubOf self im t])
                ++ (if isSome (getFunctionOrNull m (legalimport (fn_name im)))
                    then [] else [legalImportOf self im t])
           /\ functionTypes m'
              = functionTypes m
                ++ (if isSome
                         (getFunctionTypeOrNull m (legaltype (fn_name im)))
                    then [] else [legalTypeOf self im t])
           /\ exports m' = exports m
           /\ globals m' = globals m
           /\ table m' = table m
           /\ makeLegalStubForCalledImport self im m'
              = Done (legalfunc (fn_name im), m')).
Proof.
  split.
  - unfold typeOf, makeLegalStubForCalledImport, getFunctionType.
    destruct (fn_type im) as [tn |]; [| reflexivity].
    intros H. rewrite H. reflexivity.
  - intros t Ht.
    destruct (legalImportFor_names self im t) as (Hn1 & Hn2 & Hn3).
    set (m1 := addFunctionIfAbsent m (importStubOf self im t)).
    set (m2 := addFunctionTypeIfAbsent m1 (legalTypeOf self im t)).
    set (m3 := addFunctionIfAbsent m2 (legalImportOf self im t)).
    assert (Hrun : makeLegalStubForCalledImport self im m
                   = Done (legalfunc (fn_name im), m3)).
    { apply makeLegalStubForCalledImport_Done. exists t. auto. }
    assert (Hfs2 : functions m2 = functions m1)
      by apply addFunctionTypeIfAbsent_fields.
    assert (Hts1 : functionTypes m1 = functionTypes m)
      by apply addFunctionIfAbsent_fields.
    assert (Hts3 : functionTypes m3 = functionTypes m2)
      by apply addFunctionIfAbsent_fields.
    assert (Hfs : functions m3
                  = functions m
                    ++ (if isSome
                             (getFunctionOrNull m (legalfunc (fn_name im)))
                        then [] else [importStubOf self im t])
                    ++ (if isSome
                             (getFunctionOrNull m (legalimport (fn_name im)))
                        then [] else [legalImportOf self im t])).
    { exact (importStep_list self im t m). }
    assert (Hts : functionTypes m3
                  = functionTypes m
                    ++ (if isSome
                             (getFunctionTypeOrNull m
                                (legaltype (fn_name im)))
                        then [] else [legalTypeOf self im t])).
    { rewrite Hts3. unfold m2.
      rewrite addFunctionTypeIfAbsent_list, Hts1, Hn1.
      unfold getFunctionTypeOrNull. rewrite Hts1. reflexivity. }
    exists m3. split; [exact Hrun |].
    split; [exact Hfs |]. split; [exact Hts |].
    destruct (addFunctionIfAbsent_fields m (importStubOf self im t))
      as (_ & He1 & Hg1 & Htb1).
    destruct (addFunctionTypeIfAbsent_fields m1 (legalTypeOf self im t))
      as (_ & He2 & Hg2 & Htb2).
    destruct (addFunctionIfAbsent_fields m2 (legalImportOf self im t))
      as (_ & He3 & Hg3 & Htb3).
    fold m1 in He1, Hg1, Htb1. fold m2 in He2, Hg2, Htb2.
    fold m3 in He3, Hg3, Htb3.
    split; [congruence |]. split; [congruence |]. split; [congruence |].
    apply makeLegalStubForCalledImport_Done. exists t.
    split.
    { unfold typeOf in *. destruct (fn_type im) as [tn |]; [| discriminate].
      unfold getFunctionTypeOrNull in *. rewrite Hts, find_app, Ht.
      reflexivity. }
    split; [reflexivity |].
    pose proof (importStep_makes_stub self im t m) as Hs.
    pose proof (importStep_makes_type self im t m) as Hty.
    pose proof (importStep_makes_import self im t m) as Hi.
    change (getFunctionOrNull m3 (legalfunc (fn_name im)) <> None) in Hs.
    change (getFunctionTypeOrNull m3 (legaltype (fn_name im)) <> None)
      in Hty.
    change (getFunctionOrNull m3 (legalimport (fn_name im)) <> None) in Hi.
    rewrite <- Hn3 in Hs. rewrite <- Hn1 in Hty. rewrite <- Hn2 in Hi.
    rewrite (addFunctionIfAbsent_present _ _ Hs).
    rewrite (addFunctionTypeIfAbsent_present _ _ Hty).
    rewrite (addFunctionIfAbsent_present _ _ Hi).
    reflexivity.
Qed.

Lemma import_stub_creation_witness :
  exists m',
    makeLegalStubForCalledImport newPass
      (import "x" "t" [i64] f32 ENV "a") tabledImport
    = Done (legalfunc "x", m')
    /\ functionNames m' = ["x"; "f"; legalfunc "x"; legalimport "x"]
    /\ map ft_name (functionTypes m') = ["t"; legaltype "x"]
    /\ makeLegalStubForCalledImport newPass
         (import "x" "t" [i64] f32 ENV "a") m'
       = Done (legalfunc "x", m').
Proof.
  destruct (proj2 (import_stub_creation newPass
                     (import "x" "t" [i64] f32 ENV "a") tabledImport)
              {| ft_name := "t"; ft_params := [i64]; ft_result := f32 |}
              eq_refl)
    as (m' & Hrun & Hfs & Hts & _ & _ & _ & Hagain).
  exists m'. split; [exact Hrun |].
  split; [unfold functionNames; rewrite Hfs; reflexivity |].
  split; [rewrite Hts; reflexivity | exact Hagain].
Defined.

(** X7: the four families of names the pass derives never meet: each
    derivation gives different names for different sources, and no name
    of one family (legalstub$, legalfunc$, legalimport$, legaltype$) is
    a name of another, whatever the sources. *)
Theorem derived_names_distinct a b :
  (legalstub a = legalstub b -> a = b)
  /\ (legalfunc a = legalfunc b -> a = b)
  /\ (legalimport a = legalimport b -> a = b)
  /\ (legaltype a = legaltype b -> a = b)
  /\ legalstub a <> legalfunc b
  /\ legalstub a <> legalimport b
  /\ legalstub a <> legaltype b
  /\ legalfunc a <> legalimport b
  /\ legalfunc a <> legaltype b
  /\ legalimport a <> legaltype b.
Proof.
  unfold legalstub, legalfunc, legalimport, legaltype. simpl.
  repeat split; try (intros H; injection H; auto); discriminate.
Qed.

(** X8: [isIllegal] answers true exactly for a signature with an i64 or
    an f32 among its parameters or as its result, for a function as for
    a function type; i32, f64 and the absence of a result are never
    illegal. *)
Theorem isIllegal_iff T `(Signature T) (t : T) :
  isIllegal t = true
  <-> In i64 (params t) \/ In f32 (params t)
      \/ result t = i64 \/ result t = f32.
Proof.
  destruct (isIllegal t) eqn:E.
  - split; [intros _ | reflexivity].
    unfold isIllegal in E.
    destruct (anyIllegal (params t)) eqn:Ea.
    + clear E. induction (params t) as [| p ps IH]; [discriminate |].
      simpl in Ea. destruct (illegalType p) eqn:Ep.
      * apply illegalType_spec in Ep as [-> | ->];
          [left | right; left]; left; reflexivity.
      * destruct (IH Ea) as [Hi | [Hi | Hi]];
          [left; right; exact Hi | right; left; right; exact Hi |].
        destruct Hi as [Hi | Hi]; right; right; [left | right]; exact Hi.
    + destruct (illegalType (result t)) eqn:Er; [| discriminate].
      apply illegalType_spec in Er. right; right. exact Er.
  - apply isIllegal_legalSignature in E.
    destruct E as (H1 & H2 & H3 & H4).
    split; [discriminate |].
    intros [Hi | [Hi | [Hi | Hi]]]; contradiction.
Qed.

(** ** The channel resolver *)

Lemma withChannel_imported m module_ base :
  getImportedFunction (withChannel m) module_ base
  = getImportedFunction m module_ base.
Proof.
  unfold getImportedFunction, importedFunctions, withChannel. simpl.
  rewrite filter_app. simpl. rewrite app_nil_r. reflexivity.
Qed.

Lemma withChannel_exports m :
  getExportOrNull m GET_TEMP_RET_0 = None ->
  getExportOrNull m SET_TEMP_RET_0 = None ->
  getExportOrNull (withChannel m) GET_TEMP_RET_0
  = Some {| ex_name := GET_TEMP_RET_0; ex_value := GET_TEMP_RET_0;
            ex_kind := KFunction |}
  /\ getExportOrNull (withChannel m) SET_TEMP_RET_0
     = Some {| ex_name := SET_TEMP_RET_0; ex_value := SET_TEMP_RET_0;
               ex_kind := KFunction |}.
Proof.
  unfold getExportOrNull, withChannel. simpl. intros Hg Hs.
  rewrite !find_app, Hg, Hs. split; reflexivity.
Qed.

Lemma withChannel_register m :
  getGlobalOrNull (withChannel m) TEMP_RET_0 <> None.
Proof.
  unfold getGlobalOrNull, withChannel, withRegister. simpl.
  destruct (getGlobalOrNull m TEMP_RET_0) as [g |] eqn:Eg.
  - unfold getGlobalOrNull in Eg. rewrite Eg. discriminate.
  - unfold getGlobalOrNull in Eg. simpl. rewrite find_app, Eg. discriminate.
Qed.

(** X9: the resolver finds again what it resolved.  On the module it
    leaves behind, a second resolution completes, leaves the module as
    it is and gives the same getter name, the same setter name and the
    same access to the register: a channel it created is found through
    the two exports it added, with the register it added or found. *)
Theorem ensureTempRet0Helpers_again self m self' m' self2 :
  ensureTempRet0Helpers self m = Done (self', m') ->
  ensureTempRet0Helpers self2 m'
  = Done (set_channel self2 (getTempRet0 self') (setTempRet0 self')
            (hasGlobal self'), m').
Proof.
  intros H.
  destruct (getImportedFunction m ENV GET_TEMP_RET_0) as [ig |] eqn:Eig,
    (getImportedFunction m ENV SET_TEMP_RET_0) as [is_ |] eqn:Eis;
    try (unfold ensureTempRet0Helpers in H; rewrite Eig, Eis in H;
         discriminate).
  - rewrite (ensureTempRet0Helpers_imported self _ Eig Eis) in H.
    injection H as <- <-.
    rewrite (ensureTempRet0Helpers_imported self2 _ Eig Eis). reflexivity.
  - destruct (getExportOrNull m GET_TEMP_RET_0) as [eg |] eqn:Eeg,
      (getExportOrNull m SET_TEMP_RET_0) as [es |] eqn:Ees;
      try (unfold ensureTempRet0Helpers in H;
           rewrite Eig, Eis, Eeg, Ees in H; discriminate).
    + rewrite (ensureTempRet0Helpers_exported self _ Eig Eis Eeg Ees) in H.
      injection H as <- <-.
      rewrite (ensureTempRet0Helpers_exported self2 _ Eig Eis Eeg Ees).
      reflexivity.
    + rewrite (ensureTempRet0Helpers_created self _ Eig Eis Eeg Ees) in H.
      injection H as <- <-.
      destruct (@withChannel_exports m Eeg Ees) as [Hg Hs].
      assert (Hig : getImportedFunction (withChannel m) ENV GET_TEMP_RET_0
                    = None)
        by (rewrite withChannel_imported; assumption).
      assert (His : getImportedFunction (withChannel m) ENV SET_TEMP_RET_0
                    = None)
        by (rewrite withChannel_imported; assumption).
      rewrite (ensureTempRet0Helpers_exported self2 _ Hig His Hg Hs).
      simpl.
      destruct (getGlobalOrNull (withChannel m) TEMP_RET_0) eqn:E;
        [reflexivity |].
      exfalso. exact (withChannel_register m E).
Qed.

Lemma ensureTempRet0Helpers_again_witness :
  exists self' m',
    ensureTempRet0Helpers newPass bareModule = Done (self', m')
    /\ ensureTempRet0Helpers newPass m'
       = Done (set_channel newPass (getTempRet0 self') (setTempRet0 self')
                 (hasGlobal self'), m').
Proof.
  eexists. eexists. split; [reflexivity |].
  apply (@ensureTempRet0Helpers_again newPass bareModule). reflexivity.
Defined.

(** ** A run: exports *)

Lemma find_app_Some A (p : A -> bool) (l1 l2 : list A) x :
  find p (l1 ++ l2) = Some x ->
  find p l1 = Some x \/ (find p l1 = None /\ In x l2).
Proof.
  rewrite find_app. destruct (find p l1) as [y |].
  - intros H. left. exact H.
  - intros H. right. split; [reflexivity |].
    apply find_some in H. apply H.
Qed.

Lemma legalizeExports_map self m0 exs :
  forall m exs' m',
    (exists extra,
        functions m = functions m0 ++ extra
        /\ Forall (fun f => isIllegal f = false) extra) ->
    legalizeExports self exs m = Done (exs', m') ->
    exs' = map (legalizedExport m0) exs.
Proof.
  induction exs as [| ex rest IH]; intros m exs' m' Hext Hrun.
  - simpl in Hrun. injection Hrun as <- _. reflexivity.
  - destruct (legalizeExports_cons _ _ _ _ Hrun)
      as (ex' & m1 & rest' & -> & Hrest & Hcase).
    destruct Hext as (extra & Hfs & Hleg).
    assert (Hfound : forall func,
               getFunctionOrNull m (ex_value ex) = Some func ->
               getFunctionOrNull m0 (ex_value ex) = Some func
               \/ (getFunctionOrNull m0 (ex_value ex) = None
                   /\ isIllegal func = false)).
    { intros func Hf. unfold getFunctionOrNull in *. rewrite Hfs in Hf.
      apply find_app_Some in Hf as [Hf | [Hn Hin]]; [left; exact Hf |].
      right. split; [exact Hn |].
      rewrite Forall_forall in Hleg. apply Hleg, Hin. }
    simpl. f_equal.
    + unfold legalizedExport.
      destruct Hcase as [(Hk & func & Hf & Hi & _ & ->)
                        | [(Hk & func & Hf & Hi & _ & ->) | (Hk & _ & ->)]];
        rewrite Hk; [| | reflexivity].
      * destruct (Hfound _ Hf) as [H0 | [_ H0]]; [| congruence].
        rewrite H0, Hi. reflexivity.
      * destruct (Hfound _ Hf) as [H0 | [H0 _]]; rewrite H0;
          [rewrite Hi |]; reflexivity.
    + apply (IH m1 rest' m'); [| exact Hrest].
      destruct Hcase as [(_ & func & _ & _ & -> & _)
                        | [(_ & func & _ & _ & -> & _) | (_ & -> & _)]];
        try (exists extra; split; assumption).
      destruct (makeLegalStub_functions self func m) as [[-> _] | [-> _]].
      * exists extra. split; assumption.
      * exists (extra ++ [legalStubFor self func]). split.
        -- simpl. rewrite Hfs, <- app_assoc. reflexivity.
        -- apply Forall_app. split; [exact Hleg |].
           constructor; [apply legalStubFor_legal | constructor].
Qed.

Lemma legalizedExport_name m ex :
  ex_name (legalizedExport m ex) = ex_name ex
  /\ ex_kind (legalizedExport m ex) = ex_kind ex.
Proof.
  unfold legalizedExport.
  destruct (isFunctionKind (ex_kind ex)); [| split; reflexivity].
  destruct (getFunctionOrNull m (ex_value ex)) as [f |];
    [| split; reflexivity].
  destruct (isIllegal f); split; reflexivity.
Qed.

(** X10: the exports after a run are the exports before it, in their
    order and under their names, each export of an illegal function
    repointed to legalstub$ followed by that function's name and every
    other export (of a legal function, or of a table, a memory or a
    global) left as it is.  When the channel was found, imported or
    exported, nothing follows them; when it was created, the two
    exports getTempRet0 and setTempRet0 follow them, targeting the
    functions of those names unless a function the module already had
    under such a name is illegal. *)
Theorem run_exports m m' :
  run m = Done m' ->
  exists channel,
    exports m' = map (legalizedExport m) (exports m ++ channel)
    /\ (bothImported m \/ bothExported m -> channel = [])
    /\ (~ bothImported m -> ~ bothExported m -> channel = channelExports)
    /\ map ex_name (exports m') = map ex_name (exports m ++ channel)
    /\ map ex_kind (exports m') = map ex_kind (exports m ++ channel)
    /\ (getFunctionOrNull m GET_TEMP_RET_0 = None ->
        getFunctionOrNull m SET_TEMP_RET_0 = None ->
        exports m' = map (legalizedExport m) (exports m) ++ channel).
Proof.
  intros Hrun.
  apply run_phases in Hrun as (self1 & m1 & exs & m2 & self3 & m3 & Hph).
  destruct (phases_all Hph) as (_ & _ & _ & Hex & _).
  destruct Hph as (H1 & H2 & _).
  rewrite Hex. clear Hex.
  assert (Hnames : forall l,
             map ex_name (map (legalizedExport m) l) = map ex_name l
             /\ map ex_kind (map (legalizedExport m) l) = map ex_kind l).
  { intros l. rewrite !map_map.
    split; apply map_ext; intros ex; apply legalizedExport_name. }
  assert (Hfound : forall channel,
             m1 = m -> channel = [] ->
             exs = map (legalizedExport m) (exports m ++ channel)).
  { intros channel -> ->. rewrite app_nil_r.
    eapply legalizeExports_map with (m0 := m); [| exact H2].
    exists []. rewrite app_nil_r. split; [reflexivity | constructor]. }
  destruct (getImportedFunction m ENV GET_TEMP_RET_0) as [ig |] eqn:Eig,
    (getImportedFunction m ENV SET_TEMP_RET_0) as [is_ |] eqn:Eis;
    try (unfold ensureTempRet0Helpers in H1; rewrite Eig, Eis in H1;
         discriminate).
  - rewrite (ensureTempRet0Helpers_imported newPass _ Eig Eis) in H1.
    injection H1 as <- <-.
    exists []. rewrite (Hfound [] eq_refl eq_refl).
    split; [reflexivity |]. split; [reflexivity |].
    split.
    { intros Hn _. exfalso. apply Hn. unfold bothImported.
      rewrite Eig, Eis. split; discriminate. }
    split; [apply Hnames |]. split; [apply Hnames |].
    intros _ _. rewrite !app_nil_r. reflexivity.
  - destruct (getExportOrNull m GET_TEMP_RET_0) as [eg |] eqn:Eeg,
      (getExportOrNull m SET_TEMP_RET_0) as [es |] eqn:Ees;
      try (unfold ensureTempRet0Helpers in H1;
           rewrite Eig, Eis, Eeg, Ees in H1; discriminate).
    + rewrite (ensureTempRet0Helpers_exported newPass _ Eig Eis Eeg Ees)
        in H1.
      injection H1 as <- <-.
      exists []. rewrite (Hfound [] eq_refl eq_refl).
      split; [reflexivity |]. split; [reflexivity |].
      split.
      { intros _ Hn. exfalso. apply Hn. unfold bothExported.
        rewrite Eeg, Ees. split; discriminate. }
      split; [apply Hnames |]. split; [apply Hnames |].
      intros _ _. rewrite !app_nil_r. reflexivity.
    + rewrite (ensureTempRet0Helpers_created newPass _ Eig Eis Eeg Ees)
        in H1.
      injection H1 as <- <-.
      assert (E : exs = map (legalizedExport m) (exports m ++ channelExports)).
      { eapply legalizeExports_map with (m0 := m); [| exact H2].
        exists [getter; setter]. split; [reflexivity |].
        repeat constructor. }
      exists channelExports. rewrite E.
      split; [reflexivity |].
      split.
      { unfold bothImported, bothExported. rewrite Eig, Eeg.
        intros [[Hn _] | [Hn _]]; exfalso; apply Hn; reflexivity. }
      split; [reflexivity |].
      split; [apply Hnames |]. split; [apply Hnames |].
      intros Hg Hs. rewrite map_app. f_equal.
      unfold channelExports, legalizedExport. simpl. rewrite Hg, Hs.
      reflexivity.
Qed.

Lemma run_exports_witness :
  exists m',
    run tabledImport = Done m'
    /\ exports m'
       = map (legalizedExport tabledImport) (exports tabledImport)
         ++ channelExports
    /\ map ex_value (exports m')
       = [legalstub "f"; GET_TEMP_RET_0; SET_TEMP_RET_0].
Proof.
  assert (H : exists m', run tabledImport = Done m')
    by (eexists; vm_compute; reflexivity).
  destruct H as (m' & Hrun).
  destruct (@run_exports _ _ Hrun) as (channel & _ & _ & Hc & _ & _ & Hex).
  assert (Hi : ~ bothImported tabledImport)
    by (intros [Hn _]; apply Hn; reflexivity).
  assert (He : ~ bothExported tabledImport)
    by (intros [Hn _]; apply Hn; reflexivity).
  rewrite <- (Hc Hi He).
  exists m'. split; [exact Hrun |].
  split; [apply Hex; reflexivity |].
  vm_compute in Hrun. injection Hrun as <-. reflexivity.
Defined.

(** ** A run: the import loop *)

(** The import loop of a run is a fold over the illegal imports of the
    module the run started from. *)
Lemma phases_loop m self1 m1 exs m2 self3 m3 m' :
  phases m self1 m1 exs m2 self3 m3 m' ->
  Forall (fun x => illegalImport (set_exports m2 exs) x = true)
    (illegalImports m)
  /\ (self3, m3)
     = fold_left (importStepOf (set_exports m2 exs)) (illegalImports m)
         (self1, set_exports m2 exs)
  /\ illegalImportsToLegal self1 = []
  /\ functionTypes m2 = functionTypes m
  /\ exists extra,
       functions m2 = functions m ++ extra
       /\ Forall (earlyFunction self1) extra.
Proof.
  intros Hph.
  pose proof (phases_fold Hph) as Hfold.
  destruct Hph as (H1 & H2 & _ & _).
  destruct (before_imports _ H1 H2) as (Hmap & Et & _ & Hextra).
  split; [| auto].
  eapply Forall_impl; [| apply illegalImports_all]. intros f Hf.
  rewrite <- Hf. apply illegalImport_ext. simpl. exact Et.
Qed.

Lemma importStep_types self im t m :
  functionTypes (importStep self im t m)
  = functionTypes m
    ++ (if isSome (getFunctionTypeOrNull m (legaltype (fn_name im)))
        then [] else [legalTypeOf self im t]).
Proof.
  destruct (legalImportFor_names self im t) as (Hn & _ & _).
  unfold importStep. simpl.
  rewrite functionTypes_addFunctionIfAbsent, addFunctionTypeIfAbsent_list.
  rewrite functionTypes_addFunctionIfAbsent, Hn.
  unfold getFunctionTypeOrNull.
  rewrite functionTypes_addFunctionIfAbsent. reflexivity.
Qed.

(** X11: a run never removes or changes a function type or a global.
    The function types after it are those before it, in order, followed
    by legal types only, each named legaltype$ followed by the name of
    an illegal import; the globals are those before it, followed by the
    channel's register when there was no global of that name and the
    run added it. *)
Theorem run_types_globals m m' :
  run m = Done m' ->
  (exists added,
      functionTypes m' = functionTypes m ++ added
      /\ Forall
           (fun t =>
              isIllegal t = false
              /\ exists x,
                  In x (illegalImports m)
                  /\ ft_name t = legaltype (fn_name x))
           added)
  /\ (globals m' = globals m
      \/ (getGlobalOrNull m TEMP_RET_0 = None
          /\ globals m' = globals m ++ [tempRet0Global])).
Proof.
  intros Hrun.
  apply run_phases in Hrun as (self1 & m1 & exs & m2 & self3 & m3 & Hph).
  destruct (phases_all Hph) as (_ & _ & _ & _ & Ht & _ & Hg & _).
  destruct (phases_loop Hph) as (Hall & Hfold & _ & Et & _).
  destruct Hph as (H1 & _).
  split.
  - rewrite Ht.
    replace m3
      with (snd (fold_left (importStepOf (set_exports m2 exs))
                   (illegalImports m) (self1, set_exports m2 exs)))
      by (rewrite <- Hfold; reflexivity).
    apply (@fold_importStepOf_ind (set_exports m2 exs)
             (fun acc =>
                exists added,
                  functionTypes (snd acc) = functionTypes m ++ added
                  /\ Forall
                       (fun t =>
                          isIllegal t = false
                          /\ exists x,
                              In x (illegalImports m)
                              /\ ft_name t = legaltype (fn_name x))
                       added)
             (illegalImports m) Hall).
    + intros acc x t Hin _ _ _ (added & E & Hadded). cbn [snd fst].
      rewrite importStep_types, E, <- app_assoc.
      eexists. split; [reflexivity |].
      apply Forall_app. split; [exact Hadded |].
      destruct (isSome _); constructor; [| constructor].
      split; [apply legalTypeOf_legal |].
      exists x. split; [exact Hin |]. apply legalImportFor_names.
    + exists []. simpl. rewrite app_nil_r. split; [exact Et | constructor].
  - rewrite Hg.
    destruct (ensureTempRet0Helpers_Done _ _ H1) as (_ & [-> | ->]);
      [left; reflexivity |].
    unfold withChannel, withRegister. simpl.
    destruct (getGlobalOrNull m TEMP_RET_0) eqn:E;
      [left; reflexivity | right; split; reflexivity].
Qed.

Lemma run_types_globals_witness :
  exists m',
    run tabledImport = Done m'
    /\ map ft_name (functionTypes m') = ["t"; legaltype "x"]
    /\ (globals m' = globals tabledImport
        \/ (getGlobalOrNull tabledImport TEMP_RET_0 = None
            /\ globals m' = globals tabledImport ++ [tempRet0Global])).
Proof.
  assert (H : exists m', run tabledImport = Done m')
    by (eexists; vm_compute; reflexivity).
  destruct H as (m' & Hrun).
  destruct (@run_types_globals _ _ Hrun) as (_ & Hg).
  exists m'. split; [exact Hrun |]. split; [| exact Hg].
  vm_compute in Hrun. injection Hrun as <-. reflexivity.
Defined.

(** ** A run: a module that is legal already *)

Lemma run_only_channel m self m1 :
  ensureTempRet0Helpers newPass m = Done (self, m1) ->
  (forall ex,
      In ex (exports m1) -> isFunctionKind (ex_kind ex) = true ->
      exists f,
        getFunctionOrNull m1 (ex_value ex) = Some f /\ isIllegal f = false) ->
  (forall f,
      In f (functions m1) -> imported f = true ->
      exists t, typeOf m1 f = Some t /\ isIllegal t = false) ->
  run m = Done m1.
Proof.
  intros H1 Hex Him. unfold run. rewrite H1. simpl.
  rewrite (legalizeExports_nothing self (exports m1) m1 Hex). simpl.
  rewrite set_exports_same.
  rewrite (legalizeImports_nothing (functions m1) self m1 Him). simpl.
  apply ensureTempRet0Helpers_Done in H1 as [Hmap _].
  rewrite Hmap. reflexivity.
Qed.

(** X12: on a module whose boundary is legal already, a run resolves
    the channel and does nothing else.  When no export of a function
    targets an illegal function, no import has an illegal type, no
    function under the name getTempRet0 or setTempRet0 is illegal, and
    the channel is not half-present, the run completes with the module
    the resolver leaves behind: the module itself when the channel was
    found, the module with the channel added otherwise; no stub is
    made, nothing is removed and no call is rewritten. *)
Theorem run_legal_module m :
  ~ halfPresent m ->
  (forall ex,
      In ex (exports m) -> isFunctionKind (ex_kind ex) = true ->
      exists f,
        getFunctionOrNull m (ex_value ex) = Some f /\ isIllegal f = false) ->
  (forall f,
      In f (functions m) -> imported f = true ->
      exists t, typeOf m f = Some t /\ isIllegal t = false) ->
  (forall f,
      In f (functions m) ->
      fn_name f = GET_TEMP_RET_0 \/ fn_name f = SET_TEMP_RET_0 ->
      isIllegal f = false) ->
  exists self m1,
    ensureTempRet0Helpers newPass m = Done (self, m1)
    /\ run m = Done m1
    /\ (m1 = m \/ m1 = withChannel m).
Proof.
  intros Hhalf Hex Him Hnames.
  destruct (ensureTempRet0Helpers_whole newPass Hhalf) as (self & m1 & H1 & _).
  exists self, m1. split; [exact H1 |].
  destruct (ensureTempRet0Helpers_Done _ _ H1) as (_ & [-> | ->]).
  - split; [| left; reflexivity].
    eapply run_only_channel; [exact H1 | assumption | assumption].
  - split; [| right; reflexivity].
    assert (Hfound : forall n f,
               getFunctionOrNull m n = Some f ->
               getFunctionOrNull (withChannel m) n = Some f).
    { intros n f Hf. unfold getFunctionOrNull, withChannel in *. simpl.
      rewrite find_app, Hf. reflexivity. }
    assert (Hnew : forall n,
               n = GET_TEMP_RET_0 \/ n = SET_TEMP_RET_0 ->
               exists f,
                 getFunctionOrNull (withChannel m) n = Some f
                 /\ isIllegal f = false).
    { intros n Hn.
      destruct (getFunctionOrNull m n) as [f |] eqn:Ef.
      - exists f. split; [apply Hfound, Ef |].
        destruct (getFunctionOrNull_In _ _ Ef) as [Hin Hname].
        apply (Hnames f Hin). rewrite Hname. exact Hn.
      - unfold getFunctionOrNull, withChannel in *. simpl.
        rewrite find_app, Ef.
        destruct Hn as [-> | ->]; eexists; split; reflexivity. }
    eapply run_only_channel; [exact H1 | |].
    + intros ex Hin Hk. unfold withChannel in Hin. simpl in Hin.
      apply in_app_or in Hin as [Hin | [<- | [<- | []]]].
      * destruct (Hex ex Hin Hk) as (f & Hf & Hleg).
        exists f. split; [apply Hfound, Hf | exact Hleg].
      * apply Hnew. left. reflexivity.
      * apply Hnew. right. reflexivity.
    + intros f Hin Himp. unfold withChannel in Hin. simpl in Hin.
      apply in_app_or in Hin as [Hin | [<- | [<- | []]]];
        try discriminate.
      destruct (Him f Hin Himp) as (t & Ht & Hleg).
      exists t. split; [| exact Hleg].
      rewrite <- Ht. apply typeOf_ext. reflexivity.
Qed.

Lemma run_legal_module_witness :
  exists self m1,
    ensureTempRet0Helpers newPass bareModule = Done (self, m1)
    /\ run bareModule = Done m1
    /\ (m1 = bareModule \/ m1 = withChannel bareModule).
Proof.
  apply run_legal_module.
  - unfold halfPresent, exactlyOne. vm_compute. intuition congruence.
  - intros ex [<- | []] _. eexists. split; reflexivity.
  - intros f [<- | []] H. discriminate.
  - intros f [<- | []] [H | H]; discriminate.
Defined.

(** ** A run: the functions that stay *)

Lemma renameCalls_ext r r' e :
  (forall n, r n = r' n) -> renameCalls r e = renameCalls r' e.
Proof.
  intros Hr.
  induction e; simpl;
    repeat match goal with
      | H : list_all _ _ |- _ => apply map_ext_all in H; rewrite H; clear H
      | H : option_all _ _ |- _ =>
          apply option_map_ext_all in H; rewrite H; clear H
      | H : renameCalls _ _ = _ |- _ => rewrite H; clear H
      end;
    rewrite ?Hr; reflexivity.
Qed.

Lemma map_id_all A (f : A -> A) l :
  list_all (fun x => f x = x) l -> map f l = l.
Proof. induction 1; simpl; congruence. Qed.

Lemma option_map_id_all A (f : A -> A) o :
  option_all (fun x => f x = x) o -> option_map f o = o.
Proof. destruct 1; simpl; congruence. Qed.

Lemma renameCalls_id e : renameCalls (fun n => n) e = e.
Proof.
  induction e; simpl;
    repeat match goal with
      | H : list_all _ _ |- _ => apply map_id_all in H; rewrite H; clear H
      | H : option_all _ _ |- _ =>
          apply option_map_id_all in H; rewrite H; clear H
      | H : renameCalls _ _ = _ |- _ => rewrite H; clear H
      end;
    reflexivity.
Qed.

Lemma map_find_None k mp : ~ In k (map_keys mp) -> map_find k mp = None.
Proof.
  induction mp as [| [k' v] rest IH]; simpl; [reflexivity |].
  intros H. destruct (String.eqb_spec k' k) as [E | _].
  - exfalso. apply H. left. exact E.
  - apply IH. intros Hin. apply H. right. exact Hin.
Qed.

Lemma set_body_same f : set_body f (fn_body f) = f.
Proof. destruct f. reflexivity. Qed.

(** The functions of the last phase: those that are not removed, each
    with its calls renamed. *)
Lemma finish_list self m :
  functions (finish self m)
  = map (fun f =>
           set_body f
             (option_map
                (renameCalls
                   (fixTarget (illegalImportsToLegal self) (fn_name f)))
                (fn_body f)))
        (removeAll (map_keys (illegalImportsToLegal self)) (functions m)).
Proof.
  unfold finish.
  destruct (illegalImportsToLegal self) as [| p rest] eqn:E.
  - simpl. rewrite <- (map_id (functions m)) at 1.
    apply map_ext. intros f.
    transitivity (set_body f (fn_body f)); [symmetry; apply set_body_same |].
    f_equal. destruct (fn_body f) as [b |]; [| reflexivity]. simpl. f_equal.
    rewrite (@renameCalls_ext (fixTarget [] (fn_name f)) (fun n => n));
      [symmetry; apply renameCalls_id | reflexivity].
  - cbn [List.length Nat.ltb Nat.leb].
    rewrite FixImports_functions, removeFunctions_functions. reflexivity.
Qed.

(** The renaming of the call sites, seen from the module the run
    started from. *)
Lemma phases_fixTarget m self1 m1 exs m2 self3 m3 m' name :
  phases m self1 m1 exs m2 self3 m3 m' ->
  forall n,
    fixTarget (illegalImportsToLegal self3) name n
    = if illegalImportName m n then
        if String.eqb (legalfunc n) name then n else legalfunc n
      else n.
Proof.
  intros Hph n. destruct (phases_map Hph n) as [Hkeys Hfind].
  unfold fixTarget.
  destruct (illegalImportName m n) eqn:E.
  - rewrite (Hfind eq_refl). reflexivity.
  - rewrite map_find_None; [reflexivity |].
    intros Hin. apply Hkeys in Hin. discriminate.
Qed.

(** X13: a function that is not an illegal import stays.  Every function
    of the module whose name is not that of an illegal import, and is
    not the stub name legalfunc$... of one, is a function of the module
    after the run, with its name, signature, locals, type and import
    source unchanged and with every call of an illegal import in its
    body redirected to that import's stub legalfunc$...; all other call
    targets and all other nodes of the body are as before. *)
Theorem run_keeps_functions m m' f :
  run m = Done m' ->
  In f (functions m) ->
  illegalImportName m (fn_name f) = false ->
  (forall n, illegalImportName m n = true -> fn_name f <> legalfunc n) ->
  In (set_body f (option_map (renameCalls (tableRename m)) (fn_body f)))
     (functions m').
Proof.
  intros Hrun Hin Hname Hstub.
  apply run_phases in Hrun as (self1 & m1 & exs & m2 & self3 & m3 & Hph).
  destruct (phases_all Hph)
    as ((extra & E2 & _) & (added & E3 & _) & _).
  pose proof (phases_fixTarget (fn_name f) Hph) as Hfix.
  pose proof (phases_map Hph (fn_name f)) as [Hkeys _].
  destruct Hph as (_ & _ & _ & ->).
  rewrite finish_list.
  set (g := fun f0 : Function =>
              set_body f0
                (option_map
                   (renameCalls
                      (fixTarget (illegalImportsToLegal self3) (fn_name f0)))
                   (fn_body f0))).
  assert (Eg : g f
               = set_body f
                   (option_map (renameCalls (tableRename m)) (fn_body f))).
  { unfold g. f_equal.
    destruct (fn_body f) as [b |]; [| reflexivity]. simpl. f_equal.
    apply renameCalls_ext. intros n. rewrite Hfix. unfold tableRename.
    destruct (illegalImportName m n) eqn:E; [| reflexivity].
    destruct (String.eqb_spec (legalfunc n) (fn_name f)) as [E' | _];
      [| reflexivity].
    exfalso. apply (Hstub n E). symmetry. exact E'. }
  rewrite <- Eg. apply (in_map g). apply removeAll_keeps.
  - rewrite E3, E2. apply in_or_app. left. apply in_or_app. left.
    exact Hin.
  - intros Hk. apply Hkeys in Hk. congruence.
Qed.

Lemma run_keeps_functions_witness :
  exists m',
    run tabledImport = Done m'
    /\ In (defined "f" [] f32 (Call (legalfunc "x") [Const (LitI64 1)] f32))
          (functions m').
Proof.
  assert (H : exists m', run tabledImport = Done m')
    by (eexists; vm_compute; reflexivity).
  destruct H as (m' & Hrun).
  exists m'. split; [exact Hrun |].
  apply (@run_keeps_functions tabledImport m'
           (defined "f" [] f32 (Call "x" [Const (LitI64 1)] f32)) Hrun).
  - right. left. reflexivity.
  - reflexivity.
  - intros n _. discriminate.
Defined.

(** ** A run: no call of a removed import *)

Lemma legalImportFor_channel s s' im t :
  hasGlobal s = hasGlobal s' -> getTempRet0 s = getTempRet0 s' ->
  legalImportFor s im t = legalImportFor s' im t.
Proof.
  intros Hg Hn. unfold legalImportFor. rewrite Hg, Hn. reflexivity.
Qed.

(** Where the functions of the module the import loop leaves behind
    come from. *)
Lemma phases_functions m self1 m1 exs m2 self3 m3 m' :
  phases m self1 m1 exs m2 self3 m3 m' ->
  forall f,
    In f (functions m3) ->
    In f (functions m)
    \/ earlyFunction self1 f
    \/ exists x t,
         In x (illegalImports m)
         /\ (f = importStubOf self1 x t \/ f = legalImportOf self1 x t).
Proof.
  intros Hph.
  destruct (phases_loop Hph) as (Hall & Hfold & _ & _ & extra & E2 & Hearly).
  assert (E3 : m3 = snd (fold_left (importStepOf (set_exports m2 exs))
                            (illegalImports m) (self1, set_exports m2 exs)))
    by (rewrite <- Hfold; reflexivity).
  set (P := fun acc : LegalizeJSInterface * Module =>
              hasGlobal (fst acc) = hasGlobal self1
              /\ getTempRet0 (fst acc) = getTempRet0 self1
              /\ forall f,
                   In f (functions (snd acc)) ->
                   In f (functions m)
                   \/ earlyFunction self1 f
                   \/ exists x t,
                        In x (illegalImports m)
                        /\ (f = importStubOf self1 x t
                            \/ f = legalImportOf self1 x t)).
  assert (HP : P (fold_left (importStepOf (set_exports m2 exs))
                    (illegalImports m) (self1, set_exports m2 exs))).
  { apply (@fold_importStepOf_ind (set_exports m2 exs) P (illegalImports m)
             Hall); unfold P.
    - intros acc x t Hin _ _ _ (Hg & Hn & Hfs). cbn [fst snd].
      split; [exact Hg |]. split; [exact Hn |].
      intros f Hf.
      destruct (importStep_functions (fst acc) x t (snd acc))
        as (new & E & Hnew).
      rewrite E in Hf. apply in_app_or in Hf as [Hf | Hf]; [auto |].
      rewrite Forall_forall in Hnew. right. right. exists x, t.
      split; [exact Hin |].
      unfold importStubOf, legalImportOf in *.
      rewrite <- (@legalImportFor_channel _ _ x t Hg Hn). apply Hnew, Hf.
    - cbn [fst snd]. split; [reflexivity |]. split; [reflexivity |].
      intros f Hf. simpl in Hf. rewrite E2 in Hf.
      apply in_app_or in Hf as [Hf | Hf]; [left; exact Hf |].
      right. left. rewrite Forall_forall in Hearly. apply Hearly, Hf. }
  rewrite E3. apply HP.
Qed.

Lemma makeLegalStubForCalledImport_params_targets ps :
  forall operands typeParams funcParams,
    flat_map callTargets operands = [] ->
    flat_map callTargets
      (fst (fst (makeLegalStubForCalledImport_params ps operands typeParams
                   funcParams))) = [].
Proof.
  induction ps as [| param rest IH]; intros operands typeParams funcParams H;
    simpl; [exact H |].
  destruct param; simpl; apply IH; rewrite flat_map_app, H; reflexivity.
Qed.

(** The calls of an import stub: of the legal import, and of the getter
    where the register is out of reach. *)
Lemma importStubOf_targets self im t body n :
  fn_body (importStubOf self im t) = Some body ->
  In n (callTargets body) ->
  n = legalimport (fn_name im)
  \/ (hasGlobal self = false /\ n = getTempRet0 self).
Proof.
  unfold importStubOf, legalImportFor.
  pose proof (@makeLegalStubForCalledImport_params_targets (ft_params t)
                [] [] [] eq_refl) as Hops.
  destruct (makeLegalStubForCalledImport_params (ft_params t) [] [] [])
    as [[ops tp] fp].
  simpl in Hops.
  destruct (Type_eqb (ft_result t) i64);
    [| destruct (Type_eqb (ft_result t) f32)];
    simpl; intros H; injection H as <-; simpl; rewrite Hops; simpl.
  - destruct (hasGlobal self); simpl.
    + intros [<- | []]. left. reflexivity.
    + intros [<- | [<- | []]]; [left | right]; auto.
  - intros [<- | []]. left. reflexivity.
  - intros [<- | []]. left. reflexivity.
Qed.

Lemma legalfunc_inj a b : legalfunc a = legalfunc b -> a = b.
Proof. unfold legalfunc. simpl. intros H. injection H. auto. Qed.

Lemma legalstub_not_legalfunc a b : legalstub a <> legalfunc b.
Proof. unfold legalstub, legalfunc. simpl. discriminate. Qed.

Lemma legalimport_not_self n : legalimport n <> n.
Proof.
  intros H. apply (f_equal String.length) in H.
  unfold legalimport in H. simpl in H. lia.
Qed.

(** X14: after a run no call names a removed import.  Provided no
    function carries the stub name legalfunc$... of an illegal import
    and the getter the stubs call, where they call one, is not itself
    an illegal import, no call in the body of any function of the
    module after the run targets the name of an illegal import of the
    module the run started from. *)
Theorem run_no_call_of_removed m m' :
  stubNamesFree m -> getterKept m ->
  run m = Done m' ->
  forall f body n,
    In f (functions m') -> fn_body f = Some body ->
    In n (callTargets body) ->
    illegalImportName m n = false.
Proof.
  intros Hfree Hgetter Hrun f body n Hin Hbody Hn.
  apply run_phases in Hrun as (self1 & m1 & exs & m2 & self3 & m3 & Hph).
  pose proof (phases_functions Hph) as Hforms.
  pose proof (fun name => phases_fixTarget name Hph) as Hfix.
  assert (H1 : ensureTempRet0Helpers newPass m = Done (self1, m1))
    by apply Hph.
  destruct Hph as (_ & _ & _ & ->).
  rewrite finish_list in Hin.
  apply in_map_iff in Hin as (f0 & <- & Hin0).
  apply removeAll_In in Hin0. simpl in Hbody.
  destruct (fn_body f0) as [b0 |] eqn:Eb; [| discriminate].
  simpl in Hbody. injection Hbody as <-.
  rewrite callTargets_renameCalls in Hn.
  apply in_map_iff in Hn as (t0 & <- & Ht0).
  rewrite Hfix.
  assert (Hstub : forall k,
             illegalImportName m k = true ->
             illegalImportName m (legalfunc k) = false).
  { intros k Hk.
    destruct (illegalImportName m (legalfunc k)) eqn:E; [| reflexivity].
    apply illegalImportName_elim in E as (x & Hx & Hname & _).
    pose proof (Hfree k Hk) as Hnone.
    apply getFunctionOrNull_None in Hnone. exfalso. apply Hnone.
    unfold functionNames. rewrite <- Hname. apply in_map, Hx. }
  destruct (illegalImportName m t0) eqn:Ekey; [| exact Ekey].
  destruct (String.eqb_spec (legalfunc t0) (fn_name f0)) as [Ename | _];
    [| apply Hstub, Ekey].
  exfalso.
  destruct (Hforms f0 Hin0)
    as [Hm | [[-> | [-> | (func & ->)]] | (x & t & Hx & [-> | ->])]].
  - pose proof (Hfree t0 Ekey) as Hnone.
    apply getFunctionOrNull_None in Hnone. apply Hnone.
    unfold functionNames. rewrite Ename. apply in_map, Hm.
  - discriminate.
  - discriminate.
  - rewrite legalStubFor_name in Ename.
    exact (legalstub_not_legalfunc (eq_sym Ename)).
  - destruct (legalImportFor_names self1 x t) as (_ & _ & Hname).
    rewrite Hname in Ename.
    apply legalfunc_inj in Ename.
    destruct (@importStubOf_targets _ _ _ _ _ Eb Ht0) as [E | [Hg E]].
    + rewrite <- Ename in E. exact (legalimport_not_self (eq_sym E)).
    + pose proof (Hgetter _ _ H1 Hg) as Hk. congruence.
  - destruct (legalImportFor_names self1 x t) as (_ & Hname & _).
    rewrite Hname in Ename.
    exact (legalfunc_not_legalimport Ename).
Qed.

Lemma run_no_call_of_removed_witness :
  exists m',
    run tabledImport = Done m'
    /\ forall f body n,
         In f (functions m') -> fn_body f = Some body ->
         In n (callTargets body) ->
         illegalImportName tabledImport n = false.
Proof.
  assert (H : exists m', run tabledImport = Done m')
    by (eexists; vm_compute; reflexivity).
  destruct H as (m' & Hrun).
  exists m'. split; [exact Hrun |].
  apply (@run_no_call_of_removed tabledImport m').
  - intros n Hn.
    apply illegalImportName_elim in Hn as (x & [<- | [<- | []]] & <- & Hi);
      [reflexivity | discriminate].
  - intros self m1 H Hg. vm_compute in H. injection H as <- _.
    discriminate.
  - exact Hrun.
Defined.

(** Where the getter the stubs call is an illegal import itself, its
    own stub keeps calling it, and the call is left without a target. *)
Example getter_call_dangles :
  exists m' stub,
    run illegalGetter = Done m'
    /\ getFunctionOrNull m' (legalfunc "g") = Some stub
    /\ option_map callTargets (fn_body stub) = Some [legalimport "g"; "g"]
    /\ getFunctionOrNull m' "g" = None.
Proof.
  eexists. eexists. split; [vm_compute; reflexivity |].
  split; [reflexivity |]. split; reflexivity.
Qed.

(** ** A run: what is made for an illegal import *)

Lemma legalTypeOf_self s s' im t : legalTypeOf s im t = legalTypeOf s' im t.
Proof.
  unfold legalTypeOf, legalImportFor.
  destruct (makeLegalStubForCalledImport_params (ft_params t) [] [] [])
    as [[ops tp] fp].
  destruct (Type_eqb (ft_result t) i64);
    [| destruct (Type_eqb (ft_result t) f32)]; reflexivity.
Qed.

Lemma legalImportOf_self s s' im t :
  legalImportOf s im t = legalImportOf s' im t.
Proof.
  unfold legalImportOf, legalImportFor.
  destruct (makeLegalStubForCalledImport_params (ft_params t) [] [] [])
    as [[ops tp] fp].
  destruct (Type_eqb (ft_result t) i64);
    [| destruct (Type_eqb (ft_result t) f32)]; reflexivity.
Qed.

Lemma importStubOf_channel s s' im t :
  hasGlobal s = hasGlobal s' -> getTempRet0 s = getTempRet0 s' ->
  importStubOf s im t = importStubOf s' im t.
Proof.
  intros Hg Hn. unfold importStubOf.
  rewrite (@legalImportFor_channel s s' im t Hg Hn). reflexivity.
Qed.

(** What a stretch of the import loop appends. *)
Lemma fold_importStepOf_forms m0 xs acc0 :
  Forall (fun x => illegalImport m0 x = true) xs ->
  hasGlobal (fst (fold_left (importStepOf m0) xs acc0))
  = hasGlobal (fst acc0)
  /\ getTempRet0 (fst (fold_left (importStepOf m0) xs acc0))
     = getTempRet0 (fst acc0)
  /\ (exists added,
         functions (snd (fold_left (importStepOf m0) xs acc0))
         = functions (snd acc0) ++ added
         /\ Forall
              (fun f =>
                 exists y t,
                   In y xs
                   /\ (f = importStubOf (fst acc0) y t
                       \/ f = legalImportOf (fst acc0) y t))
              added)
  /\ (exists addedT,
         functionTypes (snd (fold_left (importStepOf m0) xs acc0))
         = functionTypes (snd acc0) ++ addedT
         /\ Forall
              (fun ty =>
                 exists y t, In y xs /\ ty = legalTypeOf (fst acc0) y t)
              addedT).
Proof.
  intros Hall.
  set (P := fun acc : LegalizeJSInterface * Module =>
              hasGlobal (fst acc) = hasGlobal (fst acc0)
              /\ getTempRet0 (fst acc) = getTempRet0 (fst acc0)
              /\ (exists added,
                     functions (snd acc) = functions (snd acc0) ++ added
                     /\ Forall
                          (fun f =>
                             exists y t,
                               In y xs
                               /\ (f = importStubOf (fst acc0) y t
                                   \/ f = legalImportOf (fst acc0) y t))
                          added)
              /\ (exists addedT,
                     functionTypes (snd acc)
                     = functionTypes (snd acc0) ++ addedT
                     /\ Forall
                          (fun ty =>
                             exists y t,
                               In y xs /\ ty = legalTypeOf (fst acc0) y t)
                          addedT)).
  change (P (fold_left (importStepOf m0) xs acc0)).
  apply (@fold_importStepOf_ind m0 P xs Hall); unfold P.
  - intros acc x t Hin _ _ _ (Hg & Hn & (added & Ef & Hadded)
                              & (addedT & Et & HaddedT)).
    cbn [fst snd]. split; [exact Hg |]. split; [exact Hn |]. split.
    + rewrite importStep_list, Ef, <- app_assoc.
      eexists. split; [reflexivity |].
      apply Forall_app. split; [exact Hadded |].
      apply Forall_app. split.
      * destruct (isSome _); constructor; [| constructor].
        exists x, t. split; [exact Hin |]. left.
        apply importStubOf_channel; assumption.
      * destruct (isSome _); constructor; [| constructor].
        exists x, t. split; [exact Hin |]. right.
        apply legalImportOf_self.
    + rewrite importStep_types, Et, <- app_assoc.
      eexists. split; [reflexivity |].
      apply Forall_app. split; [exact HaddedT |].
      destruct (isSome _); constructor; [| constructor].
      exists x, t. split; [exact Hin |]. apply legalTypeOf_self.
  - split; [reflexivity |]. split; [reflexivity |].
    split; exists []; rewrite app_nil_r; split; auto.
Qed.

Lemma find_none_all A (p : A -> bool) l :
  (forall x, In x l -> p x = false) -> find p l = None.
Proof.
  induction l as [| a l IH]; simpl; [reflexivity |].
  intros H. rewrite (H a (or_introl eq_refl)).
  apply IH. intros x Hx. apply H. right. exact Hx.
Qed.

Lemma legaltype_inj a b : legaltype a = legaltype b -> a = b.
Proof. unfold legaltype. simpl. intros H. injection H. auto. Qed.

(** The loop makes the three entities of an illegal import whose
    derived names were free, and later steps leave them in place. *)
Lemma fold_importStepOf_makes m0 xs acc0 x t :
  Forall (fun x => illegalImport m0 x = true) xs ->
  NoDup (map fn_name xs) ->
  In x xs -> typeOf m0 x = Some t ->
  findNamed (legalfunc (fn_name x)) (functions (snd acc0)) = None ->
  findNamed (legalimport (fn_name x)) (functions (snd acc0)) = None ->
  getFunctionTypeOrNull (snd acc0) (legaltype (fn_name x)) = None ->
  findNamed (legalfunc (fn_name x))
    (functions (snd (fold_left (importStepOf m0) xs acc0)))
  = Some (importStubOf (fst acc0) x t)
  /\ findNamed (legalimport (fn_name x))
       (functions (snd (fold_left (importStepOf m0) xs acc0)))
     = Some (legalImportOf (fst acc0) x t)
  /\ getFunctionTypeOrNull (snd (fold_left (importStepOf m0) xs acc0))
       (legaltype (fn_name x))
     = Some (legalTypeOf (fst acc0) x t).
Proof.
  intros Hall Hnd Hin Ht Hf1 Hf2 Hf3.
  apply in_split in Hin as (xs1 & xs2 & ->).
  rewrite fold_left_app. cbn [fold_left].
  apply Forall_app in Hall as [Hall1 Hall2].
  inversion Hall2 as [| x' xs' Hx Hall2']; subst x' xs'.
  rewrite map_app in Hnd. cbn [map] in Hnd.
  apply NoDup_remove_2 in Hnd.
  assert (Hfresh : forall y, In y xs1 -> fn_name y <> fn_name x).
  { intros y Hy E. apply Hnd. apply in_or_app. left.
    rewrite <- E. apply in_map, Hy. }
  destruct (@fold_importStepOf_forms m0 xs1 acc0 Hall1)
    as (Hg1 & Hn1 & (added & Ef & Hadded) & (addedT & Et & HaddedT)).
  set (acc1 := fold_left (importStepOf m0) xs1 acc0) in *.
  rewrite Forall_forall in Hadded, HaddedT.
  assert (F1 : findNamed (legalfunc (fn_name x)) (functions (snd acc1))
               = None).
  { rewrite Ef, findNamed_app, Hf1. apply findNamed_None.
    intros Hin. apply in_map_iff in Hin as (f & Hname & Hf).
    destruct (Hadded f Hf) as (y & ty & Hy & [-> | ->]).
    - rewrite (proj2 (proj2 (legalImportFor_names _ y ty))) in Hname.
      apply legalfunc_inj in Hname. exact (Hfresh y Hy Hname).
    - rewrite (proj1 (proj2 (legalImportFor_names _ y ty))) in Hname.
      exact (legalfunc_not_legalimport (eq_sym Hname)). }
  assert (F2 : findNamed (legalimport (fn_name x)) (functions (snd acc1))
               = None).
  { rewrite Ef, findNamed_app, Hf2. apply findNamed_None.
    intros Hin. apply in_map_iff in Hin as (f & Hname & Hf).
    destruct (Hadded f Hf) as (y & ty & Hy & [-> | ->]).
    - rewrite (proj2 (proj2 (legalImportFor_names _ y ty))) in Hname.
      exact (legalfunc_not_legalimport Hname).
    - rewrite (proj1 (proj2 (legalImportFor_names _ y ty))) in Hname.
      apply legalimport_inj in Hname. exact (Hfresh y Hy Hname). }
  assert (F3 : getFunctionTypeOrNull (snd acc1) (legaltype (fn_name x))
               = None).
  { unfold getFunctionTypeOrNull in *. rewrite Et, find_app, Hf3.
    apply find_none_all. intros ty Hty.
    destruct (HaddedT ty Hty) as (y & ty' & Hy & ->).
    rewrite (proj1 (legalImportFor_names _ y ty')).
    apply String.eqb_neq. intros E. apply legaltype_inj in E.
    exact (Hfresh y Hy E). }
  set (acc2 := (set_map (fst acc1)
                  (map_set (fn_name x) (legalfunc (fn_name x))
                     (illegalImportsToLegal (fst acc1))),
                importStep (fst acc1) x t (snd acc1))).
  assert (Estep : importStepOf m0 acc1 x = acc2)
    by (unfold importStepOf; rewrite Ht; reflexivity).
  rewrite Estep.
  destruct (legalImportFor_names (fst acc1) x t) as (Hn1' & Hn2' & Hn3').
  assert (E2 : functions (snd acc2)
               = functions (snd acc1)
                 ++ [importStubOf (fst acc1) x t;
                     legalImportOf (fst acc1) x t]).
  { unfold acc2. cbn [snd]. rewrite importStep_list.
    rewrite !getFunctionOrNull_findNamed, F1, F2. reflexivity. }
  assert (T2 : functionTypes (snd acc2)
               = functionTypes (snd acc1) ++ [legalTypeOf (fst acc1) x t]).
  { unfold acc2. cbn [snd]. rewrite importStep_types, F3. reflexivity. }
  destruct (@fold_importStepOf_forms m0 xs2 acc2 Hall2')
    as (_ & _ & (added2 & Ef2 & _) & (addedT2 & Et2 & _)).
  rewrite Ef2. unfold getFunctionTypeOrNull. rewrite Et2.
  rewrite <- (@importStubOf_channel _ _ x t Hg1 Hn1).
  rewrite (legalImportOf_self (fst acc0) (fst acc1)).
  rewrite (legalTypeOf_self (fst acc0) (fst acc1)).
  split; [| split].
  - apply findNamed_extends. rewrite E2, findNamed_app, F1.
    unfold findNamed. simpl. rewrite Hn3', String.eqb_refl. reflexivity.
  - apply findNamed_extends. rewrite E2, findNamed_app, F2.
    unfold findNamed. simpl. rewrite Hn3', Hn2', String.eqb_refl.
    destruct (String.eqb_spec (legalfunc (fn_name x))
                (legalimport (fn_name x))) as [E | _]; [| reflexivity].
    exfalso. exact (legalfunc_not_legalimport E).
  - rewrite find_app, T2, find_app.
    unfold getFunctionTypeOrNull in F3. rewrite F3. simpl.
    rewrite Hn1', String.eqb_refl. reflexivity.
Qed.

Lemma map_fixed_all (r : Name -> Name) (f : Expression -> Expression) l :
  list_all
    (fun x => (forall k, In k (callTargets x) -> r k = k) -> f x = x) l ->
  (forall k, In k (flat_map callTargets l) -> r k = k) ->
  map f l = l.
Proof.
  induction 1 as [| x Hx l Hl IH]; intros H; simpl; [reflexivity |].
  rewrite Hx, IH; [reflexivity | |];
    intros k Hk; apply H; simpl; apply in_or_app; auto.
Qed.

(** A renaming that fixes every call target of an expression leaves the
    expression as it is. *)
Lemma renameCalls_fixed r e :
  (forall k, In k (callTargets e) -> r k = k) -> renameCalls r e = e.
Proof.
  induction e as
    [ | | l IHl | c IHc t IHt o IHo | b IHb | target ops IHops ty
    | ft ops IHops target IHt | i t | i v IHv | n t | n v IHv | v
    | op v IHv | op a IHa b IHb | v IHv | o IHo ];
    simpl; intros H; try reflexivity.
  - rewrite (@map_fixed_all r _ _ IHl H). reflexivity.
  - rewrite IHc, IHt.
    + destruct IHo as [o Ho |]; simpl; [| reflexivity].
      rewrite Ho; [reflexivity |].
      intros k Hk. apply H. simpl. apply in_or_app. right.
      apply in_or_app. right. exact Hk.
    + intros k Hk. apply H. apply in_or_app. right.
      apply in_or_app. left. exact Hk.
    + intros k Hk. apply H. apply in_or_app. left. exact Hk.
  - rewrite IHb; [reflexivity | exact H].
  - rewrite H by (apply in_or_app; right; left; reflexivity).
    rewrite (@map_fixed_all r _ _ IHops); [reflexivity |].
    intros k Hk. apply H. apply in_or_app. left. exact Hk.
  - rewrite IHt, (@map_fixed_all r _ _ IHops); [reflexivity | |];
      intros k Hk; apply H; apply in_or_app; auto.
  - rewrite IHv; [reflexivity | exact H].
  - rewrite IHv; [reflexivity | exact H].
  - rewrite IHv; [reflexivity | exact H].
  - rewrite IHa, IHb; [reflexivity | |];
      intros k Hk; apply H; apply in_or_app; auto.
  - rewrite IHv; [reflexivity | exact H].
  - destruct IHo as [o Ho |]; simpl; [| reflexivity].
    rewrite Ho; [reflexivity | exact H].
Qed.

Lemma NoDup_map_filter A B (f : A -> B) (p : A -> bool) l :
  NoDup (map f l) -> NoDup (map f (filter p l)).
Proof.
  induction l as [| a l IH]; simpl; intros H; [constructor |].
  inversion H as [| b bs Hnot Hrest]; subst.
  destruct (p a); simpl; [| apply IH, Hrest].
  constructor; [| apply IH, Hrest].
  intros Hin. apply Hnot. apply in_map_iff in Hin as (y & E & Hy).
  apply filter_In in Hy as [Hy _]. rewrite <- E. apply in_map, Hy.
Qed.

Lemma earlyFunction_not_legalfunc self f b :
  earlyFunction self f -> fn_name f <> legalfunc b.
Proof.
  intros [-> | [-> | (func & ->)]].
  - unfold legalfunc. simpl. intros H. inversion H.
  - unfold legalfunc. simpl. intros H. inversion H.
  - rewrite legalStubFor_name. apply legalstub_not_legalfunc.
Qed.

Lemma legalImportOf_body self im t : fn_body (legalImportOf self im t) = None.
Proof.
  unfold legalImportOf, legalImportFor.
  destruct (makeLegalStubForCalledImport_params (ft_params t) [] [] [])
    as [[ops tp] fp].
  destruct (Type_eqb (ft_result t) i64);
    [| destruct (Type_eqb (ft_result t) f32)]; reflexivity.
Qed.

(** Looking a function up after the last phase, under a name that is
    not a key of the map. *)
Lemma finish_find self m k :
  ~ In k (map_keys (illegalImportsToLegal self)) ->
  getFunctionOrNull (finish self m) k
  = option_map
      (fun f =>
         set_body f
           (option_map
              (renameCalls
                 (fixTarget (illegalImportsToLegal self) (fn_name f)))
              (fn_body f)))
      (getFunctionOrNull m k).
Proof.
  intros Hk. rewrite !getFunctionOrNull_findNamed, finish_list.
  rewrite findNamed_map by reflexivity.
  rewrite removeAll_findNamed by exact Hk. reflexivity.
Qed.

(** X15: what a run leaves behind for an illegal import.  In a module
    with unique function names, for an illegal import whose three
    derived names are free, the module after the run has, under the
    name legalfunc$..., the stub built for the import with the channel
    the resolver resolved; under legalimport$..., the legal import;
    under legaltype$..., the legal function type; and no function
    imported under the import's own name.  (The getter the stubs call,
    where they call one, is assumed not to be an illegal import
    itself.) *)
Theorem run_import_stubs m m' x t :
  uniqueFunctionNames m -> getterKept m ->
  run m = Done m' ->
  In x (functions m) -> illegalImport m x = true -> typeOf m x = Some t ->
  getFunctionOrNull m (legalfunc (fn_name x)) = None ->
  getFunctionOrNull m (legalimport (fn_name x)) = None ->
  getFunctionTypeOrNull m (legaltype (fn_name x)) = None ->
  exists self m1,
    ensureTempRet0Helpers newPass m = Done (self, m1)
    /\ getFunctionOrNull m' (legalfunc (fn_name x))
       = Some (importStubOf self x t)
    /\ getFunctionOrNull m' (legalimport (fn_name x))
       = Some (legalImportOf self x t)
    /\ getFunctionTypeOrNull m' (legaltype (fn_name x))
       = Some (legalTypeOf self x t)
    /\ (forall f,
           In f (functions m') -> fn_name f = fn_name x ->
           imported f = false).
Proof.
  intros Huniq Hgetter Hrun Hx Hillegal Ht Hf1 Hf2 Hf3.
  apply run_phases in Hrun as (self1 & m1 & exs & m2 & self3 & m3 & Hph).
  destruct (phases_loop Hph) as (Hall & Hfold & _ & Et & extra & E2 & Hearly).
  destruct (phases_all Hph) as (_ & _ & _ & _ & Etm & _ & _ & Hfirst).
  pose proof (fun name => phases_fixTarget name Hph) as Hfix.
  pose proof (phases_map Hph) as Hmap.
  assert (H1 : ensureTempRet0Helpers newPass m = Done (self1, m1))
    by apply Hph.
  destruct Hph as (_ & _ & _ & ->).
  exists self1, m1. split; [exact H1 |].
  assert (Hnokey : forall k,
             getFunctionOrNull m k = None ->
             illegalImportName m k = false).
  { intros k Hk. destruct (illegalImportName m k) eqn:E; [| reflexivity].
    apply illegalImportName_elim in E as (y & Hy & Hname & _).
    apply getFunctionOrNull_None in Hk. exfalso. apply Hk.
    unfold functionNames. rewrite <- Hname. apply in_map, Hy. }
  assert (Hnotin : forall k,
             getFunctionOrNull m k = None ->
             ~ In k (map_keys (illegalImportsToLegal self3))).
  { intros k Hk Hin. apply (proj1 (Hmap k)) in Hin.
    rewrite (Hnokey k Hk) in Hin. discriminate. }
  rewrite Forall_forall in Hearly.
  destruct (@fold_importStepOf_makes (set_exports m2 exs) (illegalImports m)
              (self1, set_exports m2 exs) x t Hall)
    as (S1 & S2 & S3).
  { apply NoDup_map_filter, Huniq. }
  { apply filter_In. split; assumption. }
  { rewrite <- Ht. apply typeOf_ext. simpl. exact Et. }
  { cbn [snd functions set_exports]. rewrite E2, findNamed_app.
    rewrite <- getFunctionOrNull_findNamed, Hf1.
    apply findNamed_None. intros Hin.
    apply in_map_iff in Hin as (f & Hname & Hf).
    exact (earlyFunction_not_legalfunc (Hearly f Hf) Hname). }
  { cbn [snd functions set_exports]. rewrite E2, findNamed_app.
    rewrite <- getFunctionOrNull_findNamed, Hf2.
    apply findNamed_None. intros Hin.
    apply in_map_iff in Hin as (f & Hname & Hf).
    exact (earlyFunction_not_legalimport (Hearly f Hf) Hname). }
  { unfold getFunctionTypeOrNull in *. cbn [snd functionTypes set_exports].
    rewrite Et. exact Hf3. }
  rewrite <- Hfold in S1, S2, S3. cbn [fst snd] in S1, S2, S3.
  rewrite <- getFunctionOrNull_findNamed in S1, S2.
  split; [| split; [| split]].
  - rewrite finish_find by (apply Hnotin, Hf1).
    rewrite S1. simpl. f_equal.
    transitivity (set_body (importStubOf self1 x t)
                    (fn_body (importStubOf self1 x t)));
      [| apply set_body_same].
    f_equal.
    destruct (fn_body (importStubOf self1 x t)) as [b |] eqn:Eb;
      [| reflexivity].
    simpl. f_equal. apply renameCalls_fixed. intros k Hk.
    rewrite Hfix.
    destruct (@importStubOf_targets _ _ _ _ _ Eb Hk) as [-> | [Hg ->]].
    + rewrite (Hnokey _ Hf2). reflexivity.
    + rewrite (Hgetter _ _ H1 Hg). reflexivity.
  - rewrite finish_find by (apply Hnotin, Hf2).
    rewrite S2. simpl. f_equal.
    rewrite legalImportOf_body. simpl.
    rewrite <- (legalImportOf_body self1 x t). apply set_body_same.
  - unfold getFunctionTypeOrNull in *.
    rewrite (proj1 (finish_fields self3 m3)). exact S3.
  - intros f Hf Hname.
    rewrite finish_list in Hf.
    apply in_map_iff in Hf as (f0 & <- & Hf0).
    simpl in Hname |- *.
    change (imported f0 = false).
    destruct (imported f0) eqn:Ei; [| reflexivity].
    exfalso.
    destruct (@importsFirst_removeAll
                (map_keys (illegalImportsToLegal self3)) (functions m3)
                (Hfirst Huniq)) as [_ Hgone].
    apply (Hgone f0 Hf0 Ei). rewrite Hname.
    apply (proj1 (Hmap (fn_name x))).
    apply illegalImportName_intro; assumption.
Qed.

Lemma run_import_stubs_witness :
  exists m' self m1,
    run tabledImport = Done m'
    /\ ensureTempRet0Helpers newPass tabledImport = Done (self, m1)
    /\ getFunctionOrNull m' (legalfunc "x")
       = Some (importStubOf self (import "x" "t" [i64] f32 ENV "a")
                 {| ft_name := "t"; ft_params := [i64]; ft_result := f32 |})
    /\ getFunctionOrNull m' "x" = None.
Proof.
  assert (H : exists m', run tabledImport = Done m')
    by (eexists; vm_compute; reflexivity).
  destruct H as (m' & Hrun).
  destruct (@run_import_stubs tabledImport m'
              (import "x" "t" [i64] f32 ENV "a")
              {| ft_name := "t"; ft_params := [i64]; ft_result := f32 |})
    as (self & m1 & H1 & Hs & _).
  - unfold uniqueFunctionNames. simpl.
    repeat constructor; simpl; intuition discriminate.
  - intros self m1 H Hg. vm_compute in H. injection H as <- _.
    discriminate.
  - exact Hrun.
  - left. reflexivity.
  - reflexivity.
  - reflexivity.
  - reflexivity.
  - reflexivity.
  - reflexivity.
  - exists m', self, m1. split; [exact Hrun |]. split; [exact H1 |].
    split; [exact Hs |].
    vm_compute in Hrun. injection Hrun as <-. reflexivity.
Defined.

(** ** A run: names stay unique *)

Lemma NoDup_names_snoc fs f :
  NoDup (map fn_name fs) -> findNamed (fn_name f) fs = None ->
  NoDup (map fn_name (fs ++ [f])).
Proof.
  intros Hnd Hnone. rewrite map_app. simpl.
  apply NoDup_app; [exact Hnd | repeat constructor; intros [] |].
  intros n Hin [<- | []]. apply findNamed_None in Hnone. exact (Hnone Hin).
Qed.

Lemma addFunctionIfAbsent_unique m f :
  uniqueFunctionNames m -> uniqueFunctionNames (addFunctionIfAbsent m f).
Proof.
  unfold uniqueFunctionNames, functionNames, addFunctionIfAbsent.
  intros H. destruct (getFunctionOrNull m (fn_name f)) eqn:E; [exact H |].
  simpl. apply NoDup_names_snoc; [exact H |].
  rewrite <- getFunctionOrNull_findNamed. exact E.
Qed.

Lemma legalizeExports_unique self exs :
  forall m exs' m',
    legalizeExports self exs m = Done (exs', m') ->
    uniqueFunctionNames m -> uniqueFunctionNames m'.
Proof.
  induction exs as [| ex rest IH]; intros m exs' m' Hrun Hu.
  - simpl in Hrun. injection Hrun as _ <-. exact Hu.
  - destruct (legalizeExports_cons _ _ _ _ Hrun)
      as (ex' & m1 & rest' & _ & Hrest & Hcase).
    apply (IH m1 rest' m' Hrest).
    destruct Hcase as [(_ & func & _ & _ & -> & _)
                      | [(_ & func & _ & _ & -> & _) | (_ & -> & _)]];
      try exact Hu.
    destruct (makeLegalStub_functions self func m) as [[-> _] | [-> Hnone]];
      [exact Hu |].
    unfold uniqueFunctionNames, functionNames. simpl.
    apply NoDup_names_snoc; [exact Hu |].
    rewrite legalStubFor_name, <- getFunctionOrNull_findNamed. exact Hnone.
Qed.

Lemma importStep_unique self im t m :
  uniqueFunctionNames m -> uniqueFunctionNames (importStep self im t m).
Proof.
  intros H. unfold importStep.
  change (uniqueFunctionNames
            (addFunctionIfAbsent
               (addFunctionTypeIfAbsent
                  (addFunctionIfAbsent m (importStubOf self im t))
                  (legalTypeOf self im t))
               (legalImportOf self im t))).
  apply addFunctionIfAbsent_unique.
  unfold uniqueFunctionNames, functionNames.
  rewrite (proj1 (addFunctionTypeIfAbsent_fields _ _)).
  apply addFunctionIfAbsent_unique, H.
Qed.

Lemma importStep_uniqueTypes self im t m :
  uniqueTypeNames m -> uniqueTypeNames (importStep self im t m).
Proof.
  unfold uniqueTypeNames. intros H. rewrite importStep_types.
  destruct (getFunctionTypeOrNull m (legaltype (fn_name im))) eqn:E; simpl.
  - rewrite app_nil_r. exact H.
  - rewrite map_app. simpl.
    apply NoDup_app; [exact H | repeat constructor; intros [] |].
    intros n Hin [<- | []].
    apply in_map_iff in Hin as (ty & Hname & Hty).
    unfold getFunctionTypeOrNull in E.
    apply (find_none _ _ E) in Hty.
    rewrite Hname, (proj1 (legalImportFor_names self im t)) in Hty.
    rewrite String.eqb_refl in Hty. discriminate.
Qed.

Lemma removeFirst_unique k fs :
  NoDup (map fn_name fs) -> NoDup (map fn_name (removeFirst k fs)).
Proof.
  induction fs as [| f fs IH]; simpl; intros H; [constructor |].
  inversion H as [| n ns Hnot Hrest]; subst.
  destruct (String.eqb (fn_name f) k); [exact Hrest |].
  simpl. constructor; [| apply IH, Hrest].
  intros Hin. apply Hnot. exact (removeFirst_names _ _ _ Hin).
Qed.

Lemma removeAll_unique names :
  forall fs,
    NoDup (map fn_name fs) -> NoDup (map fn_name (removeAll names fs)).
Proof.
  induction names as [| k names IH]; intros fs H; [exact H |].
  simpl. apply IH, removeFirst_unique, H.
Qed.

(** X16: a run never puts two functions, or two function types, under
    one name.  When the function names of the module are unique and,
    where the channel has to be created, no function is named
    getTempRet0 or setTempRet0 yet, the function names after the run are
    unique; when the names of the function types are unique, they are
    unique after the run. *)
Theorem run_unique_names m m' :
  run m = Done m' ->
  (uniqueFunctionNames m ->
   bothImported m \/ bothExported m
   \/ (getFunctionOrNull m GET_TEMP_RET_0 = None
       /\ getFunctionOrNull m SET_TEMP_RET_0 = None) ->
   uniqueFunctionNames m')
  /\ (uniqueTypeNames m -> uniqueTypeNames m').
Proof.
  intros Hrun.
  apply run_phases in Hrun as (self1 & m1 & exs & m2 & self3 & m3 & Hph).
  destruct (phases_loop Hph) as (Hall & Hfold & _ & Et & _).
  destruct (phases_all Hph) as (_ & _ & _ & _ & Etm & _).
  assert (E3 : m3 = snd (fold_left (importStepOf (set_exports m2 exs))
                            (illegalImports m) (self1, set_exports m2 exs)))
    by (rewrite <- Hfold; reflexivity).
  destruct Hph as (H1 & H2 & _ & ->).
  split.
  - intros Hu Hchannel.
    assert (Hu1 : uniqueFunctionNames m1).
    { destruct (getImportedFunction m ENV GET_TEMP_RET_0) as [ig |] eqn:Eig,
        (getImportedFunction m ENV SET_TEMP_RET_0) as [is_ |] eqn:Eis;
        try (unfold ensureTempRet0Helpers in H1; rewrite Eig, Eis in H1;
             discriminate).
      - rewrite (ensureTempRet0Helpers_imported newPass _ Eig Eis) in H1.
        injection H1 as _ <-. exact Hu.
      - destruct (getExportOrNull m GET_TEMP_RET_0) as [eg |] eqn:Eeg,
          (getExportOrNull m SET_TEMP_RET_0) as [es |] eqn:Ees;
          try (unfold ensureTempRet0Helpers in H1;
               rewrite Eig, Eis, Eeg, Ees in H1; discriminate).
        + rewrite (ensureTempRet0Helpers_exported newPass _ Eig Eis Eeg Ees)
            in H1.
          injection H1 as _ <-. exact Hu.
        + rewrite (ensureTempRet0Helpers_created newPass _ Eig Eis Eeg Ees)
            in H1.
          injection H1 as _ <-.
          destruct Hchannel as [[Hc _] | [[Hc _] | [Hg Hs]]];
            try (exfalso; apply Hc; assumption).
          unfold uniqueFunctionNames, functionNames, withChannel. simpl.
          rewrite map_app. simpl.
          apply NoDup_app; [exact Hu | |].
          * repeat constructor; simpl; intuition discriminate.
          * apply getFunctionOrNull_None in Hg, Hs.
            intros n Hin [<- | [<- | []]]; [exact (Hg Hin) | exact (Hs Hin)]. }
    assert (Hu2 : uniqueFunctionNames m2)
      by (eapply legalizeExports_unique; [exact H2 | exact Hu1]).
    assert (Hu3 : uniqueFunctionNames m3).
    { rewrite E3.
      apply (@fold_importStepOf_ind (set_exports m2 exs)
               (fun acc => uniqueFunctionNames (snd acc))
               (illegalImports m) Hall).
      - intros acc x t _ _ _ _ Hacc. cbn [snd].
        apply importStep_unique, Hacc.
      - exact Hu2. }
    unfold uniqueFunctionNames, functionNames. rewrite finish_list.
    rewrite map_map. simpl.
    apply removeAll_unique, Hu3.
  - intros Hu. unfold uniqueTypeNames. rewrite Etm, E3.
    apply (@fold_importStepOf_ind (set_exports m2 exs)
             (fun acc => uniqueTypeNames (snd acc))
             (illegalImports m) Hall).
    + intros acc x t _ _ _ _ Hacc. cbn [snd].
      apply importStep_uniqueTypes, Hacc.
    + unfold uniqueTypeNames. simpl. rewrite Et. exact Hu.
Qed.

Lemma run_unique_names_witness :
  exists m',
    run tabledImport = Done m'
    /\ uniqueFunctionNames m' /\ uniqueTypeNames m'.
Proof.
  assert (H : exists m', run tabledImport = Done m')
    by (eexists; vm_compute; reflexivity).
  destruct H as (m' & Hrun).
  destruct (@run_unique_names tabledImport m' Hrun) as [Hf Ht].
  exists m'. split; [exact Hrun |]. split.
  - apply Hf.
    + unfold uniqueFunctionNames. simpl.
      repeat constructor; simpl; intuition discriminate.
    + right. right. split; reflexivity.
  - apply Ht. unfold uniqueTypeNames. simpl.
    repeat constructor; simpl; intuition discriminate.
Defined.

(** ** A run: the order of the functions *)

Lemma filter_all A (p : A -> bool) l :
  (forall x, In x l -> p x = true) -> filter p l = l.
Proof.
  induction l as [| a l IH]; simpl; intros H; [reflexivity |].
  rewrite (H a (or_introl eq_refl)). f_equal.
  apply IH. intros x Hx. apply H. right. exact Hx.
Qed.

Lemma removeFirst_filter k fs :
  NoDup (map fn_name fs) ->
  removeFirst k fs = filter (fun f => negb (String.eqb (fn_name f) k)) fs.
Proof.
  induction fs as [| f fs IH]; simpl; intros H; [reflexivity |].
  inversion H as [| n ns Hnot Hrest]; subst.
  destruct (String.eqb_spec (fn_name f) k) as [E | _]; simpl.
  - symmetry. apply filter_all. intros g Hg.
    destruct (String.eqb_spec (fn_name g) k) as [E' | _]; [| reflexivity].
    exfalso. apply Hnot. rewrite E, <- E'. apply in_map, Hg.
  - f_equal. apply IH, Hrest.
Qed.

Lemma filter_filter A (p q : A -> bool) l :
  filter p (filter q l) = filter (fun x => q x && p x) l.
Proof.
  induction l as [| a l IH]; simpl; [reflexivity |].
  destruct (q a); simpl; [destruct (p a) |]; rewrite IH; reflexivity.
Qed.

(** Removing functions of distinct names from a list that has them all,
    the names of the list being unique, filters the list and leaves what
    follows it alone. *)
Lemma removeAll_app_filter ks :
  forall fs gs,
    NoDup ks -> NoDup (map fn_name fs) ->
    (forall k, In k ks -> In k (map fn_name fs)) ->
    removeAll ks (fs ++ gs)
    = filter (fun f => negb (existsb (String.eqb (fn_name f)) ks)) fs ++ gs.
Proof.
  induction ks as [| k ks IH]; intros fs gs Hks Hfs Hin; simpl.
  - rewrite filter_all; [reflexivity | reflexivity].
  - inversion Hks as [| k' ks' Hnot Hks']; subst.
    unfold removeAll in *. simpl.
    rewrite removeFirst_app.
    destruct (findNamed k fs) eqn:Efound.
    2: { exfalso. apply findNamed_None in Efound.
         apply Efound, Hin. left. reflexivity. }
    rewrite IH.
    + rewrite removeFirst_filter by exact Hfs. rewrite filter_filter. f_equal.
      apply filter_ext. intros g.
      rewrite (String.eqb_sym (fn_name g) k).
      destruct (String.eqb k (fn_name g)); reflexivity.
    + exact Hks'.
    + apply removeFirst_unique, Hfs.
    + intros k' Hk'.
      assert (Hne : k' <> k) by (intros ->; exact (Hnot Hk')).
      pose proof (Hin k' (or_intror Hk')) as Hin'.
      destruct (findNamed k' (removeFirst k fs)) eqn:E.
      * apply findNamed_Some in E as [Hf <-]. apply in_map, Hf.
      * rewrite removeFirst_findNamed in E by exact Hne.
        apply findNamed_None in E. contradiction.
Qed.

Lemma map_set_NoDup k v mp :
  NoDup (map_keys mp) -> NoDup (map_keys (map_set k v mp)).
Proof.
  induction mp as [| [k' v'] rest IH]; simpl; intros H.
  - repeat constructor. intros [].
  - inversion H as [| a l Hnot Hrest]; subst.
    destruct (String.eqb_spec k' k) as [-> | Hne]; simpl.
    + constructor; assumption.
    + constructor; [| apply IH, Hrest].
      intros Hin. apply map_keys_map_set in Hin as [E | Hin];
        [exact (Hne E) | exact (Hnot Hin)].
Qed.

Lemma fold_map_set_NoDup (xs : list Function) :
  forall mp,
    NoDup (map_keys mp) ->
    NoDup (map_keys
             (fold_left
                (fun mp x => map_set (fn_name x) (legalfunc (fn_name x)) mp)
                xs mp)).
Proof.
  induction xs as [| x xs IH]; intros mp H; simpl; [exact H |].
  apply IH, map_set_NoDup, H.
Qed.

Lemma NoDup_names_inj (fs : list Function) f g :
  NoDup (map fn_name fs) -> In f fs -> In g fs -> fn_name f = fn_name g ->
  f = g.
Proof.
  induction fs as [| a fs IH]; simpl; intros Hnd Hf Hg E; [contradiction |].
  inversion Hnd as [| n ns Hnot Hrest]; subst.
  destruct Hf as [-> | Hf], Hg as [-> | Hg]; auto.
  - exfalso. apply Hnot. rewrite E. apply in_map, Hg.
  - exfalso. apply Hnot. rewrite <- E. apply in_map, Hf.
Qed.

(** X17: the functions after a run, in order.  In a module with unique
    function names, the functions after the run are the functions
    before it that are not illegal imports, in their order, each with
    the calls of illegal imports in its body redirected to their stubs,
    followed by what the pass made: functions named getTempRet0,
    setTempRet0, legalstub$..., or legalfunc$... and legalimport$... of
    an illegal import. *)
Theorem run_functions_order m m' :
  uniqueFunctionNames m ->
  run m = Done m' ->
  exists made,
    functions m'
    = map (redirected m)
        (filter (fun f => negb (illegalImport m f)) (functions m))
      ++ made
    /\ Forall (fun f => madeName m (fn_name f)) made.
Proof.
  intros Huniq Hrun.
  apply run_phases in Hrun as (self1 & m1 & exs & m2 & self3 & m3 & Hph).
  destruct (phases_loop Hph)
    as (Hall & Hfold & Hempty & _ & extra & E2 & Hearly).
  pose proof (fun name => phases_fixTarget name Hph) as Hfix.
  pose proof (phases_map Hph) as Hmap.
  destruct Hph as (_ & _ & _ & ->).
  destruct (@fold_importStepOf_forms (set_exports m2 exs) (illegalImports m)
              (self1, set_exports m2 exs) Hall)
    as (_ & _ & (added & E3 & Hadded) & _).
  pose proof (@fold_importStepOf_map (set_exports m2 exs) (illegalImports m)
                (self1, set_exports m2 exs) Hall) as Ekeys.
  rewrite <- Hfold in E3, Ekeys. cbn [fst snd] in E3, Ekeys.
  simpl functions in E3. rewrite E2, <- app_assoc in E3.
  rewrite Hempty in Ekeys.
  assert (Hnd : NoDup (map_keys (illegalImportsToLegal self3))).
  { rewrite Ekeys. apply fold_map_set_NoDup. constructor. }
  set (g := fun f : Function =>
              set_body f
                (option_map
                   (renameCalls
                      (fixTarget (illegalImportsToLegal self3) (fn_name f)))
                   (fn_body f))).
  assert (Eg : forall f, g f = redirected m f).
  { intros f. unfold g, redirected. f_equal.
    destruct (fn_body f) as [b |]; [| reflexivity]. simpl. f_equal.
    apply renameCalls_ext. intros n. apply Hfix. }
  exists (map g (extra ++ added)).
  rewrite finish_list. fold g. rewrite E3.
  rewrite removeAll_app_filter.
  - rewrite map_app. split.
    + f_equal. rewrite (map_ext _ _ Eg). f_equal.
      apply filter_ext_in. intros f Hf. f_equal.
      destruct (illegalImport m f) eqn:Ei.
      * apply existsb_exists. exists (fn_name f).
        split; [| apply String.eqb_refl].
        apply (proj1 (Hmap (fn_name f))).
        apply illegalImportName_intro; assumption.
      * destruct (existsb _ _) eqn:Ee; [| reflexivity].
        apply existsb_exists in Ee as (k & Hk & Ek).
        apply String.eqb_eq in Ek. subst k.
        apply (proj1 (Hmap (fn_name f))) in Hk.
        apply illegalImportName_elim in Hk as (x & Hx & Hname & Hi).
        rewrite (@NoDup_names_inj (functions m) x f Huniq Hx Hf Hname) in Hi.
        congruence.
    + apply Forall_forall. intros f Hf.
      apply in_map_iff in Hf as (f0 & <- & Hf0).
      change (madeName m (fn_name f0)).
      apply in_app_or in Hf0 as [Hf0 | Hf0].
      * rewrite Forall_forall in Hearly.
        destruct (Hearly f0 Hf0) as [-> | [-> | (func & ->)]].
        -- left. reflexivity.
        -- right. left. reflexivity.
        -- right. right. left. exists (fn_name func).
           apply legalStubFor_name.
      * rewrite Forall_forall in Hadded.
        destruct (Hadded f0 Hf0) as (y & t & Hy & [-> | ->]);
          right; right; right; exists y; (split; [exact Hy |]).
        -- left. apply legalImportFor_names.
        -- right. apply legalImportFor_names.
  - exact Hnd.
  - exact Huniq.
  - intros k Hk. apply (proj1 (Hmap k)) in Hk.
    apply illegalImportName_elim in Hk as (x & Hx & <- & _).
    apply in_map, Hx.
Qed.

Lemma run_functions_order_witness :
  exists m' made,
    run tabledImport = Done m'
    /\ functions m'
       = [defined "f" [] f32 (Call (legalfunc "x") [Const (LitI64 1)] f32)]
         ++ made
    /\ map fn_name made
       = [GET_TEMP_RET_0; SET_TEMP_RET_0; legalstub "f"; legalfunc "x";
          legalimport "x"].
Proof.
  assert (H : exists m', run tabledImport = Done m')
    by (eexists; vm_compute; reflexivity).
  destruct H as (m' & Hrun).
  destruct (@run_functions_order tabledImport m') as (made & E & _).
  - unfold uniqueFunctionNames. simpl.
    repeat constructor; simpl; intuition discriminate.
  - exact Hrun.
  - exists m', made. split; [exact Hrun |].
    vm_compute in Hrun. injection Hrun as <-.
    split; [exact E |].
    simpl in E. injection E as <-. reflexivity.
Defined.

(** ** The locals of the stubs *)

Lemma makeLegalStub_params_bounds ps :
  forall legalParams operands i,
    (forall j, In j (flat_map localIndices operands) ->
               j < List.length legalParams) ->
    In i (flat_map localIndices
            (snd (makeLegalStub_params ps legalParams operands))) ->
    i < List.length (fst (makeLegalStub_params ps legalParams operands)).
Proof.
  induction ps as [| param rest IH]; intros legalParams operands i Hops;
    simpl; [apply Hops |].
  destruct param; simpl; apply IH; intros j Hj;
    rewrite flat_map_app in Hj; apply in_app_or in Hj as [Hj | Hj];
    rewrite length_app; simpl;
    try (apply Hops in Hj; lia);
    simpl in Hj; intuition lia.
Qed.

Lemma makeLegalStubForCalledImport_params_bounds ps :
  forall operands typeParams funcParams i,
    (forall j, In j (flat_map localIndices operands) ->
               j < List.length funcParams) ->
    In i (flat_map localIndices
            (fst (fst (makeLegalStubForCalledImport_params ps operands
                         typeParams funcParams)))) ->
    i < List.length
          (snd (makeLegalStubForCalledImport_params ps operands typeParams
                  funcParams)).
Proof.
  induction ps as [| param rest IH];
    intros operands typeParams funcParams i Hops; simpl; [apply Hops |].
  destruct param; simpl; apply IH; intros j Hj;
    rewrite flat_map_app in Hj; apply in_app_or in Hj as [Hj | Hj];
    rewrite length_app; simpl;
    try (apply Hops in Hj; lia);
    simpl in Hj; intuition lia.
Qed.

(** X18: the stubs touch their own locals only.  Every local index in
    the body of an export stub is below the number of its parameters
    and variables: the operands read the legalized parameters, and the
    temporary of an i64 result is the one variable, right after them.
    Every local index in the body of an import stub is below the number
    of its parameters. *)
Theorem stub_locals_in_bounds self :
  (forall func, localsInBounds (legalStubFor self func))
  /\ (forall im t, localsInBounds (importStubOf self im t)).
Proof.
  split.
  - intros func body i. unfold legalStubFor.
    pose proof (@makeLegalStub_params_bounds (fn_params func) [] []) as Hb.
    destruct (makeLegalStub_params (fn_params func) [] []) as [lp ops].
    simpl in Hb.
    assert (Hops : forall j, In j (flat_map localIndices ops) ->
                             j < List.length lp).
    { intros j Hj. apply Hb; [intros k [] | exact Hj]. }
    destruct (Type_eqb (fn_result func) i64);
      [| destruct (Type_eqb (fn_result func) f32)];
      simpl; intros H; injection H as <-; simpl.
    + destruct (hasGlobal self); simpl;
        intros [<- | Hi]; try lia;
        apply in_app_or in Hi as [Hi | Hi];
        try (apply Hops in Hi; lia);
        simpl in Hi; intuition lia.
    + intros Hi. apply Hops in Hi. lia.
    + intros Hi. apply Hops in Hi. lia.
  - intros im t body i. unfold importStubOf, legalImportFor.
    pose proof (@makeLegalStubForCalledImport_params_bounds (ft_params t)
                  [] [] []) as Hb.
    destruct (makeLegalStubForCalledImport_params (ft_params t) [] [] [])
      as [[ops tp] fp].
    simpl in Hb.
    assert (Hops : forall j, In j (flat_map localIndices ops) ->
                             j < List.length fp).
    { intros j Hj. apply Hb; [intros k [] | exact Hj]. }
    destruct (Type_eqb (ft_result t) i64);
      [| destruct (Type_eqb (ft_result t) f32)];
      simpl; intros H; injection H as <-; simpl.
    + destruct (hasGlobal self); simpl; rewrite ?app_nil_r;
        intros Hi; apply Hops in Hi; lia.
    + intros Hi. apply Hops in Hi. lia.
    + intros Hi. apply Hops in Hi. lia.
Qed.

(** ** A run: what the module imports, and the channel *)

(** X19: a run changes the signatures of imports, not what is imported.
    In a module with unique function names, every function imported
    after the run is imported from a host module and base that a
    function was imported from before it; and when no function carries
    the name legalimport$... of an illegal import, every function
    imported before the run has a function imported from the same host
    module and base after it. *)
Theorem run_import_sources m m' :
  uniqueFunctionNames m ->
  run m = Done m' ->
  (forall f',
      In f' (functions m') -> imported f' = true ->
      exists f,
        In f (functions m) /\ imported f = true
        /\ fn_module f = fn_module f' /\ fn_base f = fn_base f')
  /\ (importNamesFree m ->
      forall f,
        In f (functions m) -> imported f = true ->
        exists f',
          In f' (functions m') /\ imported f' = true
          /\ fn_module f' = fn_module f /\ fn_base f' = fn_base f).
Proof.
  intros Huniq Hrun.
  apply run_phases in Hrun as (self1 & m1 & exs & m2 & self3 & m3 & Hph).
  split.
  - exact (@phases_import_origin _ _ _ _ _ _ _ _ Hph Huniq).
  - intros Hfree.
    exact (@phases_import_kept _ _ _ _ _ _ _ _ Hph Huniq Hfree).
Qed.

Lemma run_import_sources_witness :
  exists m' f',
    run tabledImport = Done m'
    /\ In f' (functions m') /\ imported f' = true
    /\ fn_module f' = Some ENV /\ fn_base f' = Some "a".
Proof.
  assert (H : exists m', run tabledImport = Done m')
    by (eexists; vm_compute; reflexivity).
  destruct H as (m' & Hrun).
  destruct (@run_import_sources tabledImport m') as [_ Hkept].
  - unfold uniqueFunctionNames. simpl.
    repeat constructor; simpl; intuition discriminate.
  - exact Hrun.
  - destruct (Hkept) with (f := import "x" "t" [i64] f32 ENV "a")
      as (f' & Hin & Himp & Hm & Hb).
    + intros x [<- | [<- | []]] Hi; [reflexivity | discriminate].
    + left. reflexivity.
    + reflexivity.
    + exists m', f'. auto.
Defined.

(** X20: a run never leaves half a channel behind.  In a module with
    unique function names in which no function carries the name
    legalimport$... of an illegal import, the module after a run has
    the channel in full: resolving the channel on it completes and
    changes nothing, so the next run does not end with the fatal
    diagnostic. *)
Theorem run_channel_kept m m' :
  uniqueFunctionNames m -> importNamesFree m ->
  run m = Done m' ->
  (exists self', ensureTempRet0Helpers newPass m' = Done (self', m'))
  /\ ~ halfPresent m'
  /\ forall d s, run m' <> Fatal d s.
Proof.
  intros Huniq Hfree Hrun.
  apply run_phases in Hrun as (self1 & m1 & exs & m2 & self3 & m3 & Hph).
  destruct (@phases_channel _ _ _ _ _ _ _ _ Hph Huniq Hfree) as (self' & H).
  assert (Hhalf : ~ halfPresent m').
  { intros Hh. rewrite (ensureTempRet0Helpers_half newPass Hh) in H.
    discriminate. }
  split; [exists self'; exact H |]. split; [exact Hhalf |].
  intros d s Hf. apply run_Fatal in Hf.
  apply ensureTempRet0Helpers_Fatal in Hf as [Hh _]. exact (Hhalf Hh).
Qed.

Lemma run_channel_kept_witness :
  exists m',
    run importedChannel = Done m'
    /\ (exists self', ensureTempRet0Helpers newPass m' = Done (self', m'))
    /\ ~ halfPresent m'
    /\ forall d s, run m' <> Fatal d s.
Proof.
  eexists. split; [vm_compute; reflexivity |].
  apply (@run_channel_kept importedChannel).
  - unfold uniqueFunctionNames. simpl.
    repeat constructor; simpl; intuition discriminate.
  - intros x [<- | [<- | []]] Hi; discriminate.
  - vm_compute. reflexivity.
Defined.

(** ** A run: what is made for an illegal export *)

Lemma makeLegalStub_finds self func m n f :
  getFunctionOrNull m n = Some f ->
  getFunctionOrNull (snd (makeLegalStub self func m)) n = Some f.
Proof.
  intros H.
  destruct (makeLegalStub_functions self func m) as [[-> _] | [-> _]];
    [exact H |].
  rewrite getFunctionOrNull_addFunction, H. reflexivity.
Qed.

(** The export loop leaves the stub of every illegal function it meets
    under the stub's name, when that name was free or held the stub. *)
Lemma legalizeExports_makes self exs :
  forall m exs' m' ex func,
    legalizeExports self exs m = Done (exs', m') ->
    In ex exs -> isFunctionKind (ex_kind ex) = true ->
    getFunctionOrNull m (ex_value ex) = Some func -> isIllegal func = true ->
    getFunctionOrNull m (legalstub (fn_name func)) = None
    \/ getFunctionOrNull m (legalstub (fn_name func))
       = Some (legalStubFor self func) ->
    getFunctionOrNull m' (legalstub (fn_name func))
    = Some (legalStubFor self func).
Proof.
  induction exs as [| ex0 rest IH];
    intros m exs' m' ex func Hrun Hin Hk Hf Hi Hstub; [contradiction |].
  destruct (legalizeExports_cons _ _ _ _ Hrun)
    as (ex' & m1 & rest' & _ & Hrest & Hcase).
  assert (Hmade : forall func0,
             getFunctionOrNull m (ex_value ex0) = Some func0 ->
             getFunctionOrNull (snd (makeLegalStub self func0 m))
               (legalstub (fn_name func))
             = None
             \/ getFunctionOrNull (snd (makeLegalStub self func0 m))
                  (legalstub (fn_name func))
                = Some (legalStubFor self func)).
  { intros func0 Hf0.
    destruct (makeLegalStub_functions self func0 m) as [[-> _] | [-> Hnone]];
      [exact Hstub |].
    rewrite getFunctionOrNull_addFunction.
    destruct Hstub as [-> | ->]; [| right; reflexivity].
    rewrite legalStubFor_name.
    destruct (String.eqb_spec (legalstub (fn_name func0))
                (legalstub (fn_name func))) as [E | _]; [| left; reflexivity].
    right. f_equal. f_equal.
    unfold legalstub in E. simpl in E. injection E as E.
    destruct (getFunctionOrNull_In _ _ Hf0) as [_ E0].
    destruct (getFunctionOrNull_In _ _ Hf) as [_ E1].
    rewrite <- E0, E, E1 in Hf0. congruence. }
  destruct Hin as [<- | Hin].
  - destruct Hcase as [(_ & func0 & Hf0 & _ & -> & _)
                      | [(_ & func0 & Hf0 & Hi0 & _ & _) | (Hk0 & _ & _)]];
      [| congruence | congruence].
    assert (func0 = func) by congruence. subst func0.
    eapply legalizeExports_keeps; [exact Hrest |].
    destruct (makeLegalStub_functions self func m) as [[-> Hsome] | [-> _]].
    + destruct Hstub as [Hn | Hs]; [contradiction | exact Hs].
    + rewrite getFunctionOrNull_addFunction.
      destruct Hstub as [-> | ->]; [| reflexivity].
      rewrite legalStubFor_name, String.eqb_refl. reflexivity.
  - destruct Hcase as [(_ & func0 & Hf0 & _ & -> & _)
                      | [(_ & func0 & _ & _ & -> & _) | (_ & -> & _)]].
    + apply (IH _ _ _ ex func Hrest Hin Hk); [| exact Hi | apply Hmade, Hf0].
      apply makeLegalStub_finds, Hf.
    + apply (IH _ _ _ ex func Hrest Hin Hk Hf Hi Hstub).
    + apply (IH _ _ _ ex func Hrest Hin Hk Hf Hi Hstub).
Qed.

(** X21: what a run leaves behind for an illegal exported function.
    For an export of a function the module has, when that function is
    illegal (imported or not) and the name legalstub$... derived from
    its name is free, the module after the run has, under that name,
    the stub built for the function with the channel the resolver
    resolved, with every call of an illegal import in it redirected to
    that import's stub; so the stub of an exported illegal import calls
    the import's stub legalfunc$.... *)
Theorem run_export_stubs m m' ex func :
  run m = Done m' ->
  In ex (exports m) -> isFunctionKind (ex_kind ex) = true ->
  getFunctionOrNull m (ex_value ex) = Some func -> isIllegal func = true ->
  getFunctionOrNull m (legalstub (fn_name func)) = None ->
  exists self m1,
    ensureTempRet0Helpers newPass m = Done (self, m1)
    /\ getFunctionOrNull m' (legalstub (fn_name func))
       = Some (set_body (legalStubFor self func)
                 (option_map (renameCalls (tableRename m))
                    (fn_body (legalStubFor self func)))).
Proof.
  intros Hrun Hin Hk Hf Hi Hfree.
  apply run_phases in Hrun as (self1 & m1 & exs & m2 & self3 & m3 & Hph).
  destruct (phases_all Hph) as (_ & (added & E3 & _) & _).
  pose proof (fun name => phases_fixTarget name Hph) as Hfix.
  pose proof (phases_map Hph) as Hmap.
  destruct Hph as (H1 & H2 & _ & ->).
  exists self1, m1. split; [exact H1 |].
  assert (Hm1 : In ex (exports m1)
                /\ getFunctionOrNull m1 (ex_value ex) = Some func
                /\ getFunctionOrNull m1 (legalstub (fn_name func)) = None).
  { destruct (ensureTempRet0Helpers_Done _ _ H1) as (_ & [-> | ->]);
      [auto |].
    unfold getFunctionOrNull, withChannel in *. simpl.
    split; [apply in_or_app; left; exact Hin |].
    rewrite !find_app, Hf, Hfree. split; reflexivity. }
  destruct Hm1 as (Hin1 & Hf1 & Hfree1).
  pose proof (@legalizeExports_makes self1 (exports m1) m1 exs m2 ex func
                H2 Hin1 Hk Hf1 Hi (or_introl Hfree1)) as Hstub.
  rewrite finish_find.
  - rewrite getFunctionOrNull_findNamed, E3.
    rewrite getFunctionOrNull_findNamed in Hstub.
    rewrite (findNamed_extends _ _ added Hstub). simpl. f_equal. f_equal.
    destruct (fn_body (legalStubFor self1 func)) as [b |]; [| reflexivity].
    simpl. f_equal. apply renameCalls_ext. intros n.
    rewrite Hfix, legalStubFor_name. unfold tableRename.
    destruct (illegalImportName m n); [| reflexivity].
    destruct (String.eqb_spec (legalfunc n) (legalstub (fn_name func)))
      as [E | _]; [| reflexivity].
    exfalso. exact (legalstub_not_legalfunc (eq_sym E)).
  - intros Hkey. apply (proj1 (Hmap _)) in Hkey.
    apply illegalImportName_elim in Hkey as (x & Hx & Hname & _).
    apply getFunctionOrNull_None in Hfree. apply Hfree.
    unfold functionNames. rewrite <- Hname. apply in_map, Hx.
Qed.

Lemma run_export_stubs_witness :
  exists m' stub,
    run exportedImport = Done m'
    /\ getFunctionOrNull m' (legalstub "x") = Some stub
    /\ fn_params stub = [i32; i32]
    /\ fn_body stub
       = Some (Call (legalfunc "x") [I64Utilities.recreateI64_locals 0 1]
                 none).
Proof.
  assert (H : exists m', run exportedImport = Done m')
    by (eexists; vm_compute; reflexivity).
  destruct H as (m' & Hrun).
  destruct (@run_export_stubs exportedImport m' (exportFunction "e" "x")
              (import "x" "t" [i64] none ENV "a") Hrun)
    as (self & m1 & H1 & Hstub).
  - left. reflexivity.
  - reflexivity.
  - reflexivity.
  - reflexivity.
  - reflexivity.
  - eexists. eexists. split; [exact Hrun |]. split; [exact Hstub |].
    split; reflexivity.
Defined.

(** ** The order of removal *)

(** X22: the order in which the illegal imports are removed does not
    matter.  The source removes the function of every key of the name
    map in the map's iteration order; whatever order the keys are
    visited in, removing them and fixing the call sites gives the same
    module. *)
Theorem removal_order_irrelevant self module order :
  Permutation order (map_keys (illegalImportsToLegal self)) ->
  illegalImportsToLegal self <> [] ->
  FixImports (illegalImportsToLegal self) (removeFunctions order module)
  = finish self module.
Proof.
  intros Hperm Hne. unfold finish.
  destruct (illegalImportsToLegal self) as [| p rest] eqn:E;
    [contradiction |].
  cbn [List.length Nat.ltb Nat.leb]. f_equal.
  apply removeFunctions_order, Hperm.
Qed.

Lemma removal_order_irrelevant_witness :
  let self :=
    set_map newPass [("x", legalfunc "x"); ("y", legalfunc "y")] in
  let module :=
    {| functionTypes := [];
       functions :=
         [defined "y" [] none Nop; defined "x" [] none Nop;
          defined "f" [] none (Call "x" [] none)];
       exports := []; globals := []; table := [] |} in
  FixImports (illegalImportsToLegal self) (removeFunctions ["y"; "x"] module)
  = finish self module.
Proof.
  apply (@removal_order_irrelevant
           (set_map newPass [("x", legalfunc "x"); ("y", legalfunc "y")])
           {| functionTypes := [];
              functions :=
                [defined "y" [] none Nop; defined "x" [] none Nop;
                 defined "f" [] none (Call "x" [] none)];
              exports := []; globals := []; table := [] |}
           ["y"; "x"]).
  - simpl. apply perm_swap.
  - discriminate.
Defined.

(** ** A run that does not complete *)

Lemma legalizeExports_looked_up self exs :
  forall m exs' m' ex,
    legalizeExports self exs m = Done (exs', m') ->
    In ex exs -> isFunctionKind (ex_kind ex) = true ->
    getFunctionOrNull m' (ex_value ex) <> None.
Proof.
  induction exs as [| ex0 rest IH]; intros m exs' m' ex Hrun Hin Hk;
    [contradiction |].
  destruct (legalizeExports_cons _ _ _ _ Hrun)
    as (ex' & m1 & rest' & _ & Hrest & Hcase).
  destruct Hin as [<- | Hin]; [| exact (IH _ _ _ ex Hrest Hin Hk)].
  assert (Hfound : exists func, getFunctionOrNull m1 (ex_value ex0) = Some func).
  { destruct Hcase as [(_ & func & Hf & _ & -> & _)
                      | [(_ & func & Hf & _ & -> & _) | (Hk0 & _ & _)]];
      [| eauto | congruence].
    exists func. apply makeLegalStub_finds, Hf. }
  destruct Hfound as (func & Hf).
  rewrite (legalizeExports_keeps _ _ _ _ Hrest Hf). discriminate.
Qed.

Lemma legalizeImports_keeps_typeOf fs :
  forall self m self' m' f,
    legalizeImports fs self m = Done (self', m') ->
    typeOf m f <> None -> typeOf m' f <> None.
Proof.
  induction fs as [| im rest IH]; intros self m self' m' f Hrun Ht.
  - simpl in Hrun. injection Hrun as _ <-. exact Ht.
  - destruct (legalizeImports_cons _ _ _ _ Hrun)
      as [[_ Hrest] | (t & _ & _ & _ & Hrest)].
    + exact (IH _ _ _ _ f Hrest Ht).
    + apply (IH _ _ _ _ f Hrest). apply importStep_keeps_typeOf, Ht.
Qed.

Lemma legalizeImports_looked_up fs :
  forall self m self' m' f,
    legalizeImports fs self m = Done (self', m') ->
    In f fs -> imported f = true -> typeOf m' f <> None.
Proof.
  induction fs as [| im rest IH]; intros self m self' m' f Hrun Hin Hi;
    [contradiction |].
  destruct (legalizeImports_cons _ _ _ _ Hrun)
    as [[Hhead Hrest] | (t & _ & Ht & _ & Hrest)];
    destruct Hin as [<- | Hin];
    try exact (IH _ _ _ _ f Hrest Hin Hi).
  - destruct Hhead as [Hn | (t & Ht & _)]; [congruence |].
    eapply legalizeImports_keeps_typeOf; [exact Hrest | congruence].
  - eapply legalizeImports_keeps_typeOf; [exact Hrest |].
    apply importStep_keeps_typeOf. congruence.
Qed.

(** X23: a run does not complete on a module with a dangling export or
    import.  When an export of a function targets a name that no
    function of the module carries and that the pass does not make
    (not getTempRet0, not setTempRet0, not a stub name legalstub$...),
    or when an imported function names a function type that the module
    lacks and the pass does not make (not a name legaltype$...), the
    lookup of that function or type finds nothing and the run ends
    without a module. *)
Theorem run_missing_target m :
  (forall ex,
      In ex (exports m) -> isFunctionKind (ex_kind ex) = true ->
      getFunctionOrNull m (ex_value ex) = None ->
      ex_value ex <> GET_TEMP_RET_0 -> ex_value ex <> SET_TEMP_RET_0 ->
      (forall n, ex_value ex <> legalstub n) ->
      forall m', run m <> Done m')
  /\ (forall f,
         In f (functions m) -> imported f = true ->
         typeOf m f = None ->
         (forall n, fn_type f <> Some (legaltype n)) ->
         forall m', run m <> Done m').
Proof.
  split.
  - intros ex Hin Hk Hnone Hg Hs Hstub m' Hrun.
    apply run_phases in Hrun as (self1 & m1 & exs & m2 & self3 & m3 & Hph).
    destruct (phases_loop Hph) as (_ & _ & _ & _ & extra & E2 & Hearly).
    destruct Hph as (H1 & H2 & _).
    assert (Hin1 : In ex (exports m1)).
    { destruct (ensureTempRet0Helpers_Done _ _ H1) as (_ & [-> | ->]);
        [exact Hin |].
      unfold withChannel. simpl. apply in_or_app. left. exact Hin. }
    eapply legalizeExports_looked_up; [exact H2 | exact Hin1 | exact Hk |].
    apply getFunctionOrNull_None. unfold functionNames. rewrite E2, map_app.
    intros Hname. apply in_app_or in Hname as [Hname | Hname].
    + apply getFunctionOrNull_None in Hnone. exact (Hnone Hname).
    + apply in_map_iff in Hname as (f & Hname & Hf).
      rewrite Forall_forall in Hearly.
      destruct (Hearly f Hf) as [-> | [-> | (func & ->)]].
      * exact (Hg (eq_sym Hname)).
      * exact (Hs (eq_sym Hname)).
      * rewrite legalStubFor_name in Hname.
        exact (Hstub _ (eq_sym Hname)).
  - intros f Hin Hi Hnone Htype m' Hrun.
    apply run_phases in Hrun as (self1 & m1 & exs & m2 & self3 & m3 & Hph).
    destruct (phases_loop Hph) as (Hall & Hfold & _ & Et & extra & E2 & _).
    destruct Hph as (_ & _ & H3 & _).
    assert (Hin2 : In f (functions m2))
      by (rewrite E2; apply in_or_app; left; exact Hin).
    assert (Hfound : typeOf m3 f <> None)
      by (eapply legalizeImports_looked_up;
          [exact H3 | exact Hin2 | exact Hi]).
    destruct (@fold_importStepOf_forms (set_exports m2 exs)
                (illegalImports m) (self1, set_exports m2 exs) Hall)
      as (_ & _ & _ & (addedT & E3 & HaddedT)).
    rewrite <- Hfold in E3. cbn [fst snd] in E3. simpl functionTypes in E3.
    rewrite Et in E3.
    apply Hfound. unfold typeOf in *.
    destruct (fn_type f) as [n |]; [| reflexivity].
    unfold getFunctionTypeOrNull in *. rewrite E3, find_app, Hnone.
    apply find_none_all. intros ty Hty.
    rewrite Forall_forall in HaddedT.
    destruct (HaddedT ty Hty) as (y & t & _ & ->).
    rewrite (proj1 (legalImportFor_names _ y t)).
    apply String.eqb_neq. intros E. apply (Htype (fn_name y)).
    rewrite E. reflexivity.
Qed.

Lemma run_missing_target_witness :
  (forall m', run danglingExport <> Done m')
  /\ (forall m', run untypedImport <> Done m').
Proof.
  split.
  - apply (proj1 (run_missing_target danglingExport)
             (exportFunction "e" "nowhere"));
      try reflexivity; try discriminate.
    left. reflexivity.
  - apply (proj2 (run_missing_target untypedImport)
             (import "x" "t" [i64] none ENV "a"));
      try reflexivity; try discriminate.
    left. reflexivity.
Defined.

(** ** The stub under the name a table entry is given *)

Lemma findNamed_split n (xs : list Function) x :
  findNamed n xs = Some x ->
  exists xs1 xs2,
    xs = xs1 ++ x :: xs2 /\ ~ In n (map fn_name xs1).
Proof.
  unfold findNamed.
  induction xs as [| a xs IH]; simpl; [discriminate |].
  destruct (String.eqb_spec (fn_name a) n) as [E | Hne].
  - intros H. injection H as <-. exists [], xs. split; [reflexivity |].
    intros [].
  - intros H. destruct (IH H) as (xs1 & xs2 & -> & Hnot).
    exists (a :: xs1), xs2. split; [reflexivity |].
    intros [E | Hin]; [exact (Hne E) | exact (Hnot Hin)].
Qed.

(** The loop makes the stub of the first illegal import of a name, when
    the stub's name was free, and later steps leave it in place. *)
Lemma fold_importStepOf_makes_stub m0 xs1 x xs2 acc0 t :
  Forall (fun x => illegalImport m0 x = true) (xs1 ++ x :: xs2) ->
  ~ In (fn_name x) (map fn_name xs1) ->
  typeOf m0 x = Some t ->
  findNamed (legalfunc (fn_name x)) (functions (snd acc0)) = None ->
  findNamed (legalfunc (fn_name x))
    (functions (snd (fold_left (importStepOf m0) (xs1 ++ x :: xs2) acc0)))
  = Some (importStubOf (fst acc0) x t).
Proof.
  intros Hall Hnot Ht Hf1.
  rewrite fold_left_app. cbn [fold_left].
  apply Forall_app in Hall as [Hall1 Hall2].
  inversion Hall2 as [| x' xs' Hx Hall2']; subst x' xs'.
  destruct (@fold_importStepOf_forms m0 xs1 acc0 Hall1)
    as (Hg1 & Hn1 & (added & Ef & Hadded) & _).
  set (acc1 := fold_left (importStepOf m0) xs1 acc0) in *.
  rewrite Forall_forall in Hadded.
  assert (F1 : findNamed (legalfunc (fn_name x)) (functions (snd acc1))
               = None).
  { rewrite Ef, findNamed_app, Hf1. apply findNamed_None.
    intros Hin. apply in_map_iff in Hin as (f & Hname & Hf).
    destruct (Hadded f Hf) as (y & ty & Hy & [-> | ->]).
    - rewrite (proj2 (proj2 (legalImportFor_names _ y ty))) in Hname.
      apply legalfunc_inj in Hname. apply Hnot. rewrite <- Hname.
      apply in_map, Hy.
    - rewrite (proj1 (proj2 (legalImportFor_names _ y ty))) in Hname.
      exact (legalfunc_not_legalimport (eq_sym Hname)). }
  set (acc2 := (set_map (fst acc1)
                  (map_set (fn_name x) (legalfunc (fn_name x))
                     (illegalImportsToLegal (fst acc1))),
                importStep (fst acc1) x t (snd acc1))).
  assert (Estep : importStepOf m0 acc1 x = acc2)
    by (unfold importStepOf; rewrite Ht; reflexivity).
  rewrite Estep.
  destruct (@fold_importStepOf_forms m0 xs2 acc2 Hall2')
    as (_ & _ & (added2 & Ef2 & _) & _).
  rewrite Ef2. apply findNamed_extends.
  unfold acc2. cbn [snd]. rewrite importStep_list.
  rewrite getFunctionOrNull_findNamed, F1. cbn [isSome].
  rewrite findNamed_app, F1.
  rewrite <- (@importStubOf_channel _ _ x t Hg1 Hn1).
  unfold findNamed. simpl.
  rewrite (proj2 (proj2 (legalImportFor_names (fst acc1) x t))).
  rewrite String.eqb_refl. reflexivity.
Qed.

(** After a run, the function under the stub name of an illegal import
    is the stub the pass built for the first illegal import of that
    name, when no function carried the stub name before. *)
Lemma phases_stub_built m self1 m1 exs m2 self3 m3 m' :
  phases m self1 m1 exs m2 self3 m3 m' ->
  stubNamesFree m ->
  forall n,
    illegalImportName m n = true ->
    exists x t,
      findNamed n (illegalImports m) = Some x
      /\ typeOf m x = Some t
      /\ getFunctionOrNull m' (legalfunc n)
         = Some (redirected m (importStubOf self1 x t)).
Proof.
  intros Hph Hfree n Hn.
  destruct (phases_loop Hph) as (Hall & Hfold & _ & Et & extra & E2 & Hearly).
  pose proof (fun name => phases_fixTarget name Hph) as Hfix.
  pose proof (phases_map Hph) as Hmap.
  destruct Hph as (_ & _ & _ & ->).
  pose proof (proj1 (illegalImportName_In m n) Hn) as Hin.
  destruct (findNamed n (illegalImports m)) as [x |] eqn:Ex.
  2: { apply findNamed_None in Ex. contradiction. }
  destruct (findNamed_Some _ _ Ex) as [Hx Hname].
  apply filter_In in Hx as [Hxm Hxi].
  assert (Ht : exists t, typeOf m x = Some t).
  { unfold illegalImport in Hxi. destruct (typeOf m x) as [t |]; [eauto |].
    rewrite andb_false_r in Hxi. discriminate. }
  destruct Ht as (t & Ht).
  exists x, t. split; [reflexivity |]. split; [exact Ht |].
  destruct (findNamed_split _ _ Ex) as (xs1 & xs2 & Exs & Hnot).
  subst n.
  assert (Hstub : findNamed (legalfunc (fn_name x)) (functions m3)
                  = Some (importStubOf self1 x t)).
  { replace m3
      with (snd (fold_left (importStepOf (set_exports m2 exs))
                   (illegalImports m) (self1, set_exports m2 exs)))
      by (rewrite <- Hfold; reflexivity).
    rewrite Exs in Hall |- *.
    apply (@fold_importStepOf_makes_stub (set_exports m2 exs) xs1 x xs2
             (self1, set_exports m2 exs) t Hall Hnot).
    - rewrite <- Ht. apply typeOf_ext. simpl. exact Et.
    - cbn [snd functions set_exports]. rewrite E2, findNamed_app.
      rewrite <- getFunctionOrNull_findNamed, (Hfree _ Hn).
      apply findNamed_None. intros Hin'.
      apply in_map_iff in Hin' as (f & Hf & Hfin).
      rewrite Forall_forall in Hearly.
      exact (earlyFunction_not_legalfunc (Hearly f Hfin) Hf). }
  rewrite finish_find.
  - rewrite getFunctionOrNull_findNamed, Hstub. simpl. f_equal.
    unfold redirected. f_equal.
    destruct (fn_body (importStubOf self1 x t)) as [b |]; [| reflexivity].
    simpl. f_equal. apply renameCalls_ext. intros k. apply Hfix.
  - intros Hkey. apply (proj1 (Hmap _)) in Hkey.
    apply illegalImportName_elim in Hkey as (y & Hy & Hyname & _).
    pose proof (Hfree _ Hn) as Hnone.
    apply getFunctionOrNull_None in Hnone. apply Hnone.
    unfold functionNames. rewrite <- Hyname. apply in_map, Hy.
Qed.

Lemma stubNamesFree_noChainedStubs m : stubNamesFree m -> noChainedStubs m.
Proof.
  intros Hfree n Hn.
  destruct (illegalImportName m (legalfunc n)) eqn:E; [| reflexivity].
  apply illegalImportName_elim in E as (x & Hx & Hname & _).
  pose proof (Hfree n Hn) as Hnone.
  apply getFunctionOrNull_None in Hnone. exfalso. apply Hnone.
  unfold functionNames. rewrite <- Hname. apply in_map, Hx.
Qed.

(* ===================================================================== *)
(** * The properties of the specification *)
(* ===================================================================== *)




(** C2: the resolver follows the priority order.  On every module it
    resolves a channel for: when the getter and the setter are both
    imported, it reuses the imports' names, leaves the module alone and
    marks the channel call-through-only; otherwise, when both are
    exported, it reuses the exports' targets and marks the channel
    register-accessible exactly when a global of the well-known name
    exists; otherwise it leaves behind the register, the getter and the
    setter under the well-known names, both exported, and marks the
    channel register-accessible. *)
Theorem ensureTempRet0Helpers_priority self m self' m' :
  ensureTempRet0Helpers self m = Done (self', m') ->
  (forall g s,
      getImportedFunction m ENV GET_TEMP_RET_0 = Some g ->
      getImportedFunction m ENV SET_TEMP_RET_0 = Some s ->
      getTempRet0 self' = fn_name g /\ setTempRet0 self' = fn_name s
      /\ hasGlobal self' = false /\ m' = m)
  /\ (~ bothImported m ->
      forall g s,
        getExportOrNull m GET_TEMP_RET_0 = Some g ->
        getExportOrNull m SET_TEMP_RET_0 = Some s ->
        getTempRet0 self' = ex_value g /\ setTempRet0 self' = ex_value s
        /\ (hasGlobal self' = true <-> getGlobalOrNull m TEMP_RET_0 <> None)
        /\ m' = m)
  /\ (~ bothImported m -> ~ bothExported m ->
      getTempRet0 self' = GET_TEMP_RET_0 /\ setTempRet0 self' = SET_TEMP_RET_0
      /\ hasGlobal self' = true
      /\ getGlobalOrNull m' TEMP_RET_0 <> None
      /\ functions m' = functions m ++ [getter; setter]
      /\ exports m'
         = exports m
           ++ [ {| ex_name := GET_TEMP_RET_0; ex_value := GET_TEMP_RET_0;
                   ex_kind := KFunction |};
                {| ex_name := SET_TEMP_RET_0; ex_value := SET_TEMP_RET_0;
                   ex_kind := KFunction |} ]).
Proof.
  intros H. unfold bothImported, bothExported.
  destruct (getImportedFunction m ENV GET_TEMP_RET_0) as [ig |] eqn:Eig,
    (getImportedFunction m ENV SET_TEMP_RET_0) as [is_ |] eqn:Eis.
  - rewrite (ensureTempRet0Helpers_imported self _ Eig Eis) in H.
    injection H as Hs Hm; subst self' m'.
    split; [| split].
    + intros g s Hg Hs. inversion Hg; inversion Hs; subst. auto.
    + intros Hn. exfalso. apply Hn. split; discriminate.
    + intros Hn. exfalso. apply Hn. split; discriminate.
  - unfold ensureTempRet0Helpers in H. rewrite Eig, Eis in H. discriminate.
  - unfold ensureTempRet0Helpers in H. rewrite Eig, Eis in H. discriminate.
  - split; [intros g s Hg; discriminate |].
    destruct (getExportOrNull m GET_TEMP_RET_0) as [eg |] eqn:Eeg,
      (getExportOrNull m SET_TEMP_RET_0) as [es |] eqn:Ees.
    + rewrite (ensureTempRet0Helpers_exported self _ Eig Eis Eeg Ees) in H.
      injection H as Hs Hm; subst self' m'. split.
      * intros _ g s Hg Hs. inversion Hg; inversion Hs; subst. simpl.
        repeat split; auto.
        -- destruct (getGlobalOrNull m TEMP_RET_0); simpl; congruence.
        -- destruct (getGlobalOrNull m TEMP_RET_0); simpl; congruence.
      * intros _ Hn. exfalso. apply Hn. split; discriminate.
    + unfold ensureTempRet0Helpers in H. rewrite Eig, Eis, Eeg, Ees in H.
      discriminate.
    + unfold ensureTempRet0Helpers in H. rewrite Eig, Eis, Eeg, Ees in H.
      discriminate.
    + rewrite (ensureTempRet0Helpers_created self _ Eig Eis Eeg Ees) in H.
      injection H as Hs Hm; subst self' m'.
      split; [intros _ g s Hg; discriminate |].
      intros _ _. simpl. repeat split; auto.
      unfold getGlobalOrNull, withChannel, withRegister. simpl.
      destruct (getGlobalOrNull m TEMP_RET_0) as [g0 |] eqn:Eg.
      * unfold getGlobalOrNull in Eg. rewrite Eg. discriminate.
      * unfold getGlobalOrNull in Eg. simpl.
        rewrite find_app, Eg. simpl. discriminate.
Qed.

Lemma ensureTempRet0Helpers_priority_witness :
  (exists self' m',
      ensureTempRet0Helpers newPass importedChannel = Done (self', m')
      /\ getTempRet0 self' = "g$0" /\ setTempRet0 self' = "s$0"
      /\ hasGlobal self' = false /\ m' = importedChannel)
  /\ (exists self' m',
         ensureTempRet0Helpers newPass exportedChannel = Done (self', m')
         /\ getTempRet0 self' = "rd" /\ setTempRet0 self' = "wr"
         /\ (hasGlobal self' = true
             <-> getGlobalOrNull exportedChannel TEMP_RET_0 <> None)
         /\ m' = exportedChannel)
  /\ (exists self' m',
         ensureTempRet0Helpers newPass bareModule = Done (self', m')
         /\ getTempRet0 self' = GET_TEMP_RET_0
         /\ setTempRet0 self' = SET_TEMP_RET_0
         /\ hasGlobal self' = true
         /\ getGlobalOrNull m' TEMP_RET_0 <> None
         /\ functions m' = functions bareModule ++ [getter; setter]
         /\ exports m'
            = exports bareModule
              ++ [ {| ex_name := GET_TEMP_RET_0; ex_value := GET_TEMP_RET_0;
                      ex_kind := KFunction |};
                   {| ex_name := SET_TEMP_RET_0; ex_value := SET_TEMP_RET_0;
                      ex_kind := KFunction |} ]).
Proof.
  split; [| split]; eexists; eexists; (split; [reflexivity |]).
  - exact (proj1 (@ensureTempRet0Helpers_priority newPass importedChannel
                    _ _ eq_refl) _ _ eq_refl eq_refl).
  - refine (proj1 (proj2 (@ensureTempRet0Helpers_priority newPass
                            exportedChannel _ _ eq_refl)) _ _ _
              eq_refl eq_refl).
    intros [H _]. apply H. reflexivity.
  - refine (proj2 (proj2 (@ensureTempRet0Helpers_priority newPass
                            bareModule _ _ eq_refl)) _ _).
    + intros [H _]. apply H. reflexivity.
    + intros [H _]. apply H. reflexivity.
Defined.

(** C3: the pass ends with its fatal diagnostic exactly when the pair it
    is probing is half-present (one of getter and setter imported
    without the other, or, no import found, one exported without the
    other); the module is then as it was on entry; with no half, both
    imported, or both exported, the resolver completes, and so does the
    run on a module whose export targets and import types exist. *)
Theorem fatal_iff_half_present m :
  ((exists d s, run m = Fatal d s) <-> halfPresent m)
  /\ (forall d s, run m = Fatal d s -> d = partialTempRet0 /\ s = m)
  /\ (forall self,
         (exists d s, ensureTempRet0Helpers self m = Fatal d s)
         <-> halfPresent m)
  /\ (forall self d s,
         ensureTempRet0Helpers self m = Fatal d s ->
         d = partialTempRet0 /\ s = m)
  /\ (forall self,
         bothImported m
         \/ (getImportedFunction m ENV GET_TEMP_RET_0 = None
             /\ getImportedFunction m ENV SET_TEMP_RET_0 = None
             /\ bothExported m)
         \/ (getImportedFunction m ENV GET_TEMP_RET_0 = None
             /\ getImportedFunction m ENV SET_TEMP_RET_0 = None
             /\ getExportOrNull m GET_TEMP_RET_0 = None
             /\ getExportOrNull m SET_TEMP_RET_0 = None) ->
         exists self' m', ensureTempRet0Helpers self m = Done (self', m'))
  /\ (exportTargetsExist m -> importTypesExist m -> ~ halfPresent m ->
      exists m', run m = Done m').
Proof.
  assert (Hres : forall self,
             (exists d s, ensureTempRet0Helpers self m = Fatal d s)
             <-> halfPresent m).
  { intros self. split.
    - intros (d & s & H). exact (proj1 (ensureTempRet0Helpers_Fatal _ _ H)).
    - intros H. exists partialTempRet0, m.
      exact (ensureTempRet0Helpers_half self H). }
  split; [| split; [| split; [| split; [| split]]]].
  6: apply run_completes.
  - split.
    + intros (d & s & H). apply run_Fatal in H.
      exact (proj1 (ensureTempRet0Helpers_Fatal _ _ H)).
    + intros H. exists partialTempRet0, m. apply run_Fatal.
      exact (ensureTempRet0Helpers_half newPass H).
  - intros d s H. apply run_Fatal in H.
    exact (proj2 (ensureTempRet0Helpers_Fatal _ _ H)).
  - exact Hres.
  - intros self d s H. exact (proj2 (ensureTempRet0Helpers_Fatal _ _ H)).
  - intros self H.
    assert (Hn : ~ halfPresent m).
    { clear Hres. channel_cases m; intuition congruence. }
    destruct (ensureTempRet0Helpers_whole self Hn) as (self' & m' & E & _).
    eauto.
Qed.

Lemma fatal_iff_half_present_witness :
  (exists d s,
      run halfImported = Fatal d s
      /\ d = partialTempRet0 /\ s = halfImported)
  /\ (exists self' m',
         ensureTempRet0Helpers newPass exportedChannel = Done (self', m'))
  /\ exists m', run bareModule = Done m'.
Proof.
  split; [| split].
  - destruct (proj2 (proj1 (fatal_iff_half_present halfImported)))
      as (d & s & H).
    + left. left. split; [discriminate | reflexivity].
    + exists d, s. split; [exact H |].
      exact (proj1 (proj2 (fatal_iff_half_present halfImported)) d s H).
  - apply (proj1 (proj2 (proj2 (proj2 (proj2
             (fatal_iff_half_present exportedChannel))))) newPass).
    right. left. repeat split; discriminate.
  - apply (proj2 (proj2 (proj2 (proj2 (proj2
             (fatal_iff_half_present bareModule)))))).
    + intros ex [<- | []] _. discriminate.
    + intros f [<- | []] Himp. discriminate.
    + intros [[[H _] | [_ H]] | (_ & _ & [[H _] | [_ H]])];
        apply H; reflexivity.
Defined.

(** C4: the stub of an exported function with an i64 result has an i32
    result; its body stores the inner call's 64-bit result in a
    temporary, writes the upper 32 bits through the channel (a write to
    the register when the channel is register-accessible, otherwise a
    call of the setter) and returns the lower 32 bits.  With an f32
    result the stub has an f64 result and widens the call's; any other
    result type passes through unchanged. *)
Theorem export_stub_result self func :
  let legal := legalStubFor self func in
  let operands := snd (makeLegalStub_params (fn_params func) [] []) in
  let index := List.length (fn_params legal) in
  (fn_result func = i64 ->
   fn_result legal = i32
   /\ fn_vars legal = [i64]
   /\ fn_body legal
      = Some (Block
                [ SetLocal index (Call (fn_name func) operands i64);
                  (if hasGlobal self then
                     SetGlobal TEMP_RET_0 (I64Utilities.getI64High index)
                   else
                     Call (setTempRet0 self)
                       [I64Utilities.getI64High index] none);
                  I64Utilities.getI64Low index ])
   /\ forall env b,
        (0 <= b < two64)%Z ->
        nth_error (locals env) index = Some (LitI64 b) ->
        eval env (I64Utilities.getI64High index)
        = Some (LitI32 (b / two32))
        /\ eval env (I64Utilities.getI64Low index)
           = Some (LitI32 (b mod two32)))
  /\ (fn_result func = f32 ->
      fn_result legal = f64
      /\ fn_vars legal = []
      /\ fn_body legal
         = Some (Unary PromoteFloat32 (Call (fn_name func) operands f32)))
  /\ (fn_result func <> i64 -> fn_result func <> f32 ->
      fn_result legal = fn_result func
      /\ fn_vars legal = []
      /\ fn_body legal
         = Some (Call (fn_name func) operands (fn_result func)))
  /\ (forall module,
         getFunctionOrNull module (legalstub (fn_name func)) = None ->
         makeLegalStub self func module
         = (legalstub (fn_name func), addFunction module legal)).
Proof.
  intros legal operands index.
  subst legal operands index. rewrite legalStubFor_params.
  unfold legalStubFor.
  destruct (makeLegalStub_params (fn_params func) [] []) as [ps ops] eqn:E.
  simpl fst; simpl snd.
  split; [| split; [| split]].
  - intros Hr. rewrite Hr. cbn -[eval two32 two64 Z.div Z.modulo].
    rewrite Nat.add_0_r.
    split; [reflexivity | split; [reflexivity | split; [reflexivity |]]].
    intros env b Hb Hloc. split.
    + rewrite (eval_getI64High _ _ Hloc).
      rewrite Z.mod_small by (apply high_word_range; assumption).
      reflexivity.
    + apply (eval_getI64Low _ _ Hloc).
  - intros Hr. rewrite Hr. simpl. auto.
  - intros H64 H32.
    rewrite (Type_eqb_neq H64), (Type_eqb_neq H32). simpl. auto.
  - intros module Hnone.
    rewrite (makeLegalStub_absent self _ _ Hnone).
    unfold legalStubFor. rewrite E. reflexivity.
Qed.

Lemma export_stub_result_witness :
  fn_result (legalStubFor newPass (defined "f" [i64; f32] i64 Unreachable))
  = i32
  /\ fn_result (legalStubFor newPass (defined "f" [] f32 Unreachable)) = f64
  /\ fn_result (legalStubFor newPass (defined "f" [] f64 Unreachable)) = f64.
Proof.
  split; [| split].
  - exact (proj1 (proj1 (export_stub_result newPass
                           (defined "f" [i64; f32] i64 Unreachable))
                    eq_refl)).
  - exact (proj1 (proj1 (proj2 (export_stub_result newPass
                                  (defined "f" [] f32 Unreachable)))
                    eq_refl)).
  - refine (proj1 (proj1 (proj2 (proj2 (export_stub_result newPass
                                          (defined "f" [] f64 Unreachable))))
                     _ _)); discriminate.
Defined.

(** C5: the call-site fixer, run when at least one import was
    reclassified, turns every call whose target is a key of the
    import-to-stub map into a call of the mapped stub with the same
    operands, except inside the body of that very stub, where the call
    stays; calls of other targets are never modified. *)
Theorem call_site_fixer mp func :
  (forall target operands ty,
      (forall stub,
          map_find target mp = Some stub -> stub <> fn_name func ->
          visitCall mp func (Call target operands ty)
          = Call stub operands ty)
      /\ (forall stub,
             map_find target mp = Some stub -> stub = fn_name func ->
             visitCall mp func (Call target operands ty)
             = Call target operands ty)
      /\ (map_find target mp = None ->
          visitCall mp func (Call target operands ty)
          = Call target operands ty))
  /\ (forall e,
         walk (visitCall mp func) e
         = renameCalls (fixTarget mp (fn_name func)) e
         /\ callTargets (walk (visitCall mp func) e)
            = map (fixTarget mp (fn_name func)) (callTargets e))
  /\ (forall m,
         functions (FixImports mp m)
         = map (fun f =>
                  set_body f
                    (option_map (renameCalls (fixTarget mp (fn_name f)))
                       (fn_body f)))
               (functions m))
  /\ (forall m m',
         run m = Done m' ->
         exists self1 m1 exs m2 self3 m3,
           phases m self1 m1 exs m2 self3 m3 m'
           /\ (illegalImportsToLegal self3 <> [] ->
               m' = FixImports (illegalImportsToLegal self3)
                      (removeFunctions
                         (map_keys (illegalImportsToLegal self3)) m3))
           /\ (illegalImportsToLegal self3 = [] -> m' = m3)).
Proof.
  split; [| split; [| split]].
  - intros target operands ty. simpl. split; [| split].
    + intros stub -> Hne. apply String.eqb_neq in Hne. rewrite Hne.
      reflexivity.
    + intros stub -> ->. rewrite String.eqb_refl. reflexivity.
    + intros ->. reflexivity.
  - intros e. rewrite walk_visitCall. split; [reflexivity |].
    apply callTargets_renameCalls.
  - apply FixImports_functions.
  - intros m m' H. apply run_phases in H
      as (self1 & m1 & exs & m2 & self3 & m3 & H).
    exists self1, m1, exs, m2, self3, m3. split; [exact H |].
    destruct H as (_ & _ & _ & ->). unfold finish.
    destruct (illegalImportsToLegal self3) as [| p mp']; simpl.
    + split; [congruence | reflexivity].
    + split; [reflexivity | discriminate].
Qed.

Lemma call_site_fixer_witness :
  visitCall oneImport caller (Call "x" [Const (LitI64 1)] i64)
  = Call (legalfunc "x") [Const (LitI64 1)] i64
  /\ visitCall oneImport stubOfX (Call "x" [Const (LitI64 1)] i64)
     = Call "x" [Const (LitI64 1)] i64
  /\ visitCall oneImport caller (Call "y" [] i64) = Call "y" [] i64.
Proof.
  split; [| split].
  - refine (proj1 (proj1 (call_site_fixer oneImport caller) "x" _ _)
              (legalfunc "x") eq_refl _).
    discriminate.
  - exact (proj1 (proj2 (proj1 (call_site_fixer oneImport stubOfX) "x" _ _))
             (legalfunc "x") eq_refl eq_refl).
  - exact (proj2 (proj2 (proj1 (call_site_fixer oneImport caller) "y" _ _))
             eq_refl).
Defined.

(** C6, as the code has it: provided no function carries the name
    legalfunc$... the pass derives for the stub of an illegal import,
    after the pass no table entry names a removed illegal import, every
    entry that named an illegal import names that import's stub, and
    every other entry is unchanged.  The function found under the name
    such an entry is given is the stub the pass built for the import
    (the first illegal import of the name, of the type the import
    names), with the call sites in it fixed like those of any other
    function.  The removed imports are the keys of the name map, and
    the stub's name is the name the map gives. *)
Theorem table_names_stubs m m' :
  stubNamesFree m ->
  run m = Done m' ->
  table m' = map (renameSegment (tableRename m)) (table m)
  /\ (forall n,
         (illegalImportName m n = true -> tableRename m n = legalfunc n)
         /\ (illegalImportName m n = false -> tableRename m n = n))
  /\ (forall segment n,
         In segment (table m') -> In n (seg_data segment) ->
         illegalImportName m n = false)
  /\ (forall n,
         illegalImportName m n = true ->
         exists self m1 x t,
           ensureTempRet0Helpers newPass m = Done (self, m1)
           /\ findNamed n (illegalImports m) = Some x
           /\ typeOf m x = Some t
           /\ getFunctionOrNull m' (legalfunc n)
              = Some (redirected m (importStubOf self x t)))
  /\ exists self1 m1 exs m2 self3 m3,
       phases m self1 m1 exs m2 self3 m3 m'
       /\ forall n,
            (In n (map_keys (illegalImportsToLegal self3))
             <-> illegalImportName m n = true)
            /\ (illegalImportName m n = true ->
                map_find n (illegalImportsToLegal self3)
                = Some (legalfunc n)).
Proof.
  intros Hfree Hrun.
  pose proof (stubNamesFree_noChainedStubs Hfree) as Hno.
  apply run_phases in Hrun as (self1 & m1 & exs & m2 & self3 & m3 & Hph).
  assert (Hren : forall n,
             fold_left (fun n' k => retarget k (legalfunc k) n')
               (map fn_name (illegalImports m)) n
             = tableRename m n).
  { intros n. rewrite fold_retarget.
    - unfold tableRename.
      destruct (in_dec string_dec n (map fn_name (illegalImports m)))
        as [Hin | Hout].
      + apply illegalImportName_In in Hin. rewrite Hin. reflexivity.
      + destruct (illegalImportName m n) eqn:E; [| reflexivity].
        apply illegalImportName_In in E. contradiction.
    - intros k Hk Hin. apply illegalImportName_In in Hk, Hin.
      rewrite (Hno k Hk) in Hin. discriminate. }
  assert (Htable : table m' = map (renameSegment (tableRename m)) (table m)).
  { rewrite (phases_table Hph). apply map_ext. intros [o d].
    unfold renameSegment. simpl. f_equal. apply map_ext. exact Hren. }
  split; [exact Htable |]. split; [| split; [| split]].
  - intros n. unfold tableRename. split; intros ->; reflexivity.
  - intros segment n Hseg Hn. rewrite Htable in Hseg.
    apply in_map_iff in Hseg as (segment0 & <- & _).
    simpl in Hn. apply in_map_iff in Hn as (n0 & <- & _).
    unfold tableRename.
    destruct (illegalImportName m n0) eqn:E; [apply Hno, E | exact E].
  - intros n Hn.
    destruct (@phases_stub_built _ _ _ _ _ _ _ _ Hph Hfree n Hn)
      as (x & t & Hx & Ht & Hstub).
    exists self1, m1, x, t. split; [apply Hph |]. auto.
  - exists self1, m1, exs, m2, self3, m3. split; [exact Hph |].
    apply (phases_map Hph).
Qed.

Lemma table_names_stubs_witness :
  exists m',
    run tabledImport = Done m'
    /\ table m'
       = map (renameSegment (tableRename tabledImport)) (table tabledImport)
    /\ map seg_data (table m') = [[legalfunc "x"; "f"]]
    /\ exists self m1,
         ensureTempRet0Helpers newPass tabledImport = Done (self, m1)
         /\ getFunctionOrNull m' (legalfunc "x")
            = Some (importStubOf self (import "x" "t" [i64] f32 ENV "a")
                      {| ft_name := "t"; ft_params := [i64];
                         ft_result := f32 |}).
Proof.
  assert (H : exists m', run tabledImport = Done m')
    by (eexists; vm_compute; reflexivity).
  destruct H as (m' & Hrun).
  destruct (@table_names_stubs tabledImport m') as (Htable & _ & _ & Hstub & _).
  - intros n Hn.
    apply illegalImportName_elim in Hn as (x & [<- | [<- | []]] & <- & Hi);
      [reflexivity | discriminate].
  - exact Hrun.
  - destruct (Hstub "x" eq_refl) as (self & m1 & x & t & H1 & Hx & Ht & Hf).
    vm_compute in Hx. injection Hx as <-.
    vm_compute in Ht. injection Ht as <-.
    exists m'. split; [exact Hrun |]. split; [exact Htable |].
    vm_compute in Hrun. injection Hrun as <-.
    split; [reflexivity |].
    exists self, m1. split; [exact H1 |].
    vm_compute in H1. injection H1 as <- <-. reflexivity.
Defined.

(** C6 as stated fails: with an illegal import that carries the stub
    name of another illegal import, the table entry that named the other
    ends up naming an illegal import the pass removed. *)
Lemma table_names_removed_import :
  exists m',
    run chainedImports = Done m'
    /\ illegalImportName chainedImports (legalfunc "x") = true
    /\ getFunctionOrNull m' (legalfunc "x") = None
    /\ exists segment,
         In segment (table m') /\ In (legalfunc "x") (seg_data segment).
Proof.
  eexists. split; [vm_compute; reflexivity |].
  split; [reflexivity |]. split; [reflexivity |].
  eexists. split; [left; reflexivity | left; reflexivity].
Qed.

(** C7, as the code has it: for every module with unique function
    names and valid imports in which the names the pass derives are not
    in use against it (a function under a stub name legalstub$... and a
    function type under a name legaltype$... are legal, and no function
    carries the name legalimport$x of an illegal import x), a second run
    on the result of the first leaves the module identical. *)
Theorem run_twice m m' :
  uniqueFunctionNames m -> validImports m ->
  stubNamesLegal m -> typeNamesLegal m -> importNamesFree m ->
  run m = Done m' ->
  run m' = Done m'.
Proof.
  intros Huniq Hvalid Hstubs Htypes Hfree Hrun.
  apply run_phases in Hrun as (self1 & m1 & exs & m2 & self3 & m3 & Hph).
  destruct (@phases_channel _ _ _ _ _ _ _ _ Hph Huniq Hfree) as (self' & H1).
  apply (@run_nothing m' self' H1).
  - apply (@phases_exports _ _ _ _ _ _ _ _ Hph Huniq Hvalid Hstubs).
  - apply (@phases_import_types _ _ _ _ _ _ _ _ Hph Huniq Hvalid Htypes).
Qed.

Lemma run_twice_witness :
  exists m', run tabledImport = Done m' /\ run m' = Done m'.
Proof.
  eexists. split; [vm_compute; reflexivity |].
  apply (@run_twice tabledImport).
  - unfold uniqueFunctionNames.
    repeat (constructor; [simpl; intuition discriminate |]). constructor.
  - intros f [<- | [<- | []]] Himp; [| discriminate].
    eexists. split; [reflexivity |]. split; reflexivity.
  - intros f n [<- | [<- | []]] Hn; discriminate.
  - intros t n [<- | []] Hn. discriminate.
  - intros x [<- | [<- | []]] Hi; [reflexivity | discriminate].
  - vm_compute. reflexivity.
Defined.

(** C7 as stated fails: when a function already carries the stub name
    of an exported illegal function and is illegal itself, the first run
    repoints the export to it, and the second run makes a stub for it
    and repoints the export again. *)
Lemma second_run_changes_module :
  exists m' m'',
    run stubCollision = Done m'
    /\ run m' = Done m''
    /\ m'' <> m'
    /\ List.length (functions m'') = S (List.length (functions m'))
    /\ map ex_value (exports m') = [legalstub "f"; "getTempRet0"; "setTempRet0"]
    /\ map ex_value (exports m'')
       = [legalstub (legalstub "f"); "getTempRet0"; "setTempRet0"].
Proof.
  eexists. eexists. split; [vm_compute; reflexivity |].
  split; [vm_compute; reflexivity |].
  split; [| split; [reflexivity | split; reflexivity]].
  intros H. apply (f_equal (fun m => List.length (functions m))) in H.
  vm_compute in H. discriminate.
Qed.

(** C8: exports of the same illegal function share one stub.  The stub's
    name is derived from the function's name alone; a function already
    present under that name is reused and nothing is added; so the
    export loop repoints each export of an illegal function to the
    derived name and leaves exactly one function under a derived name
    that was free before. *)
Theorem one_stub_per_function self :
  (forall func m,
      fst (makeLegalStub self func m) = legalstub (fn_name func)
      /\ (getFunctionOrNull m (legalstub (fn_name func)) <> None ->
          snd (makeLegalStub self func m) = m)
      /\ (getFunctionOrNull m (legalstub (fn_name func)) = None ->
          functions (snd (makeLegalStub self func m))
          = functions m ++ [legalStubFor self func])
      /\ makeLegalStub self func (snd (makeLegalStub self func m))
         = makeLegalStub self func m)
  /\ (forall exs m exs' m',
         legalizeExports self exs m = Done (exs', m') ->
         Forall2
           (fun ex ex' =>
              forall func,
                isFunctionKind (ex_kind ex) = true ->
                getFunctionOrNull m (ex_value ex) = Some func ->
                if isIllegal func then
                  ex' = set_value ex (legalstub (fn_name func))
                  /\ getFunctionOrNull m' (legalstub (fn_name func)) <> None
                else ex' = ex)
           exs exs'
         /\ (forall n,
                countNamed n (functions m')
                <= Nat.max 1 (countNamed n (functions m)))
         /\ (forall ex func,
                In ex exs ->
                isFunctionKind (ex_kind ex) = true ->
                getFunctionOrNull m (ex_value ex) = Some func ->
                isIllegal func = true ->
                getFunctionOrNull m (legalstub (fn_name func)) = None ->
                countNamed (legalstub (fn_name func)) (functions m') = 1)).
Proof.
  split.
  - intros func m. split; [apply makeLegalStub_name |].
    destruct (makeLegalStub_functions self func m) as [[E H] | [E H]].
    + split; [intros _; exact E |]. split; [intros H'; contradiction |].
      rewrite E.
      destruct (getFunctionOrNull m (legalstub (fn_name func))) as [f |] eqn:Ef;
        [| contradiction].
      rewrite (makeLegalStub_present self _ _ Ef). reflexivity.
    + split; [intros H'; contradiction |].
      split; [intros _; rewrite E; reflexivity |].
      pose proof (makeLegalStub_found self func m) as Hfound.
      destruct (getFunctionOrNull (snd (makeLegalStub self func m))
                  (legalstub (fn_name func))) as [g |] eqn:Eg;
        [| contradiction].
      rewrite (makeLegalStub_present self _ _ Eg).
      rewrite (surjective_pairing (makeLegalStub self func m)).
      rewrite makeLegalStub_name. reflexivity.
  - intros exs m exs' m' H.
    pose proof (legalizeExports_retargets _ _ _ H) as Hret.
    split; [exact Hret |]. split.
    + intros n. apply (legalizeExports_count _ _ _ n H).
    + intros ex func Hin Hk Hf Hi Hnone.
      pose proof (legalizeExports_count _ _ _ (legalstub (fn_name func)) H)
        as Hc.
      apply getFunctionOrNull_count in Hnone.
      assert (Hpos : countNamed (legalstub (fn_name func)) (functions m')
                     <> 0).
      { intros Hz. apply getFunctionOrNull_count in Hz.
        eapply Forall2_in_l_exists in Hin; [| exact Hret].
        destruct Hin as (ex' & _ & Hex).
        specialize (Hex func Hk Hf). rewrite Hi in Hex.
        destruct Hex as [_ Hex]. contradiction. }
      revert Hc Hpos Hnone.
      generalize (countNamed (legalstub (fn_name func)) (functions m')).
      generalize (countNamed (legalstub (fn_name func)) (functions m)).
      intros a b. lia.
Qed.

Lemma one_stub_per_function_witness :
  exists exs' m',
    legalizeExports newPass (exports twiceExported) twiceExported
    = Done (exs', m')
    /\ map ex_value exs' = [legalstub "f"; legalstub "f"]
    /\ countNamed (legalstub "f") (functions m') = 1.
Proof.
  eexists. eexists. split; [vm_compute; reflexivity |].
  split; [reflexivity |].
  refine (proj2 (proj2 (proj2 (one_stub_per_function newPass)
                          (exports twiceExported) twiceExported _ _ _))
            (exportFunction "b" "f") _ _ eq_refl eq_refl eq_refl eq_refl).
  - reflexivity.
  - right. left. reflexivity.
Defined.

Section RoundTrip.

Local Open Scope Z_scope.

(** C9: for every 64-bit integer, the low word (the value modulo 2^32)
    and the high word (the value divided by 2^32) that the stubs compute
    recombine, the way the import stub joins the returned low word with
    the high word fetched from the channel, into exactly the original
    value; in particular for 0, -1 and the least and the greatest 64-bit
    integer. *)
Theorem split_recombine_roundtrip :
  (forall v env index,
      - 2 ^ 63 <= v < 2 ^ 63 ->
      nth_error (locals env) index = Some (LitI64 (bits64 v)) ->
      eval env (I64Utilities.getI64Low index)
      = Some (LitI32 (v mod two32))
      /\ eval env (I64Utilities.getI64High index)
         = Some (LitI32 (bits32 (v / two32)))
      /\ forall env' low high,
           eval env' low = Some (LitI32 (v mod two32)) ->
           eval env' high = Some (LitI32 (bits32 (v / two32))) ->
           exists b,
             eval env' (I64Utilities.recreateI64 low high) = Some (LitI64 b)
             /\ signed64 b = v)
  /\ (forall self im ft,
         ft_result ft = i64 ->
         exists operands,
           fn_body (snd (legalImportFor self im ft))
           = Some (I64Utilities.recreateI64
                     (Call (legalimport (fn_name im)) operands i32)
                     (if hasGlobal self then GetGlobal TEMP_RET_0 i32
                      else Call (getTempRet0 self) [] i32)))
  /\ (forall v,
         In v [0; -1; - 2 ^ 63; 2 ^ 63 - 1] ->
         signed64 (Z.lor (v mod two32)
                     (Z.shiftl (bits32 (v / two32)) (32 mod 64) mod two64))
         = v).
Proof.
  assert (Hjoin : forall v,
             - 2 ^ 63 <= v < 2 ^ 63 ->
             signed64 (Z.lor (v mod two32)
                         (Z.shiftl (bits32 (v / two32)) (32 mod 64)
                          mod two64)) = v).
  { intros v Hv.
    rewrite <- low_word_value, <- high_word_value.
    rewrite recombine_words by apply bits64_range.
    apply signed64_bits64, Hv. }
  split; [| split].
  - intros v env index Hv Hloc. split; [| split].
    + rewrite (eval_getI64Low _ _ Hloc). rewrite low_word_value. reflexivity.
    + rewrite (eval_getI64High _ _ Hloc). rewrite high_word_value.
      unfold bits32. rewrite Z.mod_mod by (unfold two32; lia). reflexivity.
    + intros env' low high Hl Hh. eexists. split.
      * apply (eval_recreateI64 _ _ _ Hl Hh).
      * apply Hjoin, Hv.
  - apply legalImportFor_i64_body.
  - intros v Hin. apply Hjoin. simpl in Hin.
    destruct Hin as [<- | [<- | [<- | [<- | []]]]]; lia.
Qed.

Lemma split_recombine_roundtrip_witness :
  eval (localsOnly [LitI64 (bits64 (-1))]) (I64Utilities.getI64Low 0)
  = Some (LitI32 ((-1) mod two32))
  /\ signed64 (Z.lor (- 2 ^ 63 mod two32)
                 (Z.shiftl (bits32 (- 2 ^ 63 / two32)) (32 mod 64)
                  mod two64))
     = - 2 ^ 63.
Proof.
  split.
  - refine (proj1 (proj1 split_recombine_roundtrip (-1)
                     (localsOnly [LitI64 (bits64 (-1))]) 0%nat _ eq_refl)).
    lia.
  - apply (proj2 (proj2 split_recombine_roundtrip)).
    simpl. right. right. left. reflexivity.
Defined.

End RoundTrip.

(** C10: on the fallback branch the register is a mutable i32 global
    initialised to zero, and it is created only when no global of the
    well-known name exists; a global already under that name stays as
    it is, and the channel is register-accessible either way. *)
Theorem fallback_register self m :
  getImportedFunction m ENV GET_TEMP_RET_0 = None ->
  getImportedFunction m ENV SET_TEMP_RET_0 = None ->
  getExportOrNull m GET_TEMP_RET_0 = None ->
  getExportOrNull m SET_TEMP_RET_0 = None ->
  exists self' m',
    ensureTempRet0Helpers self m = Done (self', m')
    /\ hasGlobal self' = true
    /\ (getGlobalOrNull m TEMP_RET_0 = None ->
        globals m'
        = globals m
          ++ [ {| gl_name := TEMP_RET_0; gl_type := i32;
                  gl_init := Const (LitI32 0); gl_mutable := true |} ])
    /\ (forall g,
           getGlobalOrNull m TEMP_RET_0 = Some g ->
           globals m' = globals m /\ getGlobalOrNull m' TEMP_RET_0 = Some g).
Proof.
  intros Hig His Heg Hes.
  rewrite (ensureTempRet0Helpers_created self _ Hig His Heg Hes).
  eexists; eexists; split; [reflexivity |].
  split; [reflexivity |].
  unfold withChannel, withRegister. simpl.
  destruct (getGlobalOrNull m TEMP_RET_0) as [g0 |] eqn:Eg.
  - split; [discriminate |].
    intros g Hg. inversion Hg; subst. split; [reflexivity | exact Eg].
  - split; [intros _; reflexivity | discriminate].
Qed.

Lemma fallback_register_witness :
  exists self' m',
    ensureTempRet0Helpers newPass ownRegister = Done (self', m')
    /\ hasGlobal self' = true
    /\ (getGlobalOrNull ownRegister TEMP_RET_0 = None ->
        globals m'
        = globals ownRegister
          ++ [ {| gl_name := TEMP_RET_0; gl_type := i32;
                  gl_init := Const (LitI32 0); gl_mutable := true |} ])
    /\ (forall g,
           getGlobalOrNull ownRegister TEMP_RET_0 = Some g ->
           globals m' = globals ownRegister
           /\ getGlobalOrNull m' TEMP_RET_0 = Some g).
Proof.
  exact (@fallback_register newPass ownRegister eq_refl eq_refl eq_refl
           eq_refl).
Defined.

(* ===================================================================== *)
(** * What the hypotheses on the input are for *)
(* ===================================================================== *)

(** With an illegal function type under a derived type name, the legal
    import of the first run is taken for an illegal one by the second. *)
Example type_name_collision :
  exists m' m'',
    run typeCollision = Done m'
    /\ run m' = Done m''
    /\ functionNames m'
       = [GET_TEMP_RET_0; SET_TEMP_RET_0; legalfunc "x"; legalimport "x"]
    /\ functionNames m''
       = [GET_TEMP_RET_0; SET_TEMP_RET_0; legalfunc "x";
          legalfunc (legalimport "x"); legalimport (legalimport "x")].
Proof.
  eexists. eexists. split; [vm_compute; reflexivity |].
  split; [vm_compute; reflexivity |]. split; reflexivity.
Qed.

(** With a function under the name derived for the legal import of an
    illegally typed channel getter, the first run loses the imported
    getter and the second run finds half a channel. *)
Example import_name_collision :
  exists m',
    run importCollision = Done m'
    /\ run m' = Fatal partialTempRet0 m'.
Proof. eexists. split; vm_compute; reflexivity. Qed.

(** An import that does not carry the signature of the type it names is
    judged by the type, and stays. *)
Example invalid_import_stays :
  exists m' f,
    run invalidImport = Done m'
    /\ In f (functions m') /\ imported f = true /\ In i64 (params f).
Proof.
  eexists. eexists. split; [vm_compute; reflexivity |].
  split; [left; reflexivity |]. split; [reflexivity | left; reflexivity].
Qed.

(** Of two functions of one name, the first is the one that is removed. *)
Example shared_name_import_stays :
  exists m' f,
    run sharedName = Done m'
    /\ In f (functions m') /\ imported f = true /\ In i64 (params f).
Proof.
  eexists. eexists. split; [vm_compute; reflexivity |].
  split; [left; reflexivity |]. split; [reflexivity | left; reflexivity].
Qed.

(** With a function already under the stub name of an illegal import,
    no stub is made: the table entry that named the import ends up
    naming that function, which is not of the import's signature. *)
Example table_names_unrelated_function :
  exists m' f,
    run preStub = Done m'
    /\ noChainedStubs preStub
    /\ map seg_data (table m') = [[legalfunc "x"]]
    /\ getFunctionOrNull m' (legalfunc "x") = Some f
    /\ f = defined (legalfunc "x") [] i32 (Const (LitI32 0))
    /\ getFunctionOrNull m' "x" = None.
Proof.
  eexists. eexists. split; [vm_compute; reflexivity |].
  split.
  { intros n Hn.
    apply illegalImportName_elim in Hn as (x & [<- | [<- | []]] & <- & Hi);
      [reflexivity | discriminate]. }
  split; [reflexivity |]. split; [reflexivity |].
  split; reflexivity.
Qed.
